(** * regex404-offline: the regular-expression engine of src/js/regex-engine.js

    A shallow embedding of the [RegexEngine] class (pattern explainer, match
    engine, substitution engine) together with the part of the host platform
    it runs on (ECMAScript strings and the [RegExp] built-ins), and the
    properties of the specification stated and settled against it. *)

From Stdlib Require Import NArith ZArith Lia List Ascii String Bool.
From stdpp Require Import base option list numbers gmap sorting.

(* ===================================================================== *)
(** * ECMAScript strings

    A string is a sequence of 16-bit code units, kept as [N]. Source literals
    are written as Rocq strings and read through [js]. *)
(* ===================================================================== *)

Abbreviation jsstring := (list N).

Definition ch (a : ascii) : N := N_of_ascii a.
Arguments ch _%_char.

Definition js (s : string) : jsstring := map N_of_ascii (list_ascii_of_string s).
Arguments js _%_string.

(** The double quote, the line feed and the no-break space as code units. *)
Definition QUOTE : N := 34.
Definition LF : N := 10.
Definition NBSP : N := 160.

Module JS.

(** [s.startsWith(p)]. *)
Fixpoint startsWith (s p : jsstring) : bool :=
  match p, s with
  | [], _ => true
  | _ :: _, [] => false
  | a :: p', b :: s' => (a =? b)%N && startsWith s' p'
  end.

(** [s.indexOf(sub, k)] on the suffix of [s] that starts at index [k]:
    [-1] when [sub] does not occur. *)
Fixpoint indexOf_from (s sub : jsstring) (k : nat) : Z :=
  if startsWith s sub then Z.of_nat k
  else match s with
       | [] => (-1)%Z
       | _ :: t => indexOf_from t sub (S k)
       end.

Definition indexOf (s sub : jsstring) (position : nat) : Z :=
  indexOf_from (drop position s) sub (position `min` length s).

(** [s.includes(sub)]. *)
Definition includes (s sub : jsstring) : bool :=
  negb (indexOf s sub 0 =? -1)%Z.

(** [s.substring(a, b)]: both ends are clamped to [0 .. length] and swapped
    when they come in the wrong order. *)
Definition clamp (len : nat) (z : Z) : nat := Z.to_nat (Z.max 0 z) `min` len.

Definition substring (s : jsstring) (a b : Z) : jsstring :=
  let a' := clamp (length s) a in
  let b' := clamp (length s) b in
  let from := a' `min` b' in
  let to := a' `max` b' in
  take (to - from) (drop from s).

(** [s.substring(a)]. *)
Definition substringFrom (s : jsstring) (a : Z) : jsstring :=
  drop (clamp (length s) a) s.

(** [s.split(sep)] for a separator of one code unit. *)
Fixpoint split_go (s : jsstring) (sep : N) (cur : jsstring) : list jsstring :=
  match s with
  | [] => [rev cur]
  | c :: t => if (c =? sep)%N then rev cur :: split_go t sep []
              else split_go t sep (c :: cur)
  end.

Definition split (s : jsstring) (sep : N) : list jsstring := split_go s sep [].

(** [parts.join(sep)]. *)
Fixpoint join (parts : list jsstring) (sep : jsstring) : jsstring :=
  match parts with
  | [] => []
  | [p] => p
  | p :: rest => p ++ sep ++ join rest sep
  end.

(** [div.textContent = text; div.innerHTML]: the DOM serialises a text node
    with [&], [<], [>] and the no-break space escaped. *)
Definition escapeChar (c : N) : jsstring :=
  if (c =? ch "&")%N then js "&amp;"
  else if (c =? ch "<")%N then js "&lt;"
  else if (c =? ch ">")%N then js "&gt;"
  else if (c =? NBSP)%N then js "&nbsp;"
  else [c].

Definition textToInnerHTML (text : jsstring) : jsstring :=
  flat_map escapeChar text.

End JS.

(* ===================================================================== *)
(** * Completions

    How a call ends: it returns a value, it throws an [Error] with a message,
    or the budget of loop iterations given to the model ran out before the
    source's loop ended. *)
(* ===================================================================== *)

Inductive Completion (A : Type) : Type :=
| Normal (a : A)
| Throw (message : jsstring)
| OutOfFuel.
Arguments Normal {A} a.
Arguments Throw {A} message.
Arguments OutOfFuel {A}.

Definition bindC {A B : Type} (c : Completion A) (k : A -> Completion B) : Completion B :=
  match c with
  | Normal a => k a
  | Throw m => Throw m
  | OutOfFuel => OutOfFuel
  end.

(** [try { body } catch (error) { handler(error.message) }]. *)
Definition tryCatch {A : Type} (body : Completion A) (handler : jsstring -> Completion A)
  : Completion A :=
  match body with
  | Throw m => handler m
  | other => other
  end.

Notation "'do' x <- c ; k" := (bindC c (fun x => k))
  (at level 10, x pattern, c at level 100, k at level 200).

(* ===================================================================== *)
(** * The pattern explainer: [explain] and its helpers *)
(* ===================================================================== *)

Module Explain.

Record Explanation : Type := { token : jsstring; description : jsstring }.

Definition createExplanation (token description : jsstring) : Explanation :=
  {| token := token; description := description |}.

Definition getEscapeExplanation (char : N) : jsstring :=
  if (char =? ch "d")%N then js "Matches any digit character [0-9]"
  else if (char =? ch "D")%N then js "Matches any non-digit character"
  else if (char =? ch "w")%N then js "Matches any word character [a-zA-Z0-9_]"
  else if (char =? ch "W")%N then js "Matches any non-word character"
  else if (char =? ch "s")%N then js "Matches any whitespace character"
  else if (char =? ch "S")%N then js "Matches any non-whitespace character"
  else if (char =? ch "b")%N then js "Matches a word boundary"
  else if (char =? ch "B")%N then js "Matches a non-word boundary"
  else if (char =? ch "n")%N then js "Matches a newline character"
  else if (char =? ch "r")%N then js "Matches a carriage return"
  else if (char =? ch "t")%N then js "Matches a tab character"
  else if (char =? ch "v")%N then js "Matches a vertical tab character"
  else if (char =? ch "f")%N then js "Matches a form feed character"
  else if (char =? ch "0")%N then js "Matches a null character"
  else if (char =? ch "\")%N then js "Matches a backslash literally"
  else js "Escapes the character " ++ [QUOTE] ++ [char] ++ [QUOTE].

Definition getCharClassExplanation (charClass : jsstring) : jsstring :=
  if JS.startsWith charClass (js "[^") then
    js "Matches any character NOT in the set "
       ++ JS.substring charClass 2 (Z.of_nat (length charClass) - 1)
  else
    js "Matches any character in the set "
       ++ JS.substring charClass 1 (Z.of_nat (length charClass) - 1).

Definition getGroupExplanation (group : jsstring) : jsstring :=
  if JS.startsWith group (js "(?:") then js "Non-capturing group"
  else if JS.startsWith group (js "(?=") then js "Positive lookahead assertion"
  else if JS.startsWith group (js "(?!") then js "Negative lookahead assertion"
  else if JS.startsWith group (js "(?<=") then js "Positive lookbehind assertion"
  else if JS.startsWith group (js "(?<!") then js "Negative lookbehind assertion"
  else if JS.startsWith group (js "(?<") then
    let nameEnd := JS.indexOf group (js ">") 0 in
    let name := JS.substring group 3 nameEnd in
    js "Named capturing group " ++ [QUOTE] ++ name ++ [QUOTE]
  else js "Capturing group".

(** [const [min, max] = content.split(',')]; [if (max)] holds for a non-empty
    string. *)
Definition getQuantifierExplanation (quantifier : jsstring) : jsstring :=
  let content := JS.substring quantifier 1 (Z.of_nat (length quantifier) - 1) in
  if JS.includes content (js ",") then
    let parts := JS.split content (ch ",") in
    let min := default [] (parts !! 0) in
    match parts !! 1 with
    | Some ((_ :: _) as max) =>
        js "Matches previous token between " ++ min ++ js " and " ++ max ++ js " times"
    | _ => js "Matches previous token " ++ min ++ js " or more times"
    end
  else js "Matches previous token exactly " ++ content ++ js " times".

Definition getFlagsExplanation (flags : jsstring) : jsstring :=
  let push (c : N) (text : jsstring) (acc : list jsstring) :=
    if JS.includes flags [c] then acc ++ [text] else acc in
  let flagExplanations :=
    push (ch "y") (js "sticky")
      (push (ch "u") (js "unicode")
        (push (ch "s") (js "single line (. matches newlines)")
          (push (ch "m") (js "multiline (^ and $ match line breaks)")
            (push (ch "i") (js "case insensitive")
              (push (ch "g") (js "global (find all matches)") []))))) in
  JS.join flagExplanations (js ", ").

Definition escapeHtml (text : jsstring) : jsstring := JS.textToInnerHTML text.

Definition indent (n : nat) : jsstring := replicate n (ch " ").

Definition formatExplanation (explanations : list Explanation) : jsstring :=
  let part (exp : Explanation) : jsstring :=
    [LF] ++ indent 16 ++ js "<div class=" ++ [QUOTE] ++ js "explanation-part" ++ [QUOTE] ++ js ">"
    ++ [LF] ++ indent 20 ++ js "<code>" ++ escapeHtml (token exp) ++ js "</code>"
    ++ [LF] ++ indent 20 ++ js "<span>" ++ description exp ++ js "</span>"
    ++ [LF] ++ indent 16 ++ js "</div>"
    ++ [LF] ++ indent 12 in
  fold_left (fun html exp => html ++ part exp) explanations
    (js "<div class=" ++ [QUOTE] ++ js "regex-explanation" ++ [QUOTE] ++ js ">")
  ++ js "</div>".

(** The inner loop of the ['('] case:
    [while (j < pattern.length && depth > 0) { ...; j++ }]. It returns the
    final [j]. *)
Fixpoint groupScan (fuel : nat) (pattern : jsstring) (j depth : nat) : Completion nat :=
  match pattern !! j with
  | None => Normal j
  | Some c =>
    if (depth =? 0)%nat then Normal j
    else match fuel with
         | O => OutOfFuel
         | S fuel' =>
           let unescaped := negb (bool_decide (pattern !! (j - 1)%nat = Some (ch "\"))) in
           let depth1 := if (c =? ch "(")%N && unescaped then S depth else depth in
           let depth2 := if (c =? ch ")")%N && unescaped then (depth1 - 1)%nat else depth1 in
           groupScan fuel' pattern (S j) depth2
         end
  end.

(** One turn of the [switch (char)]: the explanations after it and the new
    cursor. *)
Definition explainCase (fuel : nat) (pattern : jsstring) (i : nat) (char : N)
    (explanations : list Explanation) : Completion (list Explanation * nat) :=
  let push (tok desc : jsstring) := explanations ++ [createExplanation tok desc] in
  if (char =? ch "^")%N then
    Normal (push (js "^") (js "Asserts position at start of string or line"), S i)
  else if (char =? ch "$")%N then
    Normal (push (js "$") (js "Asserts position at end of string or line"), S i)
  else if (char =? ch ".")%N then
    Normal (push (js ".") (js "Matches any character (except newline unless s flag is set)"), S i)
  else if (char =? ch "*")%N then
    Normal (push (js "*") (js "Matches previous token 0 or more times (greedy)"), S i)
  else if (char =? ch "+")%N then
    Normal (push (js "+") (js "Matches previous token 1 or more times (greedy)"), S i)
  else if (char =? ch "?")%N then
    let prev := pattern !! (i - 1)%nat in
    if (0 <? i)%nat && (bool_decide (prev = Some (ch "*"))
                        || bool_decide (prev = Some (ch "+"))
                        || bool_decide (prev = Some (ch "?")))
    then Normal (push (js "?") (js "Makes previous quantifier lazy (non-greedy)"), S i)
    else Normal (push (js "?") (js "Matches previous token 0 or 1 time"), S i)
  else if (char =? ch "\")%N then
    match pattern !! S i with
    | Some nextChar =>
        let escapeSeq := [ch "\"] ++ [nextChar] in
        Normal (push escapeSeq (getEscapeExplanation nextChar), S (S i))
    | None => Normal (explanations, S i)
    end
  else if (char =? ch "[")%N then
    let endBracket := JS.indexOf pattern (js "]") i in
    if negb (endBracket =? -1)%Z then
      let charClass := JS.substring pattern (Z.of_nat i) (endBracket + 1) in
      Normal (push charClass (getCharClassExplanation charClass), Z.to_nat (endBracket + 1))
    else Normal (explanations, S i)
  else if (char =? ch "(")%N then
    do j <- groupScan fuel pattern (S i) 1;
    let group := JS.substring pattern (Z.of_nat i) (Z.of_nat j) in
    Normal (push group (getGroupExplanation group), j)
  else if (char =? ch "|")%N then
    Normal (push (js "|") (js "Alternation (OR operator)"), S i)
  else if (char =? ch "{")%N then
    let endBrace := JS.indexOf pattern (js "}") i in
    if negb (endBrace =? -1)%Z then
      let quantifier := JS.substring pattern (Z.of_nat i) (endBrace + 1) in
      Normal (push quantifier (getQuantifierExplanation quantifier), Z.to_nat (endBrace + 1))
    else Normal (explanations, S i)
  else
    Normal (push [char] (js "Matches the character " ++ [QUOTE] ++ [char] ++ [QUOTE]
                         ++ js " literally"), S i).

(** [while (i < pattern.length) { const char = pattern[i]; switch ... }]:
    [pattern !! i] is [None] exactly when [i < pattern.length] fails. *)
Fixpoint explainLoop (fuel : nat) (pattern : jsstring) (i : nat)
    (explanations : list Explanation) : Completion (list Explanation) :=
  match pattern !! i with
  | None => Normal explanations
  | Some char =>
    match fuel with
    | O => OutOfFuel
    | S fuel' =>
      do r <- explainCase fuel' pattern i char explanations;
      explainLoop fuel' pattern r.2 r.1
    end
  end.

(** The [explanations] array as it stands when [formatExplanation] is called. *)
Definition explainTokens (fuel : nat) (pattern flags : jsstring) : Completion (list Explanation) :=
  do explanations <- explainLoop fuel pattern 0 [];
  match flags with
  | [] => Normal explanations
  | _ :: _ =>
      Normal (explanations ++
              [createExplanation (js "Flags: " ++ flags) (getFlagsExplanation flags)])
  end.

Definition explain (fuel : nat) (pattern flags : jsstring) : Completion jsstring :=
  do explanations <- explainTokens fuel pattern flags;
  Normal (formatExplanation explanations).

End Explain.


(* ===================================================================== *)
(** * The host: ECMAScript's [RegExp] built-ins

    The engine delegates all matching to the host. What follows is the part
    of ECMA-262 the source calls: the string index helpers, [RegExp] objects,
    [RegExp.prototype.exec] (RegExpBuiltinExec), [GetSubstitution] and
    [String.prototype.replace] with a regular expression
    ([RegExp.prototype[Symbol.replace]]). How a pattern text becomes a matcher
    is left to [HostRegExp] below. *)
(* ===================================================================== *)

Module Host.

Definition isLeadingSurrogate (c : N) : bool := (55296 <=? c)%N && (c <=? 56319)%N.
Definition isTrailingSurrogate (c : N) : bool := (56320 <=? c)%N && (c <=? 57343)%N.

Definition UTF16SurrogatePairToCodePoint (lead trail : N) : N :=
  ((lead - 55296) * 1024 + (trail - 56320) + 65536)%N.

Definition isSurrogatePair (first second : N) : bool :=
  isLeadingSurrogate first && isTrailingSurrogate second.

(** CodePointAt(str, position).[[CodeUnitCount]]. *)
Definition codeUnitCountAt (str : jsstring) (position : nat) : nat :=
  match str !! position, str !! (position + 1)%nat with
  | Some first, Some second => if isSurrogatePair first second then 2 else 1
  | _, _ => 1
  end.

Definition AdvanceStringIndex (str : jsstring) (index : nat) (unicode : bool) : nat :=
  if negb unicode then index + 1
  else if (length str <=? index + 1)%nat then index + 1
  else index + codeUnitCountAt str index.

Fixpoint StringToCodePoints (str : jsstring) : list N :=
  match str with
  | [] => []
  | first :: rest =>
    match rest with
    | second :: rest' =>
      if isSurrogatePair first second
      then UTF16SurrogatePairToCodePoint first second :: StringToCodePoints rest'
      else first :: StringToCodePoints rest
    | [] => [first]
    end
  end.

(** GetStringIndex(str, codePointIndex): the code-unit index at which the code
    point of that index starts, the length of [str] past the last one. *)
Fixpoint GetStringIndex (str : jsstring) (codePointIndex : nat) {struct str} : nat :=
  match codePointIndex, str with
  | O, _ => 0
  | _, [] => 0
  | S e, first :: rest =>
    match rest with
    | second :: rest' =>
      if isSurrogatePair first second
      then 2 + GetStringIndex rest' e
      else 1 + GetStringIndex rest e
    | [] => 1
    end
  end.

(** "The index into input of the character that was obtained from element
    [index] of str": the code point a code unit belongs to. *)
Fixpoint codePointIndexOf (str : jsstring) (index : nat) {struct str} : nat :=
  match index, str with
  | O, _ => 0
  | _, [] => 0
  | S i, first :: rest =>
    match rest with
    | second :: rest' =>
      if isSurrogatePair first second
      then match i with
           | O => 0
           | S i' => 1 + codePointIndexOf rest' i'
           end
      else 1 + codePointIndexOf rest i
    | [] => 1
    end
  end.

(** The flags of a [RegExp] object, read off its [[OriginalFlags]]. *)
Record RegExpFlags : Type := {
  hasIndices : bool; global : bool; ignoreCase : bool; multiline : bool;
  dotAll : bool; unicode : bool; unicodeSets : bool; sticky : bool }.

Definition flagsOf (F : jsstring) : RegExpFlags :=
  {| hasIndices := JS.includes F (js "d"); global := JS.includes F (js "g");
     ignoreCase := JS.includes F (js "i"); multiline := JS.includes F (js "m");
     dotAll := JS.includes F (js "s"); unicode := JS.includes F (js "u");
     unicodeSets := JS.includes F (js "v"); sticky := JS.includes F (js "y") |}.

Definition fullUnicode (fl : RegExpFlags) : bool := unicode fl || unicodeSets fl.

(** What the pattern compiler is told of the flags (the RegExp Record). *)
Record RegExpRecord : Type := {
  IgnoreCase : bool; Multiline : bool; DotAll : bool; Unicode : bool; UnicodeSets : bool }.

Definition recordOf (fl : RegExpFlags) : RegExpRecord :=
  {| IgnoreCase := ignoreCase fl; Multiline := multiline fl; DotAll := dotAll fl;
     Unicode := unicode fl; UnicodeSets := unicodeSets fl |}.

(** A matcher is run on the input (code units, code points under [u]/[v]) at
    an index, and answers with the index where the match ends and the
    captured ranges, one per capture group, or fails. *)
Record MatchState : Type := { endIndex : nat; captures : list (option (nat * nat)) }.

Definition Matcher : Type := list N -> nat -> option MatchState.

Record CompiledPattern : Type := {
  cMatcher : Matcher;
  cGroupNames : list (option jsstring) }.

Record RegExpObject : Type := {
  OriginalSource : jsstring;
  OriginalFlags : jsstring;
  RegExpMatcher : Matcher;
  GroupNames : list (option jsstring) }.

Definition flags_ (R : RegExpObject) : RegExpFlags := flagsOf (OriginalFlags R).

(** The [flags] accessor: the flags in the order [dgimsuvy]. *)
Definition flagsGetter (R : RegExpObject) : jsstring :=
  let fl := flags_ R in
  (if hasIndices fl then js "d" else []) ++ (if global fl then js "g" else [])
  ++ (if ignoreCase fl then js "i" else []) ++ (if multiline fl then js "m" else [])
  ++ (if dotAll fl then js "s" else []) ++ (if unicode fl then js "u" else [])
  ++ (if unicodeSets fl then js "v" else []) ++ (if sticky fl then js "y" else []).

(** Property keys of the objects the engine touches: array indices and
    names. A value is a string or [undefined] ([None]). *)
Abbreviation PropertyKey := (nat + jsstring)%type.
Abbreviation JSObject := (gmap PropertyKey (option jsstring)).

(** The array that [exec] returns: its elements (element 0 is the matched
    text; a group that did not take part is [undefined]), [index], [input]
    and [groups] ([undefined], or an object). The [indices] property of the
    [d] flag is not read by the engine and is left out. *)
Record Match : Type := {
  array : list (option jsstring);
  index : nat;
  input : jsstring;
  groups : option JSObject }.

(** [match[0]] as a string: ToString(Get(result, "0")). *)
Definition matched (m : Match) : jsstring := default [] (default None (array m !! 0)).

Definition substr (str : jsstring) (from to : nat) : jsstring := take (to - from) (drop from str).

(** Step 13 of RegExpBuiltinExec: try the matcher at [lastIndex], moving on
    by AdvanceStringIndex after a failure unless the expression is sticky.
    [n] bounds the number of attempts; [2 + length str] of them are never
    used up ([HostFacts.execSearch_budget]). *)
Fixpoint execSearch (n : nat) (R : RegExpObject) (str : jsstring) (inputChars : list N)
    (lastIndex : nat) : option (nat * nat * MatchState) :=
  match n with
  | O => None
  | S n' =>
    if (length str <? lastIndex)%nat then None
    else
      let fl := flags_ R in
      let inputIndex := if fullUnicode fl then codePointIndexOf str lastIndex else lastIndex in
      match RegExpMatcher R inputChars inputIndex with
      | None =>
          if sticky fl then None
          else execSearch n' R str inputChars (AdvanceStringIndex str lastIndex (fullUnicode fl))
      | Some r => Some (lastIndex, inputIndex, r)
      end
  end.

Definition namedGroups (names : list (option jsstring)) (values : list (option jsstring))
  : option JSObject :=
  if forallb (fun n => negb (bool_decide (is_Some n))) names then None
  else Some (fold_left
               (fun (o : JSObject) (nv : option jsstring * option jsstring) =>
                  match nv.1 with
                  | Some name => <[inr name := nv.2]> o
                  | None => o
                  end)
               (zip names values) ∅).

(** Steps 14 to 34 of RegExpBuiltinExec: the result array for a match that
    the matcher, started at [inputIndex], ended with state [r]. [index] is
    the code-unit index of the character the matcher was started at. That is
    [lastIndex], except under [u]/[v] for a [lastIndex] inside a surrogate
    pair: the matcher is then started at the pair (ECMA-262 22.2.7.2, step
    13.b: the character that was obtained from element [lastIndex]), and
    the engines (V8's step back to the lead surrogate) report the start of
    the pair, which keeps the start of a match at or before its end as
    GetMatchString asserts. *)
Definition execResult (R : RegExpObject) (str : jsstring) (inputIndex : nat)
    (r : MatchState) : Match :=
  let unit (i : nat) := if fullUnicode (flags_ R) then GetStringIndex str i else i in
  let values :=
    map (fun cap : option (nat * nat) =>
           match cap with
           | Some (a, b) => Some (substr str (unit a) (unit b))
           | None => None
           end) (captures r) in
  {| array := Some (substr str (unit inputIndex) (unit (endIndex r))) :: values;
     index := unit inputIndex;
     input := str;
     groups := namedGroups (GroupNames R) values |}.

(** RegExpBuiltinExec(R, str), with the [lastIndex] property passed in and
    out. *)
Definition RegExpBuiltinExec (R : RegExpObject) (str : jsstring) (lastIndex : nat)
  : option Match * nat :=
  let fl := flags_ R in
  let usesLastIndex := global fl || sticky fl in
  let start := if usesLastIndex then lastIndex else 0 in
  let inputChars := if fullUnicode fl then StringToCodePoints str else str in
  match execSearch (2 + length str) R str inputChars start with
  | None => (None, if usesLastIndex then 0 else lastIndex)
  | Some (_, inputIndex, r) =>
      let e := if fullUnicode fl then GetStringIndex str (endIndex r) else endIndex r in
      (Some (execResult R str inputIndex r), if usesLastIndex then e else lastIndex)
  end.

(** ** GetSubstitution *)

Definition isDigit (c : N) : bool := (48 <=? c)%N && (c <=? 57)%N.
Definition digitValue (c : N) : nat := N.to_nat (c - 48).

(** One replacement pattern at the head of the template: the number of code
    units it takes and what it stands for. *)
Definition substitutionAt (matched_ : jsstring) (str : jsstring) (position : nat)
    (captures_ : list (option jsstring)) (namedCaptures : option JSObject)
    (templateRemainder : jsstring) : nat * jsstring :=
  let literal (n : nat) := (n, take n templateRemainder) in
  match templateRemainder with
  | [] => (0, [])
  | c0 :: rest =>
    if negb (c0 =? ch "$")%N then literal 1
    else match rest with
    | [] => literal 1
    | c1 :: rest1 =>
      if (c1 =? ch "$")%N then (2, js "$")
      else if (c1 =? ch "`")%N then (2, substr str 0 position)
      else if (c1 =? ch "&")%N then (2, matched_)
      else if (c1 =? ch "'")%N then
        let tailPos := position + length matched_ in
        (2, drop (tailPos `min` length str) str)
      else if isDigit c1 then
        let m := length captures_ in
        let one := digitValue c1 in
        let two := match rest1 with
                   | c2 :: _ => if isDigit c2 then Some (10 * one + digitValue c2) else None
                   | [] => None
                   end in
        let '(digitCount, idx) :=
          match two with
          | Some v => if (m <? v)%nat then (1, one) else (2, v)
          | None => (1, one)
          end in
        if (1 <=? idx)%nat && (idx <=? m)%nat then
          (1 + digitCount, default [] (default None (captures_ !! (idx - 1)%nat)))
        else literal (1 + digitCount)
      else if (c1 =? ch "<")%N then
        let gtPos := JS.indexOf templateRemainder (js ">") 0 in
        match namedCaptures with
        | Some o =>
          if (gtPos =? -1)%Z then literal 2
          else
            let groupName := JS.substring templateRemainder 2 gtPos in
            (Z.to_nat gtPos + 1, default [] (default None (o !! inr groupName)))
        | None => literal 2
        end
      else literal 1
    end
  end.

Fixpoint substitutionLoop (n : nat) (matched_ str : jsstring) (position : nat)
    (captures_ : list (option jsstring)) (namedCaptures : option JSObject)
    (templateRemainder : jsstring) : jsstring :=
  match n, templateRemainder with
  | _, [] => []
  | O, _ => []
  | S n', _ =>
    let '(refLength, refReplacement) :=
      substitutionAt matched_ str position captures_ namedCaptures templateRemainder in
    refReplacement ++
      substitutionLoop n' matched_ str position captures_ namedCaptures
        (drop refLength templateRemainder)
  end.

(** GetSubstitution(matched, str, position, captures, namedCaptures,
    replacementTemplate); every turn takes at least one code unit off the
    template, so [length replacementTemplate] turns are enough
    ([ReplaceFacts.substitutionLoop_budget]). *)
Definition GetSubstitution (matched_ str : jsstring) (position : nat)
    (captures_ : list (option jsstring)) (namedCaptures : option JSObject)
    (replacementTemplate : jsstring) : jsstring :=
  substitutionLoop (length replacementTemplate) matched_ str position captures_
    namedCaptures replacementTemplate.

(** ** [String.prototype.replace] with a regular expression *)

(** The second argument of [replace]: a template string, or a function
    called with the matched text, the captures, the position and the
    subject. *)
Inductive ReplaceValue : Type :=
| ReplaceTemplate (template : jsstring)
| ReplaceFunction (f : jsstring -> list (option jsstring) -> nat -> jsstring -> jsstring).

(** Step 13 of [RegExp.prototype[Symbol.replace]]: the results, one when the
    expression is not global. After an empty match [lastIndex] is moved on by
    AdvanceStringIndex. [n] bounds the number of turns; [2 + length str] of
    them are never used up ([ReplaceFacts.replaceCollect_budget]). *)
Fixpoint replaceCollect (n : nat) (R : RegExpObject) (str : jsstring) (lastIndex : nat)
  : list Match :=
  match n with
  | O => []
  | S n' =>
    match RegExpBuiltinExec R str lastIndex with
    | (None, _) => []
    | (Some result, lastIndex') =>
      if negb (global (flags_ R)) then [result]
      else
        let nextIndex :=
          match matched result with
          | [] => AdvanceStringIndex str lastIndex' (fullUnicode (flags_ R))
          | _ :: _ => lastIndex'
          end in
        result :: replaceCollect n' R str nextIndex
    end
  end.

(** Steps 16.a to 16.o: the text that takes the place of one result. *)
Definition replacementOf (str : jsstring) (replaceValue : ReplaceValue) (result : Match)
  : jsstring :=
  let matched_ := matched result in
  let position := index result `min` length str in
  let captures_ := drop 1 (array result) in
  match replaceValue with
  | ReplaceFunction f => f matched_ captures_ position str
  | ReplaceTemplate template =>
      GetSubstitution matched_ str position captures_ (groups result) template
  end.

(** Step 16: one result folded into [(accumulatedResult, nextSourcePosition)]. *)
Definition replaceStep (str : jsstring) (replaceValue : ReplaceValue)
    (acc : jsstring * nat) (result : Match) : jsstring * nat :=
  let '(accumulatedResult, nextSourcePosition) := acc in
  let matchLength := length (matched result) in
  let position := index result `min` length str in
  let replacement := replacementOf str replaceValue result in
  if (nextSourcePosition <=? position)%nat then
    (accumulatedResult ++ substr str nextSourcePosition position ++ replacement,
     position + matchLength)
  else acc.

(** [str.replace(R, replaceValue)] for a [RegExp] object [R] whose [lastIndex]
    is 0, as it is for a regular-expression literal and for an object fresh
    from the constructor. *)
Definition StringReplace (str : jsstring) (R : RegExpObject) (replaceValue : ReplaceValue)
  : jsstring :=
  let results := replaceCollect (2 + length str) R str 0 in
  let '(accumulatedResult, nextSourcePosition) :=
    fold_left (replaceStep str replaceValue) results ([], 0) in
  if (length str <=? nextSourcePosition)%nat then accumulatedResult
  else accumulatedResult ++ drop nextSourcePosition str.

(** ** The constructor *)

Definition validFlags (F : jsstring) : bool :=
  forallb (fun c => bool_decide (c ∈ js "dgimsuvy")) F
  && bool_decide (NoDup F)
  && negb (JS.includes F (js "u") && JS.includes F (js "v")).

End Host.

(** The host's pattern compiler: the text of a pattern and the RegExp Record
    to a matcher, or the message of the [SyntaxError] it throws. The laws are
    ECMA-262's: a match of the whole pattern ends at or after the index it
    started at, inside the input; and the [source] accessor's text
    (EscapeRegExpPattern) compiles to a regular expression that behaves as
    the original one. *)
Class HostRegExp : Type := {
  CompilePattern : jsstring -> Host.RegExpRecord -> jsstring + Host.CompiledPattern;
  InvalidFlagsMessage : jsstring -> jsstring;
  EscapeRegExpPattern : jsstring -> jsstring;
  matcher_bounds :
    forall P rer c inputChars i st,
      CompilePattern P rer = inr c ->
      i <= length inputChars ->
      Host.cMatcher c inputChars i = Some st ->
      i <= Host.endIndex st <= length inputChars;
  escape_compiles_alike :
    forall P rer, CompilePattern (EscapeRegExpPattern P) rer = CompilePattern P rer
}.

Module Ctor.
Import Host.

(** [new RegExp(P, F)] for strings [P] and [F] (RegExpInitialize). *)
Definition RegExpCreate `{HostRegExp} (P F : jsstring) : Completion RegExpObject :=
  if negb (validFlags F) then Throw (InvalidFlagsMessage F)
  else match CompilePattern P (recordOf (flagsOf F)) with
       | inl message => Throw message
       | inr c => Normal {| OriginalSource := P; OriginalFlags := F;
                            RegExpMatcher := cMatcher c; GroupNames := cGroupNames c |}
       end.

(** The [source] accessor. *)
Definition sourceGetter `{HostRegExp} (R : RegExpObject) : jsstring :=
  EscapeRegExpPattern (OriginalSource R).

End Ctor.

(* ===================================================================== *)
(** * A pattern compiler for a fragment of the pattern grammar

    Regular-expression literals of the source and the concrete patterns of
    the examples are run by this compiler, which follows ECMA-262 22.2.2 on
    its fragment: pattern characters, [.], the class escapes [\d \D \w \W \s
    \S], escaped syntax characters, [^] and [$], capturing, named and
    non-capturing groups, [|], and the quantifiers [* + ? {n} {n,} {n,m}],
    greedy or lazy. It refuses everything else, the [i] flag included, as a
    host would refuse a malformed pattern. *)
(* ===================================================================== *)

Module Mini.
Import Host.

Inductive CharClass : Type := Digit | WordChar | WhiteSpace.

Inductive Regex : Type :=
| Empty
| Char (c : N)
| Dot
| Class (negated : bool) (k : CharClass)
| Seq (r1 r2 : Regex)
| Alt (r1 r2 : Regex)
| Repeat (r : Regex) (min : nat) (max : option nat) (greedy : bool)
| Group (parenIndex : nat) (r : Regex)
| LineStart
| LineEnd.

Definition between (lo hi c : N) : bool := (lo <=? c)%N && (c <=? hi)%N.

Definition isLineTerminator (c : N) : bool :=
  (c =? 10)%N || (c =? 13)%N || (c =? 8232)%N || (c =? 8233)%N.

Definition inClass (k : CharClass) (c : N) : bool :=
  match k with
  | Digit => between 48 57 c
  | WordChar => between 97 122 c || between 65 90 c || between 48 57 c || (c =? 95)%N
  | WhiteSpace =>
      between 9 13 c || (c =? 32)%N || (c =? 160)%N || (c =? 5760)%N
      || between 8192 8202 c || (c =? 8232)%N || (c =? 8233)%N || (c =? 8239)%N
      || (c =? 8287)%N || (c =? 12288)%N || (c =? 65279)%N
  end.

(** The capture groups inside a term: a quantifier resets them at every
    turn (RepeatMatcher, step 3). *)
Fixpoint groupsIn (r : Regex) : list nat :=
  match r with
  | Seq r1 r2 | Alt r1 r2 => groupsIn r1 ++ groupsIn r2
  | Repeat r' _ _ _ => groupsIn r'
  | Group k r' => k :: groupsIn r'
  | _ => []
  end.

Definition clearCaptures (ks : list nat) (caps : list (option (nat * nat)))
  : list (option (nat * nat)) :=
  fold_right (fun k acc => <[k := None]> acc) caps ks.

Definition Continuation : Type := MatchState -> option MatchState.

Definition orElse (a : option MatchState) (b : option MatchState) : option MatchState :=
  match a with
  | Some z => Some z
  | None => b
  end.

(** One character: CharacterSetMatcher. *)
Definition charMatcher (accept : N -> bool) (inputChars : list N) (x : MatchState)
    (c : Continuation) : option MatchState :=
  match inputChars !! endIndex x with
  | Some a =>
      if accept a
      then c {| endIndex := endIndex x + 1; captures := captures x |}
      else None
  | None => None
  end.

(** RepeatMatcher(m, min, max, greedy, x, c, parenIndex, parenCount). A turn
    that matched nothing ends the repetition once [min] is met, so no more
    than [min] turns plus one per remaining character are taken; [n] is that
    budget, and it is never used up ([MiniFacts.quantifier_budget]). *)
Fixpoint repeatMatcher (n : nat) (m : MatchState -> Continuation -> option MatchState)
    (inner : list nat) (min : nat) (max : option nat) (greedy : bool)
    (x : MatchState) (c : Continuation) : option MatchState :=
  if bool_decide (max = Some 0) then c x
  else
    match n with
    | O => None
    | S n' =>
      let d : Continuation := fun y =>
        if (min =? 0)%nat && (endIndex y =? endIndex x)%nat then None
        else repeatMatcher n' m inner (min - 1) (pred <$> max) greedy y c in
      let xr := {| endIndex := endIndex x; captures := clearCaptures inner (captures x) |} in
      if negb (min =? 0)%nat then m xr d
      else if negb greedy then orElse (c x) (m xr d)
      else orElse (m xr d) (c x)
    end.

(** CompileSubpattern, forward direction. *)
Fixpoint matchRegex (rer : RegExpRecord) (r : Regex) (inputChars : list N)
    (x : MatchState) (c : Continuation) {struct r} : option MatchState :=
  match r with
  | Empty => c x
  | Char a => charMatcher (N.eqb a) inputChars x c
  | Dot =>
      charMatcher (fun a => DotAll rer || negb (isLineTerminator a)) inputChars x c
  | Class negated k => charMatcher (fun a => xorb negated (inClass k a)) inputChars x c
  | Seq r1 r2 =>
      matchRegex rer r1 inputChars x (fun y => matchRegex rer r2 inputChars y c)
  | Alt r1 r2 =>
      orElse (matchRegex rer r1 inputChars x c) (matchRegex rer r2 inputChars x c)
  | Repeat r' min max greedy =>
      repeatMatcher (min + length inputChars + 1)
        (fun y k => matchRegex rer r' inputChars y k) (groupsIn r') min max greedy x c
  | Group k r' =>
      matchRegex rer r' inputChars x
        (fun y => c {| endIndex := endIndex y;
                       captures := <[k := Some (endIndex x, endIndex y)]> (captures y) |})
  | LineStart =>
      let e := endIndex x in
      if (e =? 0)%nat
         || (Multiline rer
             && bool_decide (isLineTerminator <$> inputChars !! (e - 1)%nat = Some true))
      then c x else None
  | LineEnd =>
      let e := endIndex x in
      if (e =? length inputChars)%nat
         || (Multiline rer
             && bool_decide (isLineTerminator <$> inputChars !! e = Some true))
      then c x else None
  end.

(** CompilePattern: the matcher of a whole pattern with [nGroups] groups. *)
Definition matcherOf (rer : RegExpRecord) (r : Regex) (nGroups : nat) : Matcher :=
  fun inputChars i =>
    matchRegex rer r inputChars {| endIndex := i; captures := replicate nGroups None |} Some.

(** ** The parser *)

Definition isSyntaxCharacter (c : N) : bool :=
  bool_decide (c ∈ js "^$\.*+?()[]{}|").

Definition isNameStart (c : N) : bool :=
  between 97 122 c || between 65 90 c || (c =? 95)%N || (c =? 36)%N.

Definition isNamePart (c : N) : bool := isNameStart c || between 48 57 c.

Record ParserState : Type := { names : list (option jsstring) }.

Definition seq (r1 r2 : Regex) : Regex :=
  match r2 with
  | Empty => r1
  | _ => Seq r1 r2
  end.

(** Decimal digits at the head of the text. *)
Fixpoint parseDigits (s : list N) (acc : option nat) : option nat * list N :=
  match s with
  | c :: rest =>
      if isDigit c then parseDigits rest (Some (10 * default 0 acc + digitValue c))
      else (acc, s)
  | [] => (acc, s)
  end.

(** A group name up to its [>]. *)
Fixpoint parseName (s : list N) (acc : jsstring) : option (jsstring * list N) :=
  match s with
  | c :: rest =>
      if (c =? ch ">")%N then
        match acc with
        | [] => None
        | _ :: _ => Some (rev acc, rest)
        end
      else if (match acc with [] => isNameStart c | _ :: _ => isNamePart c end)
      then parseName rest (c :: acc)
      else None
  | [] => None
  end.

(** The quantifier after an atom, when there is one. *)
Definition parseQuantifier (atom : Regex) (s : list N) : option (Regex * list N) :=
  let lazy (min : nat) (max : option nat) (rest : list N) :=
    match rest with
    | c :: rest' =>
        if (c =? ch "?")%N then Some (Repeat atom min max false, rest')
        else Some (Repeat atom min max true, rest)
    | [] => Some (Repeat atom min max true, rest)
    end in
  match s with
  | c :: rest =>
      if (c =? ch "*")%N then lazy 0 None rest
      else if (c =? ch "+")%N then lazy 1 None rest
      else if (c =? ch "?")%N then lazy 0 (Some 1) rest
      else if (c =? ch "{")%N then
        match parseDigits rest None with
        | (Some min, c1 :: rest1) =>
            if (c1 =? ch "}")%N then lazy min (Some min) rest1
            else if (c1 =? ch ",")%N then
              match parseDigits rest1 None with
              | (None, c2 :: rest2) =>
                  if (c2 =? ch "}")%N then lazy min None rest2 else None
              | (Some max, c2 :: rest2) =>
                  if (c2 =? ch "}")%N && (min <=? max)%nat then lazy min (Some max) rest2
                  else None
              | _ => None
              end
            else None
        | _ => None
        end
      else Some (atom, s)
  | [] => Some (atom, s)
  end.

Definition parseEscape (c : N) : option Regex :=
  if (c =? ch "d")%N then Some (Class false Digit)
  else if (c =? ch "D")%N then Some (Class true Digit)
  else if (c =? ch "w")%N then Some (Class false WordChar)
  else if (c =? ch "W")%N then Some (Class true WordChar)
  else if (c =? ch "s")%N then Some (Class false WhiteSpace)
  else if (c =? ch "S")%N then Some (Class true WhiteSpace)
  else if isSyntaxCharacter c || (c =? ch "/")%N then Some (Char c)
  else None.

(** Disjunction, Alternative and Term. [None] is a text outside the
    fragment. *)
Fixpoint parseDisjunction (fuel : nat) (s : list N) (st : ParserState)
  : option (Regex * list N * ParserState) :=
  match fuel with
  | O => None
  | S fuel' =>
    match parseAlternative fuel' s st with
    | Some (r1, rest, st1) =>
      match rest with
      | c :: rest' =>
        if (c =? ch "|")%N then
          match parseDisjunction fuel' rest' st1 with
          | Some (r2, rest2, st2) => Some (Alt r1 r2, rest2, st2)
          | None => None
          end
        else Some (r1, rest, st1)
      | [] => Some (r1, rest, st1)
      end
    | None => None
    end
  end
with parseAlternative (fuel : nat) (s : list N) (st : ParserState)
  : option (Regex * list N * ParserState) :=
  match fuel with
  | O => None
  | S fuel' =>
    match s with
    | [] => Some (Empty, s, st)
    | c :: _ =>
      if (c =? ch "|")%N || (c =? ch ")")%N then Some (Empty, s, st)
      else
        match parseTerm fuel' s st with
        | Some (r1, rest1, st1) =>
          match parseAlternative fuel' rest1 st1 with
          | Some (r2, rest2, st2) => Some (seq r1 r2, rest2, st2)
          | None => None
          end
        | None => None
        end
    end
  end
with parseTerm (fuel : nat) (s : list N) (st : ParserState)
  : option (Regex * list N * ParserState) :=
  match fuel with
  | O => None
  | S fuel' =>
    let quantified (atom : Regex) (rest : list N) (st' : ParserState) :=
      match parseQuantifier atom rest with
      | Some (r, rest') => Some (r, rest', st')
      | None => None
      end in
    let closing (r : Regex) (rest : list N) (st' : ParserState) :=
      match rest with
      | c :: rest' => if (c =? ch ")")%N then quantified r rest' st' else None
      | [] => None
      end in
    match s with
    | [] => None
    | c :: rest =>
      if (c =? ch "^")%N then Some (LineStart, rest, st)
      else if (c =? ch "$")%N then Some (LineEnd, rest, st)
      else if (c =? ch ".")%N then quantified Dot rest st
      else if (c =? ch "\")%N then
        match rest with
        | e :: rest' =>
          match parseEscape e with
          | Some atom => quantified atom rest' st
          | None => None
          end
        | [] => None
        end
      else if (c =? ch "(")%N then
        let capturing (name : option jsstring) (body : list N) :=
          let k := length (names st) in
          match parseDisjunction fuel' body {| names := names st ++ [name] |} with
          | Some (r, rest', st') => closing (Group k r) rest' st'
          | None => None
          end in
        match rest with
        | q :: rest1 =>
          if (q =? ch "?")%N then
            match rest1 with
            | k :: rest2 =>
              if (k =? ch ":")%N then
                match parseDisjunction fuel' rest2 st with
                | Some (r, rest', st') => closing r rest' st'
                | None => None
                end
              else if (k =? ch "<")%N then
                match parseName rest2 [] with
                | Some (name, body) =>
                    if bool_decide (Some name ∈ names st) then None
                    else capturing (Some name) body
                | None => None
                end
              else None
            | [] => None
            end
          else capturing None rest
        | [] => None
        end
      else if isSyntaxCharacter c then None
      else quantified (Char c) rest st
    end
  end.

Definition parsePattern (patternChars : list N) : option (Regex * list (option jsstring)) :=
  match parseDisjunction (3 * length patternChars + 3) patternChars {| names := [] |} with
  | Some (r, [], st) => Some (r, names st)
  | _ => None
  end.

Definition syntaxErrorMessage (P : jsstring) : jsstring :=
  js "Invalid regular expression: /" ++ P ++ js "/: not a pattern of the fragment".

Definition invalidFlagsMessage (F : jsstring) : jsstring :=
  js "Invalid flags supplied to RegExp constructor '" ++ F ++ js "'".

Definition compilePattern (P : jsstring) (rer : RegExpRecord) : jsstring + CompiledPattern :=
  if IgnoreCase rer then inl (syntaxErrorMessage P)
  else
    let patternChars := if Unicode rer || UnicodeSets rer then StringToCodePoints P else P in
    match parsePattern patternChars with
    | Some (r, groupNames) =>
        inr {| cMatcher := matcherOf rer r (length groupNames); cGroupNames := groupNames |}
    | None => inl (syntaxErrorMessage P)
    end.

(** A regular-expression literal [/source/flags] of the source, given by
    its syntax tree. *)
Definition literal (source flags : jsstring) (r : Regex) (groupNames : list (option jsstring))
  : RegExpObject :=
  {| OriginalSource := source; OriginalFlags := flags;
     RegExpMatcher := matcherOf (recordOf (flagsOf flags)) r (length groupNames);
     GroupNames := groupNames |}.

End Mini.

(* ===================================================================== *)
(** * The match engine and the substitution engine *)
(* ===================================================================== *)

Module RegexEngine.
Import Host Ctor.

(** The regular-expression literals of the source, by their syntax trees
    ([Examples.literals_as_constructed]: the trees the fragment compiler
    reads off their texts). *)
Definition digits1 : Mini.Regex := Mini.Repeat (Mini.Class false Mini.Digit) 1 None true.

(** [/\\A/g], [/\\Z/g] and [/\\z/g]. *)
Definition re_backslash (c : N) : RegExpObject :=
  Mini.literal ([ch "\"; ch "\"; c]) (js "g") (Mini.Seq (Mini.Char (ch "\")) (Mini.Char c)) [].
(** [/\$(\d+)/g]. *)
Definition re_numbered : RegExpObject :=
  Mini.literal (js "\$(\d+)") (js "g")
    (Mini.Seq (Mini.Char (ch "$")) (Mini.Group 0 digits1)) [None].
(** [/\$\{(\d+)\}/g]. *)
Definition re_bracketed : RegExpObject :=
  Mini.literal (js "\$\{(\d+)\}") (js "g")
    (Mini.Seq (Mini.Char (ch "$"))
       (Mini.Seq (Mini.Char (ch "{")) (Mini.Seq (Mini.Group 0 digits1) (Mini.Char (ch "}")))))
    [None].
(** [/\$&/g], [/\$`/g] and [/\$'/g]. *)
Definition re_dollar (c : N) : RegExpObject :=
  Mini.literal ([ch "\"; ch "$"; c]) (js "g") (Mini.Seq (Mini.Char (ch "$")) (Mini.Char c)) [].

(** ToString of a value that may be [undefined], as a template literal
    does it. *)
Definition ToString (v : option jsstring) : jsstring := default (js "undefined") v.

(** ** Flavor converters *)

Definition convertPCREToJS (pattern : jsstring) : jsstring :=
  let p1 := StringReplace pattern (re_backslash (ch "A")) (ReplaceTemplate (js "^")) in
  let p2 := StringReplace p1 (re_backslash (ch "Z")) (ReplaceTemplate (js "$")) in
  StringReplace p2 (re_backslash (ch "z")) (ReplaceTemplate (js "$")).

Definition convertPythonToJS (pattern : jsstring) : jsstring := pattern.

Definition convertGoToJS (pattern : jsstring) : jsstring := pattern.

(** The text [createRegex] hands to the constructor. *)
Definition adjustedPattern (pattern flavor : jsstring) : jsstring :=
  if bool_decide (flavor = js "pcre") then convertPCREToJS pattern
  else if bool_decide (flavor = js "python") then convertPythonToJS pattern
  else if bool_decide (flavor = js "golang") then convertGoToJS pattern
  else pattern.

(** [match.groups = {}; for (let i = 1; i < match.length; i++)
    match.groups[i] = match[i];] *)
Definition numberedGroups (elements : list (option jsstring)) : JSObject :=
  fold_left (fun (o : JSObject) (i : nat) => <[inl i := default None (elements !! i)]> o)
    (seq 1 (length elements - 1)) ∅.

(** "Add groups information": the match after the [if (match.length > 1)]
    block. *)
Definition addGroups (m : Match) : Match :=
  if (1 <? length (array m))%nat then
    {| array := array m; index := index m; input := input m;
       groups := Some (numberedGroups (array m)) |}
  else m.

(** The processing of the replacement string in [substitute]. *)
Definition processReplacement (replacement : jsstring) : jsstring :=
  let r1 := StringReplace replacement re_numbered
              (ReplaceFunction (fun _ caps _ _ => js "$" ++ ToString (default None (caps !! 0)))) in
  let r2 := StringReplace r1 re_bracketed
              (ReplaceFunction (fun _ caps _ _ => js "$" ++ ToString (default None (caps !! 0)))) in
  let r3 := StringReplace r2 (re_dollar (ch "&")) (ReplaceTemplate (js "$&")) in
  let r4 := StringReplace r3 (re_dollar (ch "`")) (ReplaceTemplate (js "$`")) in
  StringReplace r4 (re_dollar (ch "'")) (ReplaceTemplate (js "$'")).

(** What [execute] returns. *)
Record ExecuteResult : Type := {
  matches : list Match;
  pattern : jsstring;
  flags : jsstring;
  testString : jsstring;
  flavor : jsstring }.

Section Engine.
Context `{HostRegExp}.

Definition createRegex (pattern flags flavor : jsstring) : Completion RegExpObject :=
  tryCatch (RegExpCreate (adjustedPattern pattern flavor) flags)
    (fun message => Throw (js "Invalid regular expression: " ++ message)).

(** [while ((match = globalRegex.exec(testString)) !== null) { ... }], with
    the [lastIndex] of [globalRegex] passed along. *)
Fixpoint globalLoop (fuel : nat) (globalRegex : RegExpObject) (testString : jsstring)
    (lastIndex : nat) (matches : list Match) : Completion (list Match) :=
  match RegExpBuiltinExec globalRegex testString lastIndex with
  | (None, _) => Normal matches
  | (Some m, lastIndex1) =>
    match fuel with
    | O => OutOfFuel
    | S fuel' =>
      let lastIndex2 := if (index m =? lastIndex1)%nat then lastIndex1 + 1 else lastIndex1 in
      globalLoop fuel' globalRegex testString lastIndex2 (matches ++ [addGroups m])
    end
  end.

(** [regex] comes fresh from [createRegex]: its [lastIndex] is 0. *)
Definition findMatches (fuel : nat) (regex : RegExpObject) (testString : jsstring)
    (isGlobal : bool) : Completion (list Match) :=
  if isGlobal then
    do globalRegex <- RegExpCreate (sourceGetter regex) (flagsGetter regex);
    globalLoop fuel globalRegex testString 0 []
  else
    match RegExpBuiltinExec regex testString 0 with
    | (Some m, _) => Normal [addGroups m]
    | (None, _) => Normal []
    end.

(** [execute(pattern, flags, testString, flavor = 'javascript')]. *)
Definition execute (fuel : nat) (pattern flags testString : jsstring)
    (flavor : option jsstring) : Completion ExecuteResult :=
  let flavor := default (js "javascript") flavor in
  tryCatch
    (do regex <- createRegex pattern flags flavor;
     do matches <- findMatches fuel regex testString (JS.includes flags (js "g"));
     Normal {| matches := matches; pattern := pattern; flags := flags;
               testString := testString; flavor := flavor |})
    (fun message => Throw (js "Regex Error: " ++ message)).

Definition substitute (pattern flags testString replacement : jsstring)
  : Completion jsstring :=
  tryCatch
    (do regex <- RegExpCreate pattern flags;
     let processedReplacement := processReplacement replacement in
     Normal (StringReplace testString regex (ReplaceTemplate processedReplacement)))
    (fun _ => Normal testString).

End Engine.
End RegexEngine.

(* ===================================================================== *)
(** * Properties of the pattern explainer *)
(* ===================================================================== *)

Module ExplainFacts.
Import Explain.

Lemma startsWith_cons_nonempty (s : jsstring) (c : N) :
  JS.startsWith s [c] = true -> 0 < length s.
Proof. destruct s; simpl; [discriminate | lia]. Qed.

(** A found index lies inside the text searched. *)
Lemma indexOf_from_range (s : jsstring) (c : N) (k : nat) :
  JS.indexOf_from s [c] k <> (-1)%Z ->
  (Z.of_nat k <= JS.indexOf_from s [c] k < Z.of_nat (k + length s))%Z.
Proof.
  revert k. induction s as [|a t IH]; intros k Hfound.
  - simpl in Hfound. congruence.
  - cbn [JS.indexOf_from] in *.
    destruct (JS.startsWith (a :: t) [c]) eqn:Hsw.
    + simpl. lia.
    + specialize (IH (S k) Hfound). simpl. lia.
Qed.

Lemma indexOf_range (pattern : jsstring) (c : N) (i : nat) :
  i < length pattern ->
  JS.indexOf pattern [c] i <> (-1)%Z ->
  (Z.of_nat i <= JS.indexOf pattern [c] i < Z.of_nat (length pattern))%Z.
Proof.
  intros Hi Hfound. unfold JS.indexOf in *.
  pose proof (indexOf_from_range _ _ _ Hfound) as Hr.
  rewrite length_drop in Hr. lia.
Qed.

(** The inner loop of the group case ends, at or after the index it started
    from and inside the pattern. *)
Lemma groupScan_total (fuel : nat) (pattern : jsstring) :
  forall j depth,
    j <= length pattern ->
    length pattern - j <= fuel ->
    exists j', groupScan fuel pattern j depth = Normal j' /\ j <= j' <= length pattern.
Proof.
  induction fuel as [|fuel IH]; intros j depth Hj Hfuel; cbn [groupScan].
  - destruct (pattern !! j) eqn:Hlk.
    + apply lookup_lt_Some in Hlk. lia.
    + eauto.
  - destruct (pattern !! j) eqn:Hlk; [|eauto].
    apply lookup_lt_Some in Hlk.
    destruct (depth =? 0)%nat; [eauto|].
    edestruct (IH (S j)) as (j' & -> & Hb); [lia | lia | ].
    exists j'. split; [reflexivity | lia].
Qed.

Lemma groupScan_no_throw (fuel : nat) (pattern : jsstring) :
  forall j depth message, groupScan fuel pattern j depth <> Throw message.
Proof.
  induction fuel as [|fuel IH]; intros j depth message; cbn [groupScan];
    destruct (pattern !! j); try discriminate;
    destruct (depth =? 0)%nat; try discriminate.
  apply IH.
Qed.

Ltac case_ifs :=
  repeat match goal with
         | |- context [if ?b then _ else _] => destruct b eqn:?
         end.

(** Every branch of the [switch] returns, with the cursor moved on by at
    least one position and still inside the pattern. *)
Lemma explainCase_advances (fuel : nat) (pattern : jsstring) (i : nat) (char : N)
    (explanations : list Explanation) :
  pattern !! i = Some char ->
  length pattern - S i <= fuel ->
  exists explanations' i',
    explainCase fuel pattern i char explanations = Normal (explanations', i')
    /\ i < i' <= length pattern.
Proof.
  intros Hlk Hfuel. pose proof (lookup_lt_Some _ _ _ Hlk) as Hi.
  unfold explainCase.
  destruct (char =? ch "^")%N; [eexists _, _; split; [reflexivity | lia]|].
  destruct (char =? ch "$")%N; [eexists _, _; split; [reflexivity | lia]|].
  destruct (char =? ch ".")%N; [eexists _, _; split; [reflexivity | lia]|].
  destruct (char =? ch "*")%N; [eexists _, _; split; [reflexivity | lia]|].
  destruct (char =? ch "+")%N; [eexists _, _; split; [reflexivity | lia]|].
  destruct (char =? ch "?")%N.
  { match goal with |- context [if ?b then _ else _] => destruct b end;
      eexists _, _; (split; [reflexivity | lia]). }
  destruct (char =? ch "\")%N.
  { destruct (pattern !! S i) eqn:Hnext.
    - apply lookup_lt_Some in Hnext. eexists _, _; split; [reflexivity | lia].
    - eexists _, _; split; [reflexivity | lia]. }
  destruct (char =? ch "[")%N.
  { destruct (negb (JS.indexOf pattern (js "]") i =? -1)%Z) eqn:Hfound.
    - apply negb_true_iff, Z.eqb_neq in Hfound.
      pose proof (indexOf_range pattern (ch "]") i Hi Hfound) as Hr.
      change [ch "]"] with (js "]") in Hr.
      eexists _, _; split; [reflexivity | lia].
    - eexists _, _; split; [reflexivity | lia]. }
  destruct (char =? ch "(")%N.
  { destruct (groupScan_total fuel pattern (S i) 1) as (j & Hj & Hb); [lia | lia |].
    rewrite Hj. cbn [bindC]. eexists _, _; split; [reflexivity | lia]. }
  destruct (char =? ch "|")%N; [eexists _, _; split; [reflexivity | lia]|].
  destruct (char =? ch "{")%N.
  { destruct (negb (JS.indexOf pattern (js "}") i =? -1)%Z) eqn:Hfound.
    - apply negb_true_iff, Z.eqb_neq in Hfound.
      pose proof (indexOf_range pattern (ch "}") i Hi Hfound) as Hr.
      change [ch "}"] with (js "}") in Hr.
      eexists _, _; split; [reflexivity | lia].
    - eexists _, _; split; [reflexivity | lia]. }
  eexists _, _; split; [reflexivity | lia].
Qed.

Lemma explainCase_no_throw (fuel : nat) (pattern : jsstring) (i : nat) (char : N)
    (explanations : list Explanation) (message : jsstring) :
  explainCase fuel pattern i char explanations <> Throw message.
Proof.
  unfold explainCase.
  repeat match goal with
         | |- (if ?b then _ else _) <> _ => destruct b; try discriminate
         end.
  - destruct (pattern !! S i); discriminate.
  - pose proof (groupScan_no_throw fuel pattern (S i) 1) as Hscan.
    destruct (groupScan fuel pattern (S i) 1); cbn [bindC]; try discriminate.
    exfalso. eapply Hscan. reflexivity.
Qed.

Lemma explainLoop_total (fuel : nat) (pattern : jsstring) :
  forall i explanations,
    length pattern - i <= fuel ->
    exists r, explainLoop fuel pattern i explanations = Normal r.
Proof.
  induction fuel as [|fuel IH]; intros i explanations Hfuel; cbn [explainLoop].
  - destruct (pattern !! i) eqn:Hlk; [|eauto].
    apply lookup_lt_Some in Hlk. lia.
  - destruct (pattern !! i) as [char|] eqn:Hlk; [|eauto].
    pose proof (lookup_lt_Some _ _ _ Hlk) as Hi.
    destruct (explainCase_advances fuel pattern i char explanations Hlk)
      as (acc' & i' & -> & Hb); [lia|].
    cbn [bindC fst snd]. apply IH. lia.
Qed.

Lemma explainLoop_no_throw (fuel : nat) (pattern : jsstring) :
  forall i explanations message, explainLoop fuel pattern i explanations <> Throw message.
Proof.
  induction fuel as [|fuel IH]; intros i explanations message; cbn [explainLoop];
    destruct (pattern !! i) as [char|]; try discriminate.
  pose proof (explainCase_no_throw fuel pattern i char explanations) as Hcase.
  destruct (explainCase fuel pattern i char explanations) as [[acc' i']| |];
    cbn [bindC]; try discriminate.
  - apply IH.
  - exfalso. eapply Hcase. reflexivity.
Qed.

(** C9: [explain] is total. Given a budget of one loop turn per pattern
    character it returns, whatever the pattern and the flags; it throws
    under no budget; and every branch of the scan, the dangling backslash
    and the unterminated class, quantifier and group included, moves the
    cursor on by at least one position and never past the end. *)
Theorem explain_total (pattern flags : jsstring) :
  (forall fuel, length pattern <= fuel ->
     exists html, explain fuel pattern flags = Normal html)
  /\ (forall fuel message, explain fuel pattern flags <> Throw message)
  /\ (forall fuel i char explanations,
        pattern !! i = Some char ->
        length pattern - S i <= fuel ->
        exists explanations' i',
          explainCase fuel pattern i char explanations = Normal (explanations', i')
          /\ i < i' <= length pattern).
Proof.
  split; [|split].
  - intros fuel Hfuel. unfold explain, explainTokens.
    destruct (explainLoop_total fuel pattern 0 []) as (r & ->); [lia|].
    cbn [bindC]. destruct flags; cbn [bindC]; eauto.
  - intros fuel message. unfold explain, explainTokens.
    pose proof (explainLoop_no_throw fuel pattern 0 []) as Hloop.
    destruct (explainLoop fuel pattern 0 []); cbn [bindC].
    + destruct flags; cbn [bindC]; discriminate.
    + exfalso. eapply Hloop. reflexivity.
    + discriminate.
  - intros fuel i char explanations. apply explainCase_advances.
Qed.

(** The pattern of the specification's example, [(?<year>\d{4})]. *)
Definition yearPattern : jsstring := js "(?<year>\d{4})".

(** An unterminated group, a dangling backslash: [explain] still returns. *)
Lemma explain_total_witness :
  exists html, explain 4 (js "(a[\") (js "g") = Normal html.
Proof.
  apply (proj1 (explain_total (js "(a[\") (js "g")) 4). vm_compute. lia.
Defined.

Lemma yearPattern_tokens :
  explainTokens (length yearPattern) yearPattern []
  = Normal [createExplanation yearPattern
              (js "Named capturing group " ++ [QUOTE] ++ js "year" ++ [QUOTE])].
Proof. vm_compute. reflexivity. Qed.

(** C2, as the code has it: a group is one token. [explain] on
    [(?<year>\d{4})] with empty flags builds exactly one explanation, whose
    token is the whole group and whose description names the group "year";
    the [\d] and the [{4}] inside the group get no token of their own, and
    the HTML returned has one part. *)
Theorem explain_year_one_token :
  explainTokens (length yearPattern) yearPattern []
  = Normal [createExplanation yearPattern
              (js "Named capturing group " ++ [QUOTE] ++ js "year" ++ [QUOTE])]
  /\ explain (length yearPattern) yearPattern []
     = Normal (formatExplanation
                 [createExplanation yearPattern
                    (js "Named capturing group " ++ [QUOTE] ++ js "year" ++ [QUOTE])]).
Proof.
  split; [exact yearPattern_tokens|].
  unfold explain. rewrite yearPattern_tokens. reflexivity.
Qed.

(** C2 as stated fails: no token of the sequence describes [\d] as the digit
    class, and none describes [{4}] as "exactly 4 times". *)
Lemma explain_year_counterexample :
  ~ (exists explanations named digit exact,
       explainTokens (length yearPattern) yearPattern [] = Normal explanations
       /\ named ∈ explanations
       /\ description named = js "Named capturing group " ++ [QUOTE] ++ js "year" ++ [QUOTE]
       /\ digit ∈ explanations /\ description digit = getEscapeExplanation (ch "d")
       /\ exact ∈ explanations
       /\ description exact = js "Matches previous token exactly 4 times").
Proof.
  intros (explanations & named & digit & exact & Hrun & _ & _ & Hdigit & Hdesc & _).
  rewrite yearPattern_tokens in Hrun. injection Hrun as <-.
  apply list_elem_of_singleton in Hdigit. subst digit.
  vm_compute in Hdesc. discriminate.
Qed.

End ExplainFacts.

(* ===================================================================== *)
(** * The fragment compiler is a host *)
(* ===================================================================== *)

Module MiniFacts.
Import Host Mini.

(** What a matcher term owes its continuation: a state at or after the one
    it was given, inside the input, with as many captures. *)
Definition Sound (inputChars : list N)
    (m : MatchState -> Continuation -> option MatchState) : Prop :=
  forall x c z,
    endIndex x <= length inputChars ->
    m x c = Some z ->
    exists y, c y = Some z
              /\ endIndex x <= endIndex y <= length inputChars
              /\ length (captures y) = length (captures x).

Lemma orElse_Some (a b : option MatchState) (z : MatchState) :
  orElse a b = Some z -> a = Some z \/ b = Some z.
Proof. destruct a; simpl; intros; [left | right]; congruence. Qed.

Lemma charMatcher_sound (accept : N -> bool) (inputChars : list N) :
  Sound inputChars (charMatcher accept inputChars).
Proof.
  intros x c z Hx Hm. unfold charMatcher in Hm.
  destruct (inputChars !! endIndex x) as [a|] eqn:Hlk; [|discriminate].
  apply lookup_lt_Some in Hlk.
  destruct (accept a); [|discriminate].
  eexists. split; [exact Hm|]. simpl. split; [lia | reflexivity].
Qed.

Lemma clearCaptures_length (ks : list nat) (caps : list (option (nat * nat))) :
  length (clearCaptures ks caps) = length caps.
Proof.
  induction ks as [|k ks IH]; simpl; [reflexivity|].
  rewrite length_insert. exact IH.
Qed.

Lemma repeatMatcher_sound (inputChars : list N)
    (m : MatchState -> Continuation -> option MatchState) (inner : list nat) (greedy : bool) :
  Sound inputChars m ->
  forall n min max,
    Sound inputChars (fun x c => repeatMatcher n m inner min max greedy x c).
Proof.
  intros Hm n. induction n as [|n IH]; intros min max x c z Hx Hrun;
    cbn [repeatMatcher] in Hrun.
  - destruct (bool_decide (max = Some 0)); [|discriminate].
    exists x. split; [exact Hrun|]. split; [lia | reflexivity].
  - destruct (bool_decide (max = Some 0)).
    { exists x. split; [exact Hrun|]. split; [lia | reflexivity]. }
    set (xr := {| endIndex := endIndex x;
                  captures := clearCaptures inner (captures x) |}) in *.
    assert (Hturn : forall d',
      d' = (fun y : MatchState =>
              if (min =? 0)%nat && (endIndex y =? endIndex x)%nat then None
              else repeatMatcher n m inner (min - 1) (pred <$> max) greedy y c) ->
      m xr d' = Some z ->
      exists y, c y = Some z /\ endIndex x <= endIndex y <= length inputChars
                /\ length (captures y) = length (captures x)).
    { intros d' -> Hrun'.
      destruct (Hm xr _ z Hx Hrun') as (y & Hd & Hy & Hlen).
      destruct ((min =? 0)%nat && (endIndex y =? endIndex x)%nat); [discriminate|].
      destruct (IH _ _ y c z (proj2 Hy) Hd) as (y' & Hc & Hy' & Hlen').
      exists y'. split; [exact Hc|]. subst xr. simpl in *.
      rewrite clearCaptures_length in Hlen. split; [lia | congruence]. }
    destruct (negb (min =? 0)%nat); [eapply Hturn; [reflexivity | exact Hrun]|].
    destruct (negb greedy); apply orElse_Some in Hrun as [Hrun|Hrun];
      try (eapply Hturn; [reflexivity | exact Hrun]);
      (exists x; split; [exact Hrun|]; split; [lia | reflexivity]).
Qed.

Lemma matchRegex_sound (rer : RegExpRecord) (inputChars : list N) (r : Regex) :
  Sound inputChars (matchRegex rer r inputChars).
Proof.
  induction r as [|a| |negated k|r1 IH1 r2 IH2|r1 IH1 r2 IH2|r IH min max greedy
                 |k r IH| |]; cbn [matchRegex].
  - intros x c z Hx Hrun. exists x. split; [exact Hrun|]. split; [lia | reflexivity].
  - apply charMatcher_sound.
  - apply charMatcher_sound.
  - apply charMatcher_sound.
  - intros x c z Hx Hrun.
    destruct (IH1 x _ z Hx Hrun) as (y1 & Hrun2 & Hy1 & Hlen1).
    destruct (IH2 y1 c z (proj2 Hy1) Hrun2) as (y2 & Hc & Hy2 & Hlen2).
    exists y2. split; [exact Hc|]. split; [lia | congruence].
  - intros x c z Hx Hrun. apply orElse_Some in Hrun as [Hrun|Hrun]; eauto.
  - apply (repeatMatcher_sound inputChars
             (fun y k => matchRegex rer r inputChars y k)); exact IH.
  - intros x c z Hx Hrun.
    destruct (IH x _ z Hx Hrun) as (y & Hc & Hy & Hlen).
    eexists. split; [exact Hc|]. simpl. rewrite length_insert. split; [lia | exact Hlen].
  - intros x c z Hx Hrun.
    match type of Hrun with (if ?b then _ else _) = _ => destruct b; [|discriminate] end.
    exists x. split; [exact Hrun|]. split; [lia | reflexivity].
  - intros x c z Hx Hrun.
    match type of Hrun with (if ?b then _ else _) = _ => destruct b; [|discriminate] end.
    exists x. split; [exact Hrun|]. split; [lia | reflexivity].
Qed.

(** A match of a whole pattern ends at or after its start, inside the input,
    and reports one capture per group. *)
Lemma matcherOf_bounds (rer : RegExpRecord) (r : Regex) (nGroups : nat)
    (inputChars : list N) (i : nat) (st : MatchState) :
  i <= length inputChars ->
  matcherOf rer r nGroups inputChars i = Some st ->
  i <= endIndex st <= length inputChars /\ length (captures st) = nGroups.
Proof.
  intros Hi Hrun. unfold matcherOf in Hrun.
  destruct (matchRegex_sound rer inputChars r
              {| endIndex := i; captures := replicate nGroups None |} Some st Hi Hrun)
    as (y & Hy & Hb & Hlen).
  injection Hy as ->. simpl in *. rewrite length_replicate in Hlen. auto.
Qed.

Lemma compilePattern_bounds (P : jsstring) (rer : RegExpRecord) (c : CompiledPattern)
    (inputChars : list N) (i : nat) (st : MatchState) :
  compilePattern P rer = inr c ->
  i <= length inputChars ->
  cMatcher c inputChars i = Some st ->
  i <= endIndex st <= length inputChars.
Proof.
  unfold compilePattern. intros Hc Hi Hrun.
  destruct (IgnoreCase rer); [discriminate|].
  destruct (parsePattern _) as [[r groupNames]|]; [|discriminate].
  injection Hc as <-. simpl in Hrun.
  eapply matcherOf_bounds; eauto.
Qed.

(** ** The budget of the quantifier *)

(** Two continuations that answer alike from an index on, inside the
    input. *)
Definition agreeFrom (inputChars : list N) (lo : nat) (c c' : Continuation) : Prop :=
  forall y, lo <= endIndex y <= length inputChars -> c y = c' y.

(** A matcher term that treats such continuations alike. *)
Definition Extensional (inputChars : list N)
    (m : MatchState -> Continuation -> option MatchState) : Prop :=
  forall x c c',
    endIndex x <= length inputChars ->
    agreeFrom inputChars (endIndex x) c c' ->
    m x c = m x c'.

Lemma charMatcher_ext (accept : N -> bool) (inputChars : list N) :
  Extensional inputChars (charMatcher accept inputChars).
Proof.
  intros x c c' Hx Hagree. unfold charMatcher.
  destruct (inputChars !! endIndex x) as [a|] eqn:Hlk; [|reflexivity].
  apply lookup_lt_Some in Hlk. destruct (accept a); [|reflexivity].
  apply Hagree. simpl. lia.
Qed.

(** The quantifier's answer does not depend on its budget once the budget
    exceeds [min] plus the number of characters left: it is never used up. *)
Lemma repeatMatcher_budget (inputChars : list N)
    (m : MatchState -> Continuation -> option MatchState) (inner : list nat) (greedy : bool) :
  Extensional inputChars m ->
  forall n n' min max x c c',
    endIndex x <= length inputChars ->
    min + (length inputChars - endIndex x) < n ->
    min + (length inputChars - endIndex x) < n' ->
    agreeFrom inputChars (endIndex x) c c' ->
    repeatMatcher n m inner min max greedy x c = repeatMatcher n' m inner min max greedy x c'.
Proof.
  intros Hm. induction n as [|n IH]; intros n' min max x c c' Hx Hn Hn' Hagree; [lia|].
  destruct n' as [|n']; [lia|]. cbn [repeatMatcher].
  assert (Hcx : c x = c' x) by (apply Hagree; lia).
  destruct (bool_decide (max = Some 0)); [exact Hcx|].
  set (xr := {| endIndex := endIndex x; captures := clearCaptures inner (captures x) |}).
  assert (Hturn :
    m xr (fun y => if (min =? 0)%nat && (endIndex y =? endIndex x)%nat then None
                   else repeatMatcher n m inner (min - 1) (pred <$> max) greedy y c)
    = m xr (fun y => if (min =? 0)%nat && (endIndex y =? endIndex x)%nat then None
                     else repeatMatcher n' m inner (min - 1) (pred <$> max) greedy y c')).
  { apply Hm; [exact Hx|]. intros y Hy. subst xr. cbn [endIndex] in Hy.
    destruct ((min =? 0)%nat && (endIndex y =? endIndex x)%nat) eqn:Hstop; [reflexivity|].
    apply andb_false_iff in Hstop.
    assert (min <> 0 \/ endIndex y <> endIndex x) as Hprogress.
    { destruct Hstop as [H|H]; [left; apply Nat.eqb_neq in H | right; apply Nat.eqb_neq in H];
        exact H. }
    apply IH; [lia | lia | lia |].
    intros z Hz. apply Hagree. lia. }
  destruct (negb (min =? 0)%nat); [exact Hturn|].
  destruct (negb greedy); rewrite Hturn, Hcx; reflexivity.
Qed.

Lemma matchRegex_ext (rer : RegExpRecord) (inputChars : list N) (r : Regex) :
  Extensional inputChars (matchRegex rer r inputChars).
Proof.
  induction r as [|a| |negated k|r1 IH1 r2 IH2|r1 IH1 r2 IH2|r IH min max greedy
                 |k r IH| |]; cbn [matchRegex].
  - intros x c c' Hx Hagree. apply Hagree. lia.
  - apply charMatcher_ext.
  - apply charMatcher_ext.
  - apply charMatcher_ext.
  - intros x c c' Hx Hagree. apply IH1; [exact Hx|].
    intros y Hy. apply IH2; [lia|]. intros z Hz. apply Hagree. lia.
  - intros x c c' Hx Hagree. rewrite (IH1 x c c' Hx Hagree), (IH2 x c c' Hx Hagree).
    reflexivity.
  - intros x c c' Hx Hagree.
    apply (repeatMatcher_budget inputChars
             (fun y k => matchRegex rer r inputChars y k)); [exact IH | exact Hx | lia | lia |].
    exact Hagree.
  - intros x c c' Hx Hagree. apply IH; [exact Hx|].
    intros y Hy. apply Hagree. simpl. lia.
  - intros x c c' Hx Hagree.
    match goal with |- (if ?b then _ else _) = _ => destruct b; [|reflexivity] end.
    apply Hagree. lia.
  - intros x c c' Hx Hagree.
    match goal with |- (if ?b then _ else _) = _ => destruct b; [|reflexivity] end.
    apply Hagree. lia.
Qed.

(** The budget that [matchRegex] gives a quantifier is as good as any larger
    one. *)
Lemma quantifier_budget (rer : RegExpRecord) (inputChars : list N) (r : Regex)
    (min : nat) (max : option nat) (greedy : bool) (x : MatchState) (c : Continuation)
    (n : nat) :
  endIndex x <= length inputChars ->
  min + length inputChars + 1 <= n ->
  matchRegex rer (Repeat r min max greedy) inputChars x c
  = repeatMatcher n (fun y k => matchRegex rer r inputChars y k) (groupsIn r)
      min max greedy x c.
Proof.
  intros Hx Hn. cbn [matchRegex].
  apply (repeatMatcher_budget inputChars (fun y k => matchRegex rer r inputChars y k));
    [apply matchRegex_ext | exact Hx | lia | lia |].
  intros y _. reflexivity.
Qed.

End MiniFacts.

(** The fragment compiler as a host. Its [source] accessor returns the
    pattern text as it was given. *)
#[export] Instance MiniHost : HostRegExp := {|
  CompilePattern := Mini.compilePattern;
  InvalidFlagsMessage := Mini.invalidFlagsMessage;
  EscapeRegExpPattern := fun P => P;
  matcher_bounds := MiniFacts.compilePattern_bounds;
  escape_compiles_alike := fun P rer => eq_refl
|}.

(* ===================================================================== *)
(** * Facts about the host's index helpers and [exec] *)
(* ===================================================================== *)

Module HostFacts.
Import Host.

(** Code units to code points and back, by the flag. *)
Definition toInput (U : bool) (str : jsstring) (i : nat) : nat :=
  if U then codePointIndexOf str i else i.
Definition toUnit (U : bool) (str : jsstring) (i : nat) : nat :=
  if U then GetStringIndex str i else i.
Definition inputOf (U : bool) (str : jsstring) : list N :=
  if U then StringToCodePoints str else str.

(** An index at which a character starts (or the end of the string). *)
Definition boundary (U : bool) (str : jsstring) (i : nat) : Prop :=
  toUnit U str (toInput U str i) = i.

(** A string is empty, one code unit, or starts with a surrogate pair or
    with a code unit that is a character of its own. *)
Lemma codepoints_ind (P : jsstring -> Prop) :
  P [] ->
  (forall c, P [c]) ->
  (forall c d rest, isSurrogatePair c d = false -> P (d :: rest) -> P (c :: d :: rest)) ->
  (forall c d rest, isSurrogatePair c d = true -> P rest -> P (c :: d :: rest)) ->
  forall str, P str.
Proof.
  intros Hnil Hone Hsingle Hpair str.
  assert (Hall : forall n s, length s <= n -> P s).
  { induction n as [|n IH]; intros s Hlen.
    - destruct s; [exact Hnil | simpl in Hlen; lia].
    - destruct s as [|c [|d rest]]; [exact Hnil | apply Hone |].
      simpl in Hlen. destruct (isSurrogatePair c d) eqn:Hp.
      + apply Hpair; [exact Hp|]. apply IH. lia.
      + apply Hsingle; [exact Hp|]. apply IH. simpl. lia. }
  apply (Hall (length str)). lia.
Qed.

Lemma GSI_0 (str : jsstring) : GetStringIndex str 0 = 0.
Proof. destruct str; reflexivity. Qed.
Lemma GSI_nil (e : nat) : GetStringIndex [] e = 0.
Proof. destruct e; reflexivity. Qed.
Lemma GSI_one (c : N) (e : nat) : GetStringIndex [c] (S e) = 1.
Proof. reflexivity. Qed.
Lemma GSI_single (c d : N) (rest : jsstring) (e : nat) :
  isSurrogatePair c d = false ->
  GetStringIndex (c :: d :: rest) (S e) = 1 + GetStringIndex (d :: rest) e.
Proof. intros Hp. cbn [GetStringIndex]. rewrite Hp. reflexivity. Qed.
Lemma GSI_pair (c d : N) (rest : jsstring) (e : nat) :
  isSurrogatePair c d = true ->
  GetStringIndex (c :: d :: rest) (S e) = 2 + GetStringIndex rest e.
Proof. intros Hp. cbn [GetStringIndex]. rewrite Hp. reflexivity. Qed.

Lemma CPI_0 (str : jsstring) : codePointIndexOf str 0 = 0.
Proof. destruct str; reflexivity. Qed.
Lemma CPI_nil (i : nat) : codePointIndexOf [] i = 0.
Proof. destruct i; reflexivity. Qed.
Lemma CPI_one (c : N) (i : nat) : codePointIndexOf [c] (S i) = 1.
Proof. reflexivity. Qed.
Lemma CPI_single (c d : N) (rest : jsstring) (i : nat) :
  isSurrogatePair c d = false ->
  codePointIndexOf (c :: d :: rest) (S i) = 1 + codePointIndexOf (d :: rest) i.
Proof. intros Hp. cbn [codePointIndexOf]. rewrite Hp. reflexivity. Qed.
Lemma CPI_pair_mid (c d : N) (rest : jsstring) :
  isSurrogatePair c d = true -> codePointIndexOf (c :: d :: rest) 1 = 0.
Proof. intros Hp. cbn [codePointIndexOf]. rewrite Hp. reflexivity. Qed.
Lemma CPI_pair (c d : N) (rest : jsstring) (i : nat) :
  isSurrogatePair c d = true ->
  codePointIndexOf (c :: d :: rest) (S (S i)) = 1 + codePointIndexOf rest i.
Proof. intros Hp. cbn [codePointIndexOf]. rewrite Hp. reflexivity. Qed.

Lemma STC_single (c d : N) (rest : jsstring) :
  isSurrogatePair c d = false ->
  StringToCodePoints (c :: d :: rest) = c :: StringToCodePoints (d :: rest).
Proof. intros Hp. cbn [StringToCodePoints]. rewrite Hp. reflexivity. Qed.
Lemma STC_pair (c d : N) (rest : jsstring) :
  isSurrogatePair c d = true ->
  StringToCodePoints (c :: d :: rest)
  = UTF16SurrogatePairToCodePoint c d :: StringToCodePoints rest.
Proof. intros Hp. cbn [StringToCodePoints]. rewrite Hp. reflexivity. Qed.

#[local] Opaque GetStringIndex codePointIndexOf StringToCodePoints.

Ltac cp_rewrite Hp :=
  repeat first
    [ rewrite GSI_0 | rewrite GSI_nil | rewrite GSI_one
    | rewrite (GSI_single _ _ _ _ Hp) | rewrite (GSI_pair _ _ _ _ Hp)
    | rewrite CPI_0 | rewrite CPI_nil | rewrite CPI_one
    | rewrite (CPI_single _ _ _ _ Hp) | rewrite (CPI_pair_mid _ _ _ Hp)
    | rewrite (CPI_pair _ _ _ _ Hp)
    | rewrite (STC_single _ _ _ Hp) | rewrite (STC_pair _ _ _ Hp) ].

Ltac cp_plain :=
  repeat first
    [ rewrite GSI_0 | rewrite GSI_nil | rewrite GSI_one
    | rewrite CPI_0 | rewrite CPI_nil | rewrite CPI_one ].

Lemma GSI_le_length (str : jsstring) : forall e, GetStringIndex str e <= length str.
Proof.
  induction str as [|c|c d rest Hp IH|c d rest Hp IH] using codepoints_ind;
    intros [|e]; cp_plain; try cp_rewrite Hp; simpl; try lia.
  - specialize (IH e). simpl in IH. lia.
  - specialize (IH e). lia.
Qed.

Lemma GSI_mono (str : jsstring) :
  forall e e', e <= e' -> GetStringIndex str e <= GetStringIndex str e'.
Proof.
  induction str as [|c|c d rest Hp IH|c d rest Hp IH] using codepoints_ind;
    intros [|e] [|e'] Hle; cp_plain; try cp_rewrite Hp; try lia.
  - specialize (IH e e'). lia.
  - specialize (IH e e'). lia.
Qed.

Lemma CPI_le (str : jsstring) :
  forall i, i <= length str -> codePointIndexOf str i <= length (StringToCodePoints str).
Proof.
  induction str as [|c|c d rest Hp IH|c d rest Hp IH] using codepoints_ind;
    intros [|i] Hi; cp_plain; try cp_rewrite Hp; simpl in *; try lia.
  - #[local] Transparent StringToCodePoints. simpl. lia.
  - specialize (IH i). lia.
  - destruct i as [|i]; cp_rewrite Hp; [lia|]. specialize (IH i). lia.
Qed.
#[local] Opaque StringToCodePoints.

(** The character a code unit belongs to starts at that unit or one before. *)
Lemma GSI_CPI_near (str : jsstring) :
  forall i, i <= length str ->
    GetStringIndex str (codePointIndexOf str i) <= i
    /\ i <= GetStringIndex str (codePointIndexOf str i) + 1.
Proof.
  induction str as [|c|c d rest Hp IH|c d rest Hp IH] using codepoints_ind;
    intros [|i] Hi; cp_plain; try cp_rewrite Hp; simpl in *; try lia.
  - specialize (IH i). lia.
  - destruct i as [|i]; cp_rewrite Hp; [lia|]. specialize (IH i). lia.
Qed.

(** Where a code point starts is a boundary. *)
Lemma GSI_boundary (str : jsstring) :
  forall e, GetStringIndex str (codePointIndexOf str (GetStringIndex str e))
            = GetStringIndex str e.
Proof.
  induction str as [|c|c d rest Hp IH|c d rest Hp IH] using codepoints_ind;
    intros [|e]; cp_plain; try cp_rewrite Hp; try reflexivity.
  - simpl. cp_rewrite Hp. rewrite IH. reflexivity.
  - simpl. cp_rewrite Hp. rewrite IH. reflexivity.
Qed.

(** Past a boundary that is followed by no boundary lies the second half of
    a surrogate pair: the same character. *)
Lemma CPI_inside_pair (str : jsstring) :
  forall e, S e <= length str ->
    GetStringIndex str (codePointIndexOf str e) = e ->
    GetStringIndex str (codePointIndexOf str (S e)) <> S e ->
    codePointIndexOf str (S e) = codePointIndexOf str e.
Proof.
  induction str as [|c|c d rest Hp IH|c d rest Hp IH] using codepoints_ind;
    intros e He Hb Hnb.
  - simpl in He. lia.
  - simpl in He. assert (e = 0) as -> by lia.
    exfalso. apply Hnb. cp_plain. reflexivity.
  - destruct e as [|e].
    + exfalso. apply Hnb. cp_rewrite Hp. reflexivity.
    + revert Hb Hnb. cp_rewrite Hp. intros Hb Hnb.
      f_equal. apply IH; [simpl in *; lia | lia | lia].
  - destruct e as [|[|e]].
    + cp_rewrite Hp. reflexivity.
    + revert Hb. cp_rewrite Hp. lia.
    + revert Hb Hnb. cp_rewrite Hp. intros Hb Hnb.
      f_equal. apply IH; [simpl in *; lia | lia | lia].
Qed.

Lemma advance_cons (c : N) (t : jsstring) (i : nat) :
  AdvanceStringIndex (c :: t) (S i) true = S (AdvanceStringIndex t i true).
Proof.
  unfold AdvanceStringIndex, codeUnitCountAt. cbn [negb length].
  change ((c :: t) !! S i) with (t !! i).
  change ((c :: t) !! (S i + 1)%nat) with (t !! (i + 1)%nat).
  destruct (length t <=? i + 1)%nat eqn:Hlen.
  - replace (S (length t) <=? S i + 1)%nat with true
      by (symmetry; apply Nat.leb_le; apply Nat.leb_le in Hlen; lia). lia.
  - replace (S (length t) <=? S i + 1)%nat with false
      by (symmetry; apply Nat.leb_gt; apply Nat.leb_gt in Hlen; lia). lia.
Qed.

(** AdvanceStringIndex goes from a boundary to the next one. *)
Lemma advance_boundary (str : jsstring) :
  forall i, i < length str ->
    GetStringIndex str (codePointIndexOf str i) = i ->
    GetStringIndex str (codePointIndexOf str (AdvanceStringIndex str i true))
    = AdvanceStringIndex str i true.
Proof.
  induction str as [|c|c d rest Hp IH|c d rest Hp IH] using codepoints_ind;
    intros i Hi Hb.
  - simpl in Hi. lia.
  - simpl in Hi. assert (i = 0) as -> by lia. reflexivity.
  - destruct i as [|i].
    + assert (AdvanceStringIndex (c :: d :: rest) 0 true = 1) as ->.
      { unfold AdvanceStringIndex, codeUnitCountAt. simpl. rewrite Hp. reflexivity. }
      cp_rewrite Hp. reflexivity.
    + revert Hb. rewrite advance_cons. cp_rewrite Hp. intros Hb.
      rewrite IH; [lia | simpl in *; lia | lia].
  - destruct i as [|[|i]].
    + assert (AdvanceStringIndex (c :: d :: rest) 0 true = 2) as ->.
      { unfold AdvanceStringIndex, codeUnitCountAt. simpl. rewrite Hp. reflexivity. }
      cp_rewrite Hp. reflexivity.
    + revert Hb. cp_rewrite Hp. lia.
    + revert Hb. rewrite !advance_cons. cp_rewrite Hp. intros Hb.
      rewrite IH; [lia | simpl in *; lia | lia].
Qed.

Lemma advance_gt (str : jsstring) (i : nat) (U : bool) :
  i < AdvanceStringIndex str i U.
Proof.
  unfold AdvanceStringIndex, codeUnitCountAt.
  destruct U; simpl; [|lia].
  destruct (length str <=? i + 1)%nat; [lia|].
  destruct (str !! i); [|lia].
  destruct (str !! (i + 1)%nat); [|lia].
  destruct (isSurrogatePair _ _); lia.
Qed.

(** ** [exec] *)

(** What ECMA-262 guarantees of a pattern's matcher. *)
Definition BoundedMatcher (m : Matcher) : Prop :=
  forall inputChars i st,
    i <= length inputChars ->
    m inputChars i = Some st ->
    i <= endIndex st <= length inputChars.

Lemma boundary_plain (str : jsstring) (i : nat) : boundary false str i.
Proof. reflexivity. Qed.

Lemma boundary_0 (U : bool) (str : jsstring) : boundary U str 0.
Proof. destruct U; [|reflexivity]. unfold boundary. simpl. rewrite CPI_0, GSI_0. reflexivity. Qed.

Lemma boundary_toUnit (U : bool) (str : jsstring) (e : nat) : boundary U str (toUnit U str e).
Proof. destruct U; [|reflexivity]. apply GSI_boundary. Qed.

Lemma toUnit_mono (U : bool) (str : jsstring) (i j : nat) :
  i <= j -> toUnit U str i <= toUnit U str j.
Proof. destruct U; simpl; [apply GSI_mono | auto]. Qed.

Lemma toUnit_le_length (U : bool) (str : jsstring) (i : nat) :
  i <= length (inputOf U str) -> toUnit U str i <= length str.
Proof. destruct U; simpl; [intros _; apply GSI_le_length | auto]. Qed.

Lemma toInput_le_length (U : bool) (str : jsstring) (i : nat) :
  i <= length str -> toInput U str i <= length (inputOf U str).
Proof. destruct U; simpl; [apply CPI_le | auto]. Qed.

Lemma toUnit_toInput_le (U : bool) (str : jsstring) (i : nat) :
  i <= length str -> toUnit U str (toInput U str i) <= i.
Proof. destruct U; simpl; [apply GSI_CPI_near | auto]. Qed.

(** The search ends where the matcher succeeded: at or after the index it
    started from, inside the string, on a boundary if it started on one. *)
Lemma execSearch_spec (R : RegExpObject) (str : jsstring) (inputChars : list N) :
  forall n lastIndex found inputIndex r,
    execSearch n R str inputChars lastIndex = Some (found, inputIndex, r) ->
    lastIndex <= found <= length str
    /\ inputIndex = toInput (fullUnicode (flags_ R)) str found
    /\ RegExpMatcher R inputChars inputIndex = Some r
    /\ (boundary (fullUnicode (flags_ R)) str lastIndex ->
        boundary (fullUnicode (flags_ R)) str found).
Proof.
  induction n as [|n IH]; intros lastIndex found inputIndex r Hrun; [discriminate|].
  cbn [execSearch] in Hrun.
  destruct (length str <? lastIndex)%nat eqn:Hlen; [discriminate|].
  apply Nat.ltb_ge in Hlen.
  fold (toInput (fullUnicode (flags_ R)) str lastIndex) in Hrun.
  destruct (RegExpMatcher R inputChars (toInput (fullUnicode (flags_ R)) str lastIndex))
    as [r'|] eqn:Hm.
  - injection Hrun as <- <- <-. repeat split; auto.
  - destruct (sticky (flags_ R)); [discriminate|].
    apply IH in Hrun as (Hrange & Hidx & Hmatch & Hbnd).
    pose proof (advance_gt str lastIndex (fullUnicode (flags_ R))) as Hgt.
    repeat split; auto; try lia.
    intros Hb. apply Hbnd.
    destruct (fullUnicode (flags_ R)); [|reflexivity].
    apply advance_boundary; [lia | exact Hb].
Qed.

(** With a budget past the end of the string the search does not depend on
    the budget: it is never used up. *)
Lemma execSearch_budget (R : RegExpObject) (str : jsstring) (inputChars : list N) :
  forall n n' lastIndex,
    length str + 2 <= n + lastIndex ->
    length str + 2 <= n' + lastIndex ->
    execSearch n R str inputChars lastIndex = execSearch n' R str inputChars lastIndex.
Proof.
  induction n as [|n IH]; intros n' lastIndex Hn Hn'.
  - destruct n'; [reflexivity|]. cbn [execSearch].
    replace (length str <? lastIndex)%nat with true
      by (symmetry; apply Nat.ltb_lt; lia). reflexivity.
  - cbn [execSearch]. destruct (length str <? lastIndex)%nat eqn:Hlen.
    + destruct n'; [reflexivity|]. cbn [execSearch]. rewrite Hlen. reflexivity.
    + apply Nat.ltb_ge in Hlen. destruct n' as [|n']; [lia|].
      cbn [execSearch]. replace (length str <? lastIndex)%nat with false
        by (symmetry; apply Nat.ltb_ge; lia).
      destruct (RegExpMatcher R inputChars _); [reflexivity|].
      destruct (sticky (flags_ R)); [reflexivity|].
      pose proof (advance_gt str lastIndex (fullUnicode (flags_ R))).
      apply IH; lia.
Qed.

(** Where [exec] starts searching. *)
Definition startOf (R : RegExpObject) (lastIndex : nat) : nat :=
  if global (flags_ R) || sticky (flags_ R) then lastIndex else 0.

(** What a successful [exec] returns. *)
Lemma exec_Some (R : RegExpObject) (str : jsstring) (lastIndex : nat) (m : Match)
    (lastIndex' : nat) :
  BoundedMatcher (RegExpMatcher R) ->
  RegExpBuiltinExec R str lastIndex = (Some m, lastIndex') ->
  let U := fullUnicode (flags_ R) in
  exists found r,
    startOf R lastIndex <= found <= length str
    /\ RegExpMatcher R (inputOf U str) (toInput U str found) = Some r
    /\ m = execResult R str (toInput U str found) r
    /\ index m = toUnit U str (toInput U str found)
    /\ (boundary U str (startOf R lastIndex) -> index m = found)
    /\ index m <= toUnit U str (endIndex r) <= length str
    /\ lastIndex' = (if global (flags_ R) || sticky (flags_ R)
                     then toUnit U str (endIndex r) else lastIndex).
Proof.
  intros Hbounded Hrun U. unfold RegExpBuiltinExec in Hrun.
  fold (startOf R lastIndex) in Hrun. fold U in Hrun. fold (inputOf U str) in Hrun.
  destruct (execSearch _ R str (inputOf U str) (startOf R lastIndex))
    as [[[found inputIndex] r]|] eqn:Hsearch; [|discriminate].
  apply execSearch_spec in Hsearch as (Hrange & -> & Hmatch & Hbnd). fold U in Hmatch, Hbnd.
  fold (toUnit U str (endIndex r)) in Hrun.
  injection Hrun as <- <-.
  pose proof (toInput_le_length U str found (proj2 Hrange)) as Hin.
  destruct (Hbounded _ _ _ Hin Hmatch) as [Hge Hle].
  exists found, r.
  split; [exact Hrange|]. split; [exact Hmatch|]. split; [reflexivity|].
  split; [reflexivity|]. split; [intros Hb; apply Hbnd in Hb; exact Hb|].
  split; [|reflexivity].
  split; [apply (toUnit_mono U str _ _ Hge) | apply toUnit_le_length; exact Hle].
Qed.

(** Started on an index whose character the matcher accepts, [exec] returns
    that match at once. *)
Lemma exec_at (R : RegExpObject) (str : jsstring) (lastIndex : nat) (r : MatchState) :
  let U := fullUnicode (flags_ R) in
  global (flags_ R) || sticky (flags_ R) = true ->
  lastIndex <= length str ->
  RegExpMatcher R (inputOf U str) (toInput U str lastIndex) = Some r ->
  RegExpBuiltinExec R str lastIndex
  = (Some (execResult R str (toInput U str lastIndex) r), toUnit U str (endIndex r)).
Proof.
  intros U Huses Hlen Hmatch. unfold RegExpBuiltinExec. rewrite Huses.
  cbn [Nat.add execSearch].
  replace (length str <? lastIndex)%nat with false by (symmetry; apply Nat.ltb_ge; lia).
  fold U. fold (inputOf U str). fold (toInput U str lastIndex). rewrite Hmatch.
  reflexivity.
Qed.

Lemma exec_None (R : RegExpObject) (str : jsstring) (lastIndex lastIndex' : nat) :
  RegExpBuiltinExec R str lastIndex = (None, lastIndex') ->
  lastIndex' = if global (flags_ R) || sticky (flags_ R) then 0 else lastIndex.
Proof.
  unfold RegExpBuiltinExec. destruct (execSearch _ _ _ _ _) as [[[? ?] ?]|]; [discriminate|].
  intros [= <-]. reflexivity.
Qed.

End HostFacts.

(* ===================================================================== *)
(** * Properties of the match engine *)
(* ===================================================================== *)

Module MatchFacts.
Import Host Ctor HostFacts RegexEngine.

(** Matches in the order of their start offsets, each strictly before every
    later one. *)
Definition ascending (ms : list Match) : Prop :=
  StronglySorted (fun a b => index a < index b) ms.

Lemma index_addGroups (m : Match) : index (addGroups m) = index m.
Proof. unfold addGroups. destruct (1 <? length (array m))%nat; reflexivity. Qed.

Lemma array_addGroups (m : Match) : array (addGroups m) = array m.
Proof. unfold addGroups. destruct (1 <? length (array m))%nat; reflexivity. Qed.

(** The [flags] accessor keeps the global flag. *)
Lemma flagsGetter_global (R : RegExpObject) :
  JS.includes (flagsGetter R) (js "g") = global (flags_ R).
Proof.
  unfold flagsGetter.
  destruct (hasIndices (flags_ R)), (global (flags_ R)); try reflexivity;
    destruct (ignoreCase (flags_ R)), (multiline (flags_ R)), (dotAll (flags_ R)),
      (unicode (flags_ R)), (unicodeSets (flags_ R)), (sticky (flags_ R)); reflexivity.
Qed.

(** The [flags] accessor keeps every flag: read again, its text gives the
    flags it was built from. *)
Lemma flagsOf_flagsGetter (R : RegExpObject) : flagsOf (flagsGetter R) = flags_ R.
Proof.
  unfold flagsGetter, flags_, flagsOf.
  cbn [hasIndices global ignoreCase multiline dotAll unicode unicodeSets sticky].
  destruct (JS.includes (OriginalFlags R) (js "d")),
    (JS.includes (OriginalFlags R) (js "g")), (JS.includes (OriginalFlags R) (js "i")),
    (JS.includes (OriginalFlags R) (js "m")), (JS.includes (OriginalFlags R) (js "s")),
    (JS.includes (OriginalFlags R) (js "u")), (JS.includes (OriginalFlags R) (js "v")),
    (JS.includes (OriginalFlags R) (js "y")); reflexivity.
Qed.

(** The text of the [flags] accessor is a valid flags argument whenever the
    object's own flags were. *)
Lemma validFlags_flagsGetter (R : RegExpObject) :
  validFlags (OriginalFlags R) = true -> validFlags (flagsGetter R) = true.
Proof.
  unfold validFlags. rewrite !andb_true_iff. intros [_ Huv].
  unfold flagsGetter, flags_, flagsOf.
  cbn [hasIndices global ignoreCase multiline dotAll unicode unicodeSets sticky].
  destruct (JS.includes (OriginalFlags R) (js "u")),
    (JS.includes (OriginalFlags R) (js "v")); try discriminate;
    destruct (JS.includes (OriginalFlags R) (js "d")),
      (JS.includes (OriginalFlags R) (js "g")), (JS.includes (OriginalFlags R) (js "i")),
      (JS.includes (OriginalFlags R) (js "m")), (JS.includes (OriginalFlags R) (js "s")),
      (JS.includes (OriginalFlags R) (js "y")); vm_compute; auto.
Qed.

Section Loop.
Variable R : RegExpObject.
Variable str : jsstring.
Hypothesis Hbounded : BoundedMatcher (RegExpMatcher R).
Hypothesis Huses : global (flags_ R) || sticky (flags_ R) = true.

Let U := fullUnicode (flags_ R).

(** The cursor after a turn of the loop. *)
Definition nextIndex (m : Match) (lastIndex1 : nat) : nat :=
  if (index m =? lastIndex1)%nat then lastIndex1 + 1 else lastIndex1.

(** A turn that leaves the cursor where it was is repeated for ever. *)
Lemma globalLoop_stuck (lastIndex : nat) (m : Match) (lastIndex1 : nat) :
  RegExpBuiltinExec R str lastIndex = (Some m, lastIndex1) ->
  nextIndex m lastIndex1 = lastIndex ->
  forall fuel matches, globalLoop fuel R str lastIndex matches = OutOfFuel.
Proof.
  intros Hexec Hnext fuel. induction fuel as [|fuel IH]; intros matches;
    cbn [globalLoop]; rewrite Hexec; [reflexivity|].
  fold (nextIndex m lastIndex1). rewrite Hnext. apply IH.
Qed.

(** One turn from a boundary: the match starts at or after the cursor, and
    the next cursor lies past the start of the match; it is a boundary again,
    or inside the surrogate pair at which an empty match was just found, and
    then the next turn finds the same match and sets the same cursor. *)
Lemma turn_from_boundary (lastIndex : nat) (m : Match) (lastIndex1 : nat) :
  boundary U str lastIndex ->
  RegExpBuiltinExec R str lastIndex = (Some m, lastIndex1) ->
  lastIndex <= index m < nextIndex m lastIndex1
  /\ (boundary U str (nextIndex m lastIndex1)
      \/ length str < nextIndex m lastIndex1
      \/ (RegExpBuiltinExec R str (nextIndex m lastIndex1) = (Some m, lastIndex1))).
Proof.
  intros Hb Hexec.
  destruct (exec_Some R str lastIndex m lastIndex1 Hbounded Hexec)
    as (found & r & Hrange & Hmatch & Hm & Hindex & Hfound & He & Hlast).
  fold U in Hmatch, Hm, Hindex, Hfound, He, Hlast.
  unfold startOf in Hrange, Hfound. rewrite Huses in Hrange, Hfound, Hlast.
  specialize (Hfound Hb). unfold nextIndex.
  destruct (index m =? lastIndex1)%nat eqn:Hzero.
  - apply Nat.eqb_eq in Hzero. split; [lia|].
    destruct (decide (lastIndex1 + 1 <= length str)) as [Hin|]; [|right; left; lia].
    destruct (Nat.eq_dec (toUnit U str (toInput U str (lastIndex1 + 1))) (lastIndex1 + 1))
      as [|Hnb]; [left; assumption|].
    right; right.
    assert (HU : U = true).
    { destruct U eqn:E; [reflexivity|]. exfalso. apply Hnb. reflexivity. }
    assert (Hsame : toInput U str (lastIndex1 + 1) = toInput U str found).
    { unfold boundary in Hnb. rewrite HU in *. simpl in *.
      rewrite Nat.add_1_r in *. rewrite <- Hzero, Hfound.
      apply CPI_inside_pair; [lia | lia | ].
      rewrite Hfound in Hzero. rewrite Hzero. exact Hnb. }
    rewrite (exec_at R str (lastIndex1 + 1) r Huses Hin); fold U; rewrite Hsame;
      [|exact Hmatch].
    rewrite <- Hm, <- Hlast. reflexivity.
  - apply Nat.eqb_neq in Hzero. split; [lia|].
    left. rewrite Hlast. apply boundary_toUnit.
Qed.

(** The matches collected by a loop that ends are in ascending order. *)
Lemma globalLoop_ascending :
  forall fuel lastIndex matches result,
    (lastIndex <= length str -> boundary U str lastIndex) ->
    Forall (fun m => index m < lastIndex) matches ->
    ascending matches ->
    globalLoop fuel R str lastIndex matches = Normal result ->
    ascending result.
Proof.
  induction fuel as [|fuel IH]; intros lastIndex matches result Hb Hlt Hasc Hrun;
    cbn [globalLoop] in Hrun;
    destruct (RegExpBuiltinExec R str lastIndex) as [[m|] lastIndex1] eqn:Hexec;
    try discriminate; try (injection Hrun as <-; exact Hasc).
  fold (nextIndex m lastIndex1) in Hrun.
  assert (Hin : lastIndex <= length str).
  { destruct (exec_Some R str lastIndex m lastIndex1 Hbounded Hexec)
      as (found & r & Hrange & _). unfold startOf in Hrange. rewrite Huses in Hrange. lia. }
  destruct (turn_from_boundary lastIndex m lastIndex1 (Hb Hin) Hexec) as [Hidx Hnext].
  destruct Hnext as [Hnext|[Hnext|Hnext]].
  - apply (IH _ _ _ (fun _ => Hnext)) in Hrun; [exact Hrun | |].
    + apply Forall_app. split.
      * eapply Forall_impl; [exact Hlt|]. simpl. intros; lia.
      * apply Forall_singleton. rewrite index_addGroups. lia.
    + apply StronglySorted_app_2; [|exact Hasc|repeat constructor].
      intros a b Ha Hb'. apply list_elem_of_singleton in Hb'. subst b.
      rewrite index_addGroups. rewrite Forall_forall in Hlt. specialize (Hlt a Ha). lia.
  - apply IH in Hrun; [exact Hrun | lia | |].
    + apply Forall_app. split.
      * eapply Forall_impl; [exact Hlt|]. simpl. intros; lia.
      * apply Forall_singleton. rewrite index_addGroups. lia.
    + apply StronglySorted_app_2; [|exact Hasc|repeat constructor].
      intros a b Ha Hb'. apply list_elem_of_singleton in Hb'. subst b.
      rewrite index_addGroups. rewrite Forall_forall in Hlt. specialize (Hlt a Ha). lia.
  - rewrite (globalLoop_stuck _ _ _ Hnext eq_refl) in Hrun. discriminate.
Qed.

(** Without [u] and [v] every index is a boundary, every turn moves the
    cursor on, and the loop ends within one turn per index of the string. *)
Lemma globalLoop_terminates :
  U = false ->
  forall fuel lastIndex matches,
    length str + 1 <= fuel + lastIndex ->
    exists result, globalLoop fuel R str lastIndex matches = Normal result.
Proof.
  intros HU. induction fuel as [|fuel IH]; intros lastIndex matches Hfuel;
    cbn [globalLoop];
    destruct (RegExpBuiltinExec R str lastIndex) as [[m|] lastIndex1] eqn:Hexec;
    eauto.
  - destruct (exec_Some R str lastIndex m lastIndex1 Hbounded Hexec)
      as (found & r & Hrange & _). unfold startOf in Hrange. rewrite Huses in Hrange. lia.
  - fold (nextIndex m lastIndex1).
    assert (Hb : boundary U str lastIndex) by (rewrite HU; reflexivity).
    destruct (turn_from_boundary lastIndex m lastIndex1 Hb Hexec) as [Hidx _].
    apply IH. lia.
Qed.

End Loop.
(** ** The numbered groups *)

Lemma numberedGroups_fold (elements : list (option jsstring)) (ks : list nat) :
  forall (o : JSObject) (key : PropertyKey),
    fold_left (fun (o : JSObject) (i : nat) => <[inl i := default None (elements !! i)]> o)
      ks o !! key
    = match key with
      | inl i => if bool_decide (i ∈ ks) then Some (default None (elements !! i))
                 else o !! key
      | inr _ => o !! key
      end.
Proof.
  induction ks as [|k ks IH]; intros o key; cbn [fold_left].
  - destruct key; [rewrite bool_decide_eq_false_2 by apply not_elem_of_nil|]; reflexivity.
  - rewrite IH. destruct key as [i|name].
    + destruct (decide (i ∈ ks)) as [Hin|Hnin].
      * rewrite !bool_decide_eq_true_2; [reflexivity | by right | exact Hin].
      * rewrite (bool_decide_eq_false_2 _ Hnin).
        destruct (decide (k = i)) as [->|Hne].
        -- rewrite lookup_insert_eq. rewrite bool_decide_eq_true_2 by left. reflexivity.
        -- rewrite lookup_insert_ne by congruence.
           rewrite bool_decide_eq_false_2; [reflexivity|].
           intros Hin. apply elem_of_cons in Hin as [->|Hin]; [congruence | contradiction].
    + rewrite lookup_insert_ne by discriminate. reflexivity.
Qed.

(** The object built by the loop over the groups: every index from 1 to
    [length - 1] is a key, its value the array element, [undefined] included;
    there is no other key. *)
Lemma numberedGroups_lookup (elements : list (option jsstring)) (key : PropertyKey) :
  numberedGroups elements !! key
  = match key with
    | inl i => if bool_decide (1 <= i < length elements)
               then Some (default None (elements !! i)) else None
    | inr _ => None
    end.
Proof.
  unfold numberedGroups. rewrite numberedGroups_fold. destruct key as [i|name].
  - destruct (decide (1 <= i < length elements)) as [Hi|Hi].
    + rewrite !bool_decide_eq_true_2; [reflexivity | exact Hi |].
      apply elem_of_seq. lia.
    + rewrite !bool_decide_eq_false_2; [apply lookup_empty | exact Hi |].
      rewrite elem_of_seq. lia.
  - apply lookup_empty.
Qed.

(** What "Add groups information" leaves on a match with capture groups. *)
Definition groupsAttached (m : Match) : Prop :=
  1 < length (array m) ->
  exists g : JSObject,
    groups m = Some g
    /\ (forall i, 1 <= i < length (array m) ->
                  g !! (inl i : PropertyKey) = Some (default None (array m !! i)))
    /\ (forall key, g !! key <> None ->
                    exists i, key = inl i /\ 1 <= i < length (array m)).

Lemma addGroups_attached (m : Match) : groupsAttached (addGroups m).
Proof.
  unfold groupsAttached, addGroups.
  destruct (1 <? length (array m))%nat eqn:Hlen; cbn [array groups].
  - intros _. exists (numberedGroups (array m)). split; [reflexivity|]. split.
    + intros i Hi. rewrite numberedGroups_lookup.
      rewrite bool_decide_eq_true_2 by exact Hi. reflexivity.
    + intros key Hkey. rewrite numberedGroups_lookup in Hkey.
      destruct key as [i|name]; [|congruence].
      destruct (decide (1 <= i < length (array m))) as [Hi|Hi]; [eauto|].
      rewrite bool_decide_eq_false_2 in Hkey by exact Hi. congruence.
  - apply Nat.ltb_ge in Hlen. intros. lia.
Qed.

Lemma globalLoop_Forall (P : Match -> Prop) (R : RegExpObject) (str : jsstring) :
  (forall m, P (addGroups m)) ->
  forall fuel lastIndex matches result,
    Forall P matches ->
    globalLoop fuel R str lastIndex matches = Normal result ->
    Forall P result.
Proof.
  intros HP. induction fuel as [|fuel IH]; intros lastIndex matches result Hall Hrun;
    cbn [globalLoop] in Hrun;
    destruct (RegExpBuiltinExec R str lastIndex) as [[m|] lastIndex1];
    try discriminate; try (injection Hrun as <-; exact Hall).
  eapply IH; [|exact Hrun]. apply Forall_app. split; [exact Hall|].
  apply Forall_singleton. apply HP.
Qed.

(** A loop that ended ends the same way under a larger budget. *)
Lemma globalLoop_more_fuel (R : RegExpObject) (str : jsstring) (k : nat) :
  forall fuel lastIndex matches result,
    globalLoop fuel R str lastIndex matches = Normal result ->
    globalLoop (k + fuel) R str lastIndex matches = Normal result.
Proof.
  induction fuel as [|fuel IH]; intros lastIndex matches result Hrun.
  - cbn [globalLoop] in Hrun.
    destruct (k + 0) eqn:Hk; cbn [globalLoop];
      destruct (RegExpBuiltinExec R str lastIndex) as [[m|] lastIndex1];
      try discriminate; exact Hrun.
  - replace (k + S fuel) with (S (k + fuel)) by lia.
    cbn [globalLoop] in *.
    destruct (RegExpBuiltinExec R str lastIndex) as [[m|] lastIndex1]; [|exact Hrun].
    apply IH. exact Hrun.
Qed.

(** ** [execute] *)

Section Engine.
Context `{HostRegExp}.

Lemma RegExpCreate_inv (P F : jsstring) (R : RegExpObject) :
  RegExpCreate P F = Normal R ->
  OriginalSource R = P /\ OriginalFlags R = F /\ BoundedMatcher (RegExpMatcher R)
  /\ exists c, CompilePattern P (recordOf (flagsOf F)) = inr c
               /\ RegExpMatcher R = cMatcher c /\ GroupNames R = cGroupNames c.
Proof.
  unfold RegExpCreate. destruct (negb (validFlags F)); [discriminate|].
  destruct (CompilePattern P (recordOf (flagsOf F))) as [message|c] eqn:Hc; [discriminate|].
  intros [= <-]. cbn. split; [reflexivity|]. split; [reflexivity|]. split; [|eauto].
  intros chars i st. eapply matcher_bounds. exact Hc.
Qed.

Lemma RegExpCreate_terminates (P F : jsstring) : RegExpCreate P F <> OutOfFuel.
Proof.
  unfold RegExpCreate. destruct (negb (validFlags F)); [discriminate|].
  destruct (CompilePattern P _); discriminate.
Qed.

Lemma createRegex_inv (pattern flags flavor : jsstring) (R : RegExpObject) :
  createRegex pattern flags flavor = Normal R ->
  RegExpCreate (adjustedPattern pattern flavor) flags = Normal R.
Proof.
  unfold createRegex, tryCatch.
  destruct (RegExpCreate (adjustedPattern pattern flavor) flags); congruence.
Qed.

(** What [execute] returns was returned by [findMatches] on a regular
    expression that [createRegex] built. *)
Lemma execute_inv (fuel : nat) (pattern flags testString : jsstring)
    (flavor : option jsstring) (result : ExecuteResult) :
  execute fuel pattern flags testString flavor = Normal result ->
  exists regex,
    createRegex pattern flags (default (js "javascript") flavor) = Normal regex
    /\ findMatches fuel regex testString (JS.includes flags (js "g"))
       = Normal (matches result).
Proof.
  unfold execute, tryCatch.
  destruct (createRegex pattern flags _) as [regex| |]; cbn [bindC]; try discriminate.
  destruct (findMatches fuel regex testString _) as [ms| |] eqn:Hfind; cbn [bindC];
    try discriminate.
  intros [= <-]. exists regex. split; [reflexivity | exact Hfind].
Qed.

(** The loop that [findMatches] runs for a global search. *)
Lemma findMatches_global_inv (fuel : nat) (regex : RegExpObject) (testString : jsstring)
    (result : list Match) :
  findMatches fuel regex testString true = Normal result ->
  exists globalRegex,
    RegExpCreate (sourceGetter regex) (flagsGetter regex) = Normal globalRegex
    /\ globalLoop fuel globalRegex testString 0 [] = Normal result.
Proof.
  unfold findMatches.
  destruct (RegExpCreate (sourceGetter regex) (flagsGetter regex)) as [g| |];
    cbn [bindC]; try discriminate.
  eauto.
Qed.

Lemma execute_more_fuel (k fuel : nat) (pattern flags testString : jsstring)
    (flavor : option jsstring) (result : ExecuteResult) :
  execute fuel pattern flags testString flavor = Normal result ->
  execute (k + fuel) pattern flags testString flavor = Normal result.
Proof.
  unfold execute, tryCatch.
  destruct (createRegex pattern flags _) as [regex| |]; cbn [bindC]; try discriminate.
  assert (Hfind : forall ms,
    findMatches fuel regex testString (JS.includes flags (js "g")) = Normal ms ->
    findMatches (k + fuel) regex testString (JS.includes flags (js "g")) = Normal ms).
  { unfold findMatches. destruct (JS.includes flags (js "g")); [|auto].
    destruct (RegExpCreate _ _); cbn [bindC]; try discriminate.
    intros ms. apply globalLoop_more_fuel. }
  destruct (findMatches fuel regex testString _) as [ms| |]; cbn [bindC]; try discriminate.
  rewrite (Hfind ms eq_refl). cbn [bindC]. auto.
Qed.

(** C7: under the global flag the matches [execute] returns are ordered by
    start offset: every match starts strictly before every later one, so
    consecutive matches have strictly increasing start offsets and no
    occurrence is reported twice. *)
Theorem execute_global_ascending (fuel : nat) (pattern flags testString : jsstring)
    (flavor : option jsstring) (result : ExecuteResult) :
  JS.includes flags (js "g") = true ->
  execute fuel pattern flags testString flavor = Normal result ->
  ascending (matches result)
  /\ (forall k a b, matches result !! k = Some a -> matches result !! S k = Some b ->
                    index a < index b)
  /\ NoDup (index <$> matches result).
Proof.
  intros Hg Hrun.
  apply execute_inv in Hrun as (regex & Hregex & Hfind). rewrite Hg in Hfind.
  apply createRegex_inv, RegExpCreate_inv in Hregex as (_ & Hflags & _).
  apply findMatches_global_inv in Hfind as (globalRegex & Hcreate & Hloop).
  apply RegExpCreate_inv in Hcreate as (_ & Hflags' & Hbounded & _).
  assert (Huses : global (flags_ globalRegex) || sticky (flags_ globalRegex) = true).
  { unfold flags_ at 1. rewrite Hflags'. cbn [flagsOf global].
    rewrite flagsGetter_global. unfold flags_. rewrite Hflags. cbn [flagsOf global].
    rewrite Hg. reflexivity. }
  assert (Hasc : ascending (matches result)).
  { eapply (globalLoop_ascending globalRegex testString Hbounded Huses);
      [| | |exact Hloop].
    - intros _. apply boundary_0.
    - constructor.
    - constructor. }
  split; [exact Hasc|]. split.
  - intros k a b Ha Hb.
    rewrite <- (take_drop k (matches result)) in Hasc.
    apply StronglySorted_app in Hasc as (_ & _ & Hasc).
    rewrite (drop_S _ _ _ Ha) in Hasc.
    apply StronglySorted_cons in Hasc as [Hall _].
    rewrite Forall_forall in Hall. apply Hall.
    apply list_elem_of_lookup. exists 0. rewrite lookup_drop, Nat.add_0_r. exact Hb.
  - clear -Hasc. induction Hasc as [|a l Hl IH Hall]; [constructor|].
    cbn [fmap list_fmap]. constructor; [|exact IH].
    intros Hin. apply list_elem_of_fmap in Hin as (b & Hab & Hb).
    rewrite Forall_forall in Hall. specialize (Hall b Hb). lia.
Qed.

(** The regular expression that [findMatches] builds from [source] and
    [flags] is created whenever the one it is given was. *)
Lemma globalRegex_created (P F : jsstring) (regex : RegExpObject) :
  RegExpCreate P F = Normal regex ->
  exists globalRegex,
    RegExpCreate (sourceGetter regex) (flagsGetter regex) = Normal globalRegex
    /\ flags_ globalRegex = flagsOf F
    /\ BoundedMatcher (RegExpMatcher globalRegex).
Proof.
  intros Hcreate. pose proof Hcreate as Hinv.
  apply RegExpCreate_inv in Hinv as (Hsource & Hflags & _ & c & Hc & _).
  assert (Hvalid : validFlags F = true).
  { unfold RegExpCreate in Hcreate. destruct (validFlags F); [reflexivity | discriminate]. }
  destruct (RegExpCreate (sourceGetter regex) (flagsGetter regex)) as [g| |] eqn:Hg.
  - exists g. split; [reflexivity|].
    apply RegExpCreate_inv in Hg as (_ & Hgflags & Hb & _).
    split; [|exact Hb].
    unfold flags_ at 1. rewrite Hgflags, flagsOf_flagsGetter. unfold flags_.
    rewrite Hflags. reflexivity.
  - exfalso. unfold RegExpCreate in Hg.
    rewrite validFlags_flagsGetter in Hg by (rewrite Hflags; exact Hvalid).
    cbn [negb] in Hg. rewrite flagsOf_flagsGetter in Hg. unfold sourceGetter in Hg.
    rewrite escape_compiles_alike in Hg. unfold flags_ in Hg.
    rewrite Hsource, Hflags, Hc in Hg. discriminate.
  - exfalso. exact (RegExpCreate_terminates _ _ Hg).
Qed.

(** The global iteration ends when the flags hold neither [u] nor [v]: for a
    pattern that compiles, one turn of the loop per index of the subject,
    the end included, is enough for [execute] to return. *)
Theorem execute_global_terminates_plain (fuel : nat) (pattern flags testString : jsstring)
    (flavor : option jsstring) (regex : RegExpObject) :
  JS.includes flags (js "g") = true ->
  JS.includes flags (js "u") = false ->
  JS.includes flags (js "v") = false ->
  createRegex pattern flags (default (js "javascript") flavor) = Normal regex ->
  length testString + 1 <= fuel ->
  exists result, execute fuel pattern flags testString flavor = Normal result.
Proof.
  intros Hg Hu Hv Hregex Hfuel. unfold execute. rewrite Hregex. cbn [bindC]. rewrite Hg.
  apply createRegex_inv in Hregex.
  destruct (globalRegex_created _ _ _ Hregex) as (globalRegex & Hcreate & Hflags & Hb).
  unfold findMatches. rewrite Hcreate. cbn [bindC].
  destruct (globalLoop_terminates globalRegex testString Hb) with (fuel := fuel)
    (lastIndex := 0) (matches := @nil Match) as (ms & ->).
  - rewrite Hflags. cbn [flagsOf global]. rewrite Hg. reflexivity.
  - unfold fullUnicode. rewrite Hflags. cbn [flagsOf unicode unicodeSets].
    rewrite Hu, Hv. reflexivity.
  - lia.
  - cbn [bindC tryCatch]. eauto.
Qed.

(** C1, as the code has it: on every match [execute] returns whose array has
    more than one element, [groups] is an object whose keys are exactly the
    indices 1 to [length - 1]; the value under an index is that element of
    the array: the captured text, or [undefined] for a group that did not
    take part (an entry of its own, which the empty string is not). *)
Theorem execute_groups_attached (fuel : nat) (pattern flags testString : jsstring)
    (flavor : option jsstring) (result : ExecuteResult) (m : Match) :
  execute fuel pattern flags testString flavor = Normal result ->
  m ∈ matches result ->
  1 < length (array m) ->
  exists g : JSObject,
    groups m = Some g
    /\ (forall i, 1 <= i < length (array m) ->
                  g !! (inl i : PropertyKey) = Some (default None (array m !! i)))
    /\ (forall key, g !! key <> None ->
                    exists i, key = inl i /\ 1 <= i < length (array m)).
Proof.
  intros Hrun Hm. apply execute_inv in Hrun as (regex & _ & Hfind).
  assert (Hall : Forall groupsAttached (matches result)).
  { destruct (JS.includes flags (js "g")).
    - apply findMatches_global_inv in Hfind as (globalRegex & _ & Hloop).
      eapply globalLoop_Forall; [apply addGroups_attached | constructor | exact Hloop].
    - unfold findMatches in Hfind.
      destruct (RegExpBuiltinExec regex testString 0) as [[m0|] ?];
        injection Hfind as <-; repeat constructor. apply addGroups_attached. }
  rewrite Forall_forall in Hall. exact (Hall m Hm).
Qed.

End Engine.
End MatchFacts.

(* ===================================================================== *)
(** * Facts about [String.prototype.replace] *)
(* ===================================================================== *)

Module ReplaceFacts.
Import Host HostFacts.

(** A match as [exec] builds it, from a success of the matcher inside the
    string. *)
Definition ExecMatch (R : RegExpObject) (str : jsstring) (m : Match) : Prop :=
  exists found r,
    found <= length str
    /\ RegExpMatcher R (inputOf (fullUnicode (flags_ R)) str)
         (toInput (fullUnicode (flags_ R)) str found) = Some r
    /\ m = execResult R str (toInput (fullUnicode (flags_ R)) str found) r
    /\ index m <= toUnit (fullUnicode (flags_ R)) str (endIndex r) <= length str.

(** Where a match ends. *)
Definition matchEnd (m : Match) : nat := index m + length (matched m).

Lemma substr_length (str : jsstring) (a b : nat) :
  b <= length str -> length (substr str a b) = b - a.
Proof. intros Hb. unfold substr. rewrite length_take, length_drop. lia. Qed.

Lemma substr_join (str : jsstring) (a b c : nat) :
  a <= b -> b <= c -> take a str ++ substr str a b ++ substr str b c = take c str.
Proof.
  intros Hab Hbc. unfold substr. rewrite app_assoc, take_take_drop.
  replace (a + (b - a)) with b by lia. rewrite take_take_drop. f_equal. lia.
Qed.

Section Replace.
Variable R : RegExpObject.
Variable str : jsstring.
Hypothesis Hbounded : BoundedMatcher (RegExpMatcher R).

Lemma exec_ExecMatch (lastIndex : nat) (m : Match) (lastIndex' : nat) :
  RegExpBuiltinExec R str lastIndex = (Some m, lastIndex') -> ExecMatch R str m.
Proof.
  intros Hexec.
  destruct (exec_Some R str lastIndex m lastIndex' Hbounded Hexec)
    as (found & r & Hrange & Hmatch & Hm & _ & _ & He & _).
  exists found, r. repeat split; auto; lia.
Qed.

Lemma replaceCollect_ExecMatch :
  forall n lastIndex, Forall (ExecMatch R str) (replaceCollect n R str lastIndex).
Proof.
  induction n as [|n IH]; intros lastIndex; cbn [replaceCollect]; [constructor|].
  destruct (RegExpBuiltinExec R str lastIndex) as [[m|] lastIndex'] eqn:Hexec;
    [|constructor].
  apply exec_ExecMatch in Hexec.
  destruct (negb (global (flags_ R))); constructor; auto.
Qed.

(** The matched text is the part of the string between [index] and
    [matchEnd]. *)
Lemma ExecMatch_matched (m : Match) :
  ExecMatch R str m ->
  matched m = substr str (index m) (matchEnd m) /\ matchEnd m <= length str.
Proof.
  intros (found & r & Hfound & Hmatch & Hm & He).
  assert (Hmatched : matched m
            = substr str (index m) (toUnit (fullUnicode (flags_ R)) str (endIndex r))).
  { rewrite Hm. reflexivity. }
  unfold matchEnd. rewrite Hmatched. rewrite substr_length by lia.
  replace (index m + (toUnit (fullUnicode (flags_ R)) str (endIndex r) - index m))
    with (toUnit (fullUnicode (flags_ R)) str (endIndex r)) by lia.
  split; [reflexivity | lia].
Qed.

Variable replaceValue : ReplaceValue.

(** Results replaced by themselves leave the text read so far as it was. *)
Lemma fold_identity :
  forall results nsp,
    Forall (fun m => ExecMatch R str m /\ replacementOf str replaceValue m = matched m)
      results ->
    nsp <= length str ->
    exists nsp',
      fold_left (replaceStep str replaceValue) results (take nsp str, nsp)
      = (take nsp' str, nsp')
      /\ nsp' <= length str.
Proof.
  induction results as [|m results IH]; intros nsp Hall Hnsp; cbn [fold_left]; [eauto|].
  apply Forall_cons in Hall as [[Hm Hrep] Hall].
  destruct (ExecMatch_matched m Hm) as [Hmatched Hend].
  unfold replaceStep at 2. rewrite Hrep.
  assert (Hpos : index m `min` length str = index m) by (unfold matchEnd in Hend; lia).
  rewrite Hpos.
  destruct (nsp <=? index m)%nat eqn:Hle; [|apply IH; assumption].
  apply Nat.leb_le in Hle. fold (matchEnd m).
  rewrite Hmatched.
  rewrite substr_join by (unfold matchEnd; lia).
  apply IH; assumption.
Qed.

(** Replacing every match by itself gives the string back. *)
Lemma StringReplace_identity :
  (forall m, ExecMatch R str m -> replacementOf str replaceValue m = matched m) ->
  StringReplace str R replaceValue = str.
Proof.
  intros Hrep. unfold StringReplace.
  pose proof (replaceCollect_ExecMatch (2 + length str) 0) as Hall.
  destruct (fold_identity (replaceCollect (2 + length str) R str 0) 0) as (nsp & Hfold & Hnsp).
  - eapply Forall_impl; [exact Hall|]. simpl. auto.
  - lia.
  - rewrite take_0 in Hfold. rewrite Hfold.
    destruct (length str <=? nsp)%nat eqn:Hle.
    + apply Nat.leb_le in Hle. apply take_ge. lia.
    + apply take_drop.
Qed.

(** Results replaced by something no longer than themselves do not make the
    text longer. *)
Lemma fold_shrink :
  forall results acc nsp acc' nsp',
    Forall (fun m => ExecMatch R str m
                     /\ length (replacementOf str replaceValue m) <= length (matched m))
      results ->
    nsp <= length str ->
    fold_left (replaceStep str replaceValue) results (acc, nsp) = (acc', nsp') ->
    nsp' <= length str
    /\ length acc' + (length str - nsp') <= length acc + (length str - nsp).
Proof.
  induction results as [|m results IH]; intros acc nsp acc' nsp' Hall Hnsp Hfold;
    cbn [fold_left] in Hfold.
  - injection Hfold as <- <-. lia.
  - apply Forall_cons in Hall as [[Hm Hrep] Hall].
    destruct (ExecMatch_matched m Hm) as [Hmatched Hend].
    unfold replaceStep at 2 in Hfold.
    assert (Hpos : index m `min` length str = index m) by (unfold matchEnd in Hend; lia).
    rewrite Hpos in Hfold.
    destruct (nsp <=? index m)%nat eqn:Hle; [|eapply IH; eassumption].
    apply Nat.leb_le in Hle.
    apply IH in Hfold as [Hn Hlen]; [|assumption|exact Hend].
    split; [exact Hn|].
    rewrite !length_app, substr_length in Hlen by (unfold matchEnd in Hend; lia).
    unfold matchEnd in *. lia.
Qed.

Lemma StringReplace_result (results : list Match) (acc : jsstring) (nsp : nat) :
  replaceCollect (2 + length str) R str 0 = results ->
  fold_left (replaceStep str replaceValue) results ([], 0) = (acc, nsp) ->
  nsp <= length str ->
  length (StringReplace str R replaceValue) = length acc + (length str - nsp).
Proof.
  intros Hres Hfold Hnsp. unfold StringReplace. rewrite Hres, Hfold.
  destruct (length str <=? nsp)%nat eqn:Hle.
  - apply Nat.leb_le in Hle. lia.
  - rewrite length_app, length_drop. reflexivity.
Qed.

(** Replacing by shorter text: the result is not longer, and it is shorter
    as soon as there is a match. *)
Lemma StringReplace_shrinks :
  (forall m, ExecMatch R str m ->
             length (replacementOf str replaceValue m) < length (matched m)) ->
  length (StringReplace str R replaceValue) <= length str
  /\ (replaceCollect (2 + length str) R str 0 <> [] ->
      length (StringReplace str R replaceValue) < length str).
Proof.
  intros Hrep.
  pose proof (replaceCollect_ExecMatch (2 + length str) 0) as Hall.
  assert (Hall' : Forall (fun m => ExecMatch R str m
                     /\ length (replacementOf str replaceValue m) <= length (matched m))
                    (replaceCollect (2 + length str) R str 0)).
  { eapply Forall_impl; [exact Hall|]. simpl. intros m Hm. split; [exact Hm|].
    specialize (Hrep m Hm). lia. }
  destruct (fold_left (replaceStep str replaceValue)
              (replaceCollect (2 + length str) R str 0) ([], 0)) as [acc nsp] eqn:Hfold.
  split.
  - destruct (fold_shrink _ _ _ _ _ Hall' (Nat.le_0_l _) Hfold) as [Hn Hlen].
    rewrite (StringReplace_result _ _ _ eq_refl Hfold Hn). simpl in Hlen. lia.
  - intros Hne.
    destruct (replaceCollect (2 + length str) R str 0) as [|m results] eqn:Hres;
      [congruence|].
    apply Forall_cons in Hall' as [[Hm _] Hall'].
    destruct (ExecMatch_matched m Hm) as [Hmatched Hend].
    specialize (Hrep m Hm).
    pose proof Hfold as Hfold0.
    cbn [fold_left] in Hfold. unfold replaceStep at 2 in Hfold.
    assert (Hpos : index m `min` length str = index m) by (unfold matchEnd in Hend; lia).
    rewrite Hpos in Hfold. cbn [Nat.leb] in Hfold.
    apply fold_shrink in Hfold as [Hn Hlen]; [|assumption|exact Hend].
    rewrite (StringReplace_result (m :: results) acc nsp Hres Hfold0 Hn).
    rewrite !length_app, substr_length in Hlen by (unfold matchEnd in Hend; lia).
    unfold matchEnd in *. simpl in Hlen. lia.
Qed.

(** Without a match the string is returned as it is. *)
Lemma StringReplace_no_match :
  fst (RegExpBuiltinExec R str 0) = None ->
  StringReplace str R replaceValue = str.
Proof.
  intros Hnone. unfold StringReplace. cbn [Nat.add replaceCollect].
  destruct (RegExpBuiltinExec R str 0) as [[m|] ?]; [discriminate|].
  cbn [fold_left]. destruct (length str <=? 0)%nat eqn:Hle; [|reflexivity].
  apply Nat.leb_le in Hle. destruct str; [reflexivity | simpl in Hle; lia].
Qed.

Lemma replaceCollect_nonempty (n : nat) (lastIndex : nat) :
  fst (RegExpBuiltinExec R str lastIndex) <> None ->
  replaceCollect (S n) R str lastIndex <> [].
Proof.
  intros Hsome. cbn [replaceCollect].
  destruct (RegExpBuiltinExec R str lastIndex) as [[m|] ?]; [|contradiction].
  destruct (negb (global (flags_ R))); discriminate.
Qed.

End Replace.

(** For an expression that is neither sticky nor under [u]/[v], [exec]
    fails exactly when the matcher fails at every index from the start. *)
Lemma execSearch_finds (R : RegExpObject) (str : jsstring) (j : nat) (r : MatchState) :
  sticky (flags_ R) = false ->
  fullUnicode (flags_ R) = false ->
  j <= length str ->
  RegExpMatcher R str j = Some r ->
  forall n lastIndex,
    lastIndex <= j -> j - lastIndex < n ->
    exists res, execSearch n R str str lastIndex = Some res.
Proof.
  intros Hsticky HU Hj Hmatch. induction n as [|n IH]; intros lastIndex Hle Hn; [lia|].
  cbn [execSearch]. rewrite HU, Hsticky.
  replace (length str <? lastIndex)%nat with false by (symmetry; apply Nat.ltb_ge; lia).
  destruct (RegExpMatcher R str lastIndex) as [r'|] eqn:Hm; [eauto|].
  assert (lastIndex <> j) by congruence.
  unfold AdvanceStringIndex. cbn [negb]. apply IH; lia.
Qed.

Lemma exec_finds (R : RegExpObject) (str : jsstring) (j : nat) (r : MatchState) :
  sticky (flags_ R) = false ->
  fullUnicode (flags_ R) = false ->
  j <= length str ->
  RegExpMatcher R str j = Some r ->
  fst (RegExpBuiltinExec R str 0) <> None.
Proof.
  intros Hsticky HU Hj Hmatch. unfold RegExpBuiltinExec. rewrite HU.
  destruct (execSearch_finds R str j r Hsticky HU Hj Hmatch (2 + length str)
              (if global (flags_ R) || sticky (flags_ R) then 0 else 0))
    as (res & Hres); [destruct (_ || _); lia | destruct (_ || _); lia |].
  rewrite Hres. destruct res as [[? ?] ?]. discriminate.
Qed.

Lemma exec_fails (R : RegExpObject) (str : jsstring) (lastIndex : nat) :
  (forall i, RegExpMatcher R (inputOf (fullUnicode (flags_ R)) str) i = None) ->
  fst (RegExpBuiltinExec R str lastIndex) = None.
Proof.
  intros Hnone. unfold RegExpBuiltinExec.
  fold (inputOf (fullUnicode (flags_ R)) str).
  destruct (execSearch _ _ _ _ _) as [[[found inputIndex] r]|] eqn:Hsearch; [|reflexivity].
  apply execSearch_spec in Hsearch as (_ & _ & Hmatch & _).
  rewrite Hnone in Hmatch. discriminate.
Qed.

(** ** The budgets of [replace] and of GetSubstitution *)

(** The results of [replace] do not depend on the budget of its loop once
    the budget reaches past the end of the string: every turn moves
    [lastIndex] on, from a boundary to a boundary. *)
Lemma replaceCollect_budget (R : RegExpObject) (str : jsstring) :
  BoundedMatcher (RegExpMatcher R) ->
  forall n n' lastIndex,
    (lastIndex <= length str -> boundary (fullUnicode (flags_ R)) str lastIndex) ->
    1 <= n -> 1 <= n' ->
    length str + 2 <= n + lastIndex ->
    length str + 2 <= n' + lastIndex ->
    replaceCollect n R str lastIndex = replaceCollect n' R str lastIndex.
Proof.
  intros Hbounded. induction n as [|n IH]; intros n' lastIndex Hb Hn1 Hn1' Hn Hn'; [lia|].
  destruct n' as [|n']; [lia|]. cbn [replaceCollect].
  destruct (RegExpBuiltinExec R str lastIndex) as [[m|] lastIndex1] eqn:Hexec;
    [|reflexivity].
  destruct (global (flags_ R)) eqn:Hglobal; cbn [negb]; [|reflexivity].
  f_equal.
  destruct (exec_Some R str lastIndex m lastIndex1 Hbounded Hexec)
    as (found & r & Hrange & Hmatch & Hm & Hindex & Hfound & He & Hlast).
  unfold startOf in Hrange, Hfound. rewrite Hglobal in Hrange, Hfound, Hlast.
  cbn [orb] in Hrange, Hfound, Hlast.
  specialize (Hfound (Hb ltac:(lia))).
  assert (Hmatched : matched m = substr str (index m) lastIndex1).
  { rewrite Hm, Hlast. reflexivity. }
  assert (Hbl : boundary (fullUnicode (flags_ R)) str lastIndex1).
  { rewrite Hlast. apply boundary_toUnit. }
  destruct (matched m) as [|c0 rest] eqn:Hnil.
  - pose proof (advance_gt str lastIndex1 (fullUnicode (flags_ R))) as Hgt.
    apply IH; try lia.
    intros Hin. destruct (fullUnicode (flags_ R)); [|reflexivity].
    apply advance_boundary; [lia | exact Hbl].
  - assert (index m < lastIndex1).
    { apply (f_equal length) in Hmatched. rewrite substr_length in Hmatched by lia.
      simpl in Hmatched. lia. }
    apply IH; try lia. intros _. exact Hbl.
Qed.

(** Every turn of GetSubstitution takes at least one code unit off the
    template. *)
Lemma substitutionAt_progress (matched_ str : jsstring) (position : nat)
    (captures_ : list (option jsstring)) (namedCaptures : option JSObject)
    (c : N) (rest : jsstring) :
  1 <= fst (substitutionAt matched_ str position captures_ namedCaptures (c :: rest)).
Proof.
  unfold substitutionAt.
  destruct (negb (c =? ch "$")%N); [simpl; lia|].
  destruct rest as [|c1 rest1]; [simpl; lia|].
  repeat match goal with
         | |- context [if ?b then _ else _] => destruct b; try (simpl; lia)
         end;
    repeat match goal with
           | |- context [match ?o with _ => _ end] => destruct o; try (simpl; lia)
           end.
Qed.

(** GetSubstitution does not depend on the budget of its loop once the
    budget is the length of the template. *)
Lemma substitutionLoop_budget (matched_ str : jsstring) (position : nat)
    (captures_ : list (option jsstring)) (namedCaptures : option JSObject) :
  forall n n' template,
    length template <= n -> length template <= n' ->
    substitutionLoop n matched_ str position captures_ namedCaptures template
    = substitutionLoop n' matched_ str position captures_ namedCaptures template.
Proof.
  induction n as [|n IH]; intros n' template Hn Hn'.
  - destruct template; [|simpl in Hn; lia]. destruct n'; reflexivity.
  - destruct template as [|c rest]; [destruct n'; reflexivity|].
    destruct n' as [|n']; [simpl in Hn'; lia|]. cbn [substitutionLoop].
    pose proof (substitutionAt_progress matched_ str position captures_ namedCaptures c rest)
      as Hprogress.
    destruct (substitutionAt matched_ str position captures_ namedCaptures (c :: rest))
      as [refLength refReplacement].
    cbn [fst] in Hprogress. f_equal.
    apply IH; rewrite length_drop; simpl in *; lia.
Qed.

(** ** GetSubstitution on the templates of the source *)

Lemma GetSubstitution_whole (matched_ str : jsstring) (position : nat)
    (captures_ : list (option jsstring)) (namedCaptures : option JSObject) :
  GetSubstitution matched_ str position captures_ namedCaptures (js "$&") = matched_.
Proof. unfold GetSubstitution. cbn. apply app_nil_r. Qed.

Lemma GetSubstitution_one (matched_ str : jsstring) (position : nat)
    (captures_ : list (option jsstring)) (namedCaptures : option JSObject) (c : N) :
  GetSubstitution matched_ str position captures_ namedCaptures [c] = [c].
Proof.
  unfold GetSubstitution. cbn [length substitutionLoop substitutionAt].
  destruct (negb (c =? ch "$")%N); reflexivity.
Qed.

End ReplaceFacts.

(* ===================================================================== *)
(** * Properties of the substitution engine and of the flavor rewriting *)
(* ===================================================================== *)

Module SubstituteFacts.
Import Host Ctor HostFacts ReplaceFacts RegexEngine.

(** ** Occurrences of two code units *)

Lemma startsWith_two (s : jsstring) (a b : N) :
  JS.startsWith s [a; b] = true <-> s !! 0 = Some a /\ s !! 1 = Some b.
Proof.
  destruct s as [|x [|y t]]; simpl.
  - split; [discriminate | intros [? _]; discriminate].
  - split; [|intros [_ ?]; discriminate].
    destruct (a =? x)%N; simpl; discriminate.
  - destruct t; simpl; rewrite !andb_true_iff, !N.eqb_eq; split;
      try (intros (-> & -> & _); auto); intros [[= ->] [= ->]]; auto.
Qed.

Lemma indexOf_from_none (s sub : jsstring) (k : nat) :
  JS.indexOf_from s sub k = (-1)%Z <-> forall i, JS.startsWith (drop i s) sub = false.
Proof.
  revert k. induction s as [|x t IH]; intros k; cbn [JS.indexOf_from].
  - destruct (JS.startsWith [] sub) eqn:Hsw.
    + split; [lia|]. intros Hall. specialize (Hall 0). rewrite drop_0 in Hall. congruence.
    + split; [|reflexivity]. intros _ i. rewrite drop_nil. exact Hsw.
  - destruct (JS.startsWith (x :: t) sub) eqn:Hsw.
    + split; [lia|]. intros Hall. specialize (Hall 0). rewrite drop_0 in Hall. congruence.
    + rewrite IH. split.
      * intros Hall [|i]; [exact Hsw | apply Hall].
      * intros Hall i. apply (Hall (S i)).
Qed.

Lemma indexOf_from_found (s sub : jsstring) (k : nat) :
  JS.indexOf_from s sub k <> (-1)%Z -> exists i, JS.startsWith (drop i s) sub = true.
Proof.
  revert k. induction s as [|x t IH]; intros k; cbn [JS.indexOf_from].
  - destruct (JS.startsWith [] sub) eqn:Hsw; [|congruence].
    intros _. exists 0. exact Hsw.
  - destruct (JS.startsWith (x :: t) sub) eqn:Hsw.
    + intros _. exists 0. exact Hsw.
    + intros Hfound. destruct (IH _ Hfound) as (i & Hi). exists (S i). exact Hi.
Qed.

(** [s.includes(ab)] for two code units [a], [b]: some index holds [a] and
    the next one [b]. *)
Lemma includes_two (s : jsstring) (a b : N) :
  JS.includes s [a; b] = true <-> exists i, s !! i = Some a /\ s !! S i = Some b.
Proof.
  unfold JS.includes, JS.indexOf. rewrite drop_0. cbn [Nat.min].
  rewrite negb_true_iff, Z.eqb_neq. split.
  - intros Hfound. apply indexOf_from_found in Hfound as (i & Hi). exists i.
    apply startsWith_two in Hi. rewrite !lookup_drop in Hi.
    rewrite Nat.add_0_r, Nat.add_1_r in Hi. exact Hi.
  - intros (i & Ha & Hb). rewrite indexOf_from_none. intros Hall. specialize (Hall i).
    apply not_true_iff_false in Hall. apply Hall. apply startsWith_two.
    rewrite !lookup_drop, Nat.add_0_r, Nat.add_1_r. auto.
Qed.

Lemma includes_two_false (s : jsstring) (a b : N) (i : nat) :
  JS.includes s [a; b] = false -> s !! i = Some a -> s !! S i = Some b -> False.
Proof.
  intros Hfalse Ha Hb. apply not_true_iff_false in Hfalse. apply Hfalse.
  apply includes_two. eauto.
Qed.

(** ** The matchers of the source's literals *)

Lemma literal_bounded (source flags : jsstring) (r : Mini.Regex)
    (groupNames : list (option jsstring)) :
  BoundedMatcher (RegExpMatcher (Mini.literal source flags r groupNames)).
Proof.
  intros inputChars i st Hi Hrun. unfold Mini.literal in Hrun.
  cbn [RegExpMatcher] in Hrun.
  eapply MiniFacts.matcherOf_bounds; eassumption.
Qed.

Lemma char_then (rer : RegExpRecord) (a : N) (r2 : Mini.Regex) (inputChars : list N)
    (x : MatchState) (c : Mini.Continuation) (z : MatchState) :
  Mini.matchRegex rer (Mini.Seq (Mini.Char a) r2) inputChars x c = Some z ->
  inputChars !! endIndex x = Some a
  /\ Mini.matchRegex rer r2 inputChars
       {| endIndex := endIndex x + 1; captures := captures x |} c = Some z.
Proof.
  cbn [Mini.matchRegex]. unfold Mini.charMatcher.
  destruct (inputChars !! endIndex x) as [a'|]; [|discriminate].
  destruct (N.eqb_spec a a'); [|discriminate]. subst. auto.
Qed.

Lemma char_last (rer : RegExpRecord) (b : N) (inputChars : list N)
    (y : MatchState) (c : Mini.Continuation) (z : MatchState) :
  Mini.matchRegex rer (Mini.Char b) inputChars y c = Some z ->
  inputChars !! endIndex y = Some b
  /\ c {| endIndex := endIndex y + 1; captures := captures y |} = Some z.
Proof.
  cbn [Mini.matchRegex]. unfold Mini.charMatcher.
  destruct (inputChars !! endIndex y) as [b'|]; [|discriminate].
  destruct (N.eqb_spec b b'); [|discriminate]. subst. auto.
Qed.

(** The literals [/ab/g] of two characters. *)
Definition twoChars (source : jsstring) (a b : N) : RegExpObject :=
  Mini.literal source (js "g") (Mini.Seq (Mini.Char a) (Mini.Char b)) [].

Lemma twoChars_Some (source : jsstring) (a b : N) (inputChars : list N) (i : nat)
    (st : MatchState) :
  RegExpMatcher (twoChars source a b) inputChars i = Some st ->
  inputChars !! i = Some a /\ inputChars !! S i = Some b /\ endIndex st = i + 2.
Proof.
  intros Hrun. unfold twoChars, Mini.literal in Hrun. cbn [RegExpMatcher] in Hrun.
  unfold Mini.matcherOf in Hrun.
  apply char_then in Hrun as [Ha Hrun]. apply char_last in Hrun as [Hb Hrun].
  cbn [endIndex captures] in Ha, Hb, Hrun. injection Hrun as <-. cbn [endIndex].
  rewrite Nat.add_1_r in Hb. repeat split; auto; lia.
Qed.

Lemma twoChars_at (source : jsstring) (a b : N) (inputChars : list N) (i : nat) :
  inputChars !! i = Some a -> inputChars !! S i = Some b ->
  exists st, RegExpMatcher (twoChars source a b) inputChars i = Some st.
Proof.
  intros Ha Hb. unfold twoChars, Mini.literal. cbn [RegExpMatcher].
  unfold Mini.matcherOf. cbn [Mini.matchRegex].
  unfold Mini.charMatcher. cbn [endIndex captures].
  rewrite Ha, N.eqb_refl. cbn [endIndex captures].
  rewrite Nat.add_1_r, Hb, N.eqb_refl. eauto.
Qed.

Lemma twoChars_flags (source : jsstring) (a b : N) :
  sticky (flags_ (twoChars source a b)) = false
  /\ fullUnicode (flags_ (twoChars source a b)) = false.
Proof. split; reflexivity. Qed.

(** A literal of two characters that the string does not include finds
    nothing. *)
Lemma twoChars_no_match (source : jsstring) (a b : N) (str : jsstring)
    (replaceValue : ReplaceValue) :
  JS.includes str [a; b] = false ->
  StringReplace str (twoChars source a b) replaceValue = str.
Proof.
  intros Hinc. apply StringReplace_no_match. apply exec_fails. intros i.
  destruct (RegExpMatcher _ _ i) as [st|] eqn:Hrun; [|reflexivity].
  apply twoChars_Some in Hrun as (Ha & Hb & _).
  exfalso. eapply includes_two_false; eassumption.
Qed.

(** Replacing the occurrences of two characters by one: never longer,
    shorter when there is an occurrence. *)
Lemma twoChars_to_one (source : jsstring) (a b x : N) (str : jsstring) :
  let result := StringReplace str (twoChars source a b) (ReplaceTemplate [x]) in
  length result <= length str
  /\ (JS.includes str [a; b] = true -> length result < length str).
Proof.
  intros result.
  destruct (StringReplace_shrinks (twoChars source a b) str
              (literal_bounded _ _ _ _) (ReplaceTemplate [x])) as [Hle Hlt].
  - intros m Hm. unfold replacementOf. rewrite GetSubstitution_one.
    destruct (ExecMatch_matched _ _ m Hm) as [Hmatched Hend].
    destruct Hm as (found & r & Hfound & Hrun & Hm & He).
    change (fullUnicode (flags_ (twoChars source a b))) with false in *.
    unfold toInput, toUnit, inputOf in *.
    apply twoChars_Some in Hrun as (_ & _ & Hr).
    assert (Hlen : matched m = substr str found (found + 2)).
    { rewrite Hm. unfold execResult, matched.
      change (fullUnicode (flags_ (twoChars source a b))) with false.
      cbn [array lookup list_lookup default]. rewrite Hr. reflexivity. }
    rewrite Hr in He.
    rewrite Hlen, substr_length by lia. simpl. lia.
  - split; [exact Hle|]. intros Hinc. apply Hlt.
    apply includes_two in Hinc as (i & Ha & Hb).
    apply replaceCollect_nonempty.
    destruct (twoChars_at source a b str i Ha Hb) as (st & Hst).
    destruct (twoChars_flags source a b) as [Hs Hu].
    eapply exec_finds; [exact Hs | exact Hu | | exact Hst].
    apply lookup_lt_Some in Ha. lia.
Qed.

(** ** The flavor rewriting *)

(** The PCRE rewriting changes every pattern that holds [\A], [\Z] or
    [\z]: each replacement puts one character for two. *)
Lemma convertPCREToJS_changes (pattern : jsstring) :
  JS.includes pattern (js "\A") || JS.includes pattern (js "\Z")
  || JS.includes pattern (js "\z") = true ->
  length (convertPCREToJS pattern) < length pattern.
Proof.
  intros Hinc. unfold convertPCREToJS.
  set (p1 := StringReplace pattern (re_backslash (ch "A")) (ReplaceTemplate (js "^"))).
  set (p2 := StringReplace p1 (re_backslash (ch "Z")) (ReplaceTemplate (js "$"))).
  destruct (twoChars_to_one [ch "\"; ch "\"; ch "A"] (ch "\") (ch "A") (ch "^") pattern)
    as [Hle1 Hlt1].
  destruct (twoChars_to_one [ch "\"; ch "\"; ch "Z"] (ch "\") (ch "Z") (ch "$") p1)
    as [Hle2 Hlt2].
  destruct (twoChars_to_one [ch "\"; ch "\"; ch "z"] (ch "\") (ch "z") (ch "$") p2)
    as [Hle3 Hlt3].
  change (StringReplace pattern _ _) with p1 in Hle1, Hlt1.
  change (StringReplace p1 _ _) with p2 in Hle2, Hlt2.
  change (StringReplace p2 (twoChars _ _ _) _)
    with (StringReplace p2 (re_backslash (ch "z")) (ReplaceTemplate (js "$"))) in Hle3, Hlt3.
  destruct (JS.includes pattern (js "\A")) eqn:HA.
  { specialize (Hlt1 HA). lia. }
  assert (Hp1 : p1 = pattern).
  { apply (twoChars_no_match [ch "\"; ch "\"; ch "A"] (ch "\") (ch "A")). exact HA. }
  destruct (JS.includes pattern (js "\Z")) eqn:HZ.
  { rewrite <- Hp1 in HZ. specialize (Hlt2 HZ). lia. }
  assert (Hp2 : p2 = p1).
  { apply (twoChars_no_match [ch "\"; ch "\"; ch "Z"] (ch "\") (ch "Z")).
    rewrite Hp1. exact HZ. }
  cbn [orb] in Hinc. rewrite <- Hp1, <- Hp2 in Hinc. specialize (Hlt3 Hinc).
  assert (length p2 = length pattern) by (rewrite Hp2, Hp1; reflexivity).
  lia.
Qed.

(** ** The processing of the replacement template *)

(** [/\$(\d+)/] matches a dollar sign and captures the rest of the match. *)
Lemma numbered_matcher (inputChars : list N) (i : nat) (r : MatchState) :
  RegExpMatcher re_numbered inputChars i = Some r ->
  inputChars !! i = Some (ch "$")
  /\ i + 1 <= endIndex r <= length inputChars
  /\ captures r = [Some (i + 1, endIndex r)].
Proof.
  intros Hrun. unfold re_numbered, Mini.literal in Hrun. cbn [RegExpMatcher] in Hrun.
  unfold Mini.matcherOf in Hrun.
  apply char_then in Hrun as [Hdollar Hrun]. cbn [endIndex captures] in Hdollar, Hrun.
  cbn [Mini.matchRegex] in Hrun.
  pose proof (lookup_lt_Some _ _ _ Hdollar) as Hi.
  apply MiniFacts.matchRegex_sound in Hrun as (z & Hz & Hb & Hlen); [|cbn; lia].
  cbn [endIndex captures length] in Hz, Hb, Hlen. injection Hz as <-.
  cbn [endIndex captures]. split; [exact Hdollar|]. split; [exact Hb|].
  destruct (captures z) as [|w [|? ?]]; try discriminate. reflexivity.
Qed.

Lemma substr_cons (str : jsstring) (a b : nat) (c : N) :
  str !! a = Some c -> a < b -> substr str a b = c :: substr str (S a) b.
Proof.
  intros Hc Hab. unfold substr. rewrite (drop_S _ _ _ Hc).
  replace (b - a) with (S (b - S a)) by lia. reflexivity.
Qed.

(** The callback of the first [replace] gives every [$N] back. *)
Lemma numbered_identity (template : jsstring) :
  StringReplace template re_numbered
    (ReplaceFunction (fun _ caps _ _ => js "$" ++ ToString (default None (caps !! 0))))
  = template.
Proof.
  apply StringReplace_identity; [apply literal_bounded|].
  intros m (found & r & Hfound & Hrun & Hm & He).
  change (fullUnicode (flags_ re_numbered)) with false in *.
  unfold toInput, toUnit, inputOf in *.
  apply numbered_matcher in Hrun as (Hdollar & Hb & Hcaps).
  rewrite Hm. unfold replacementOf, matched, execResult.
  change (fullUnicode (flags_ re_numbered)) with false.
  rewrite Hcaps. cbn [array map drop lookup list_lookup default ToString].
  rewrite (substr_cons _ _ _ _ Hdollar) by lia. rewrite Nat.add_1_r. reflexivity.
Qed.

Lemma bracketed_matcher (inputChars : list N) (i : nat) (r : MatchState) :
  RegExpMatcher re_bracketed inputChars i = Some r ->
  inputChars !! i = Some (ch "$") /\ inputChars !! S i = Some (ch "{").
Proof.
  intros Hrun. unfold re_bracketed, Mini.literal in Hrun. cbn [RegExpMatcher] in Hrun.
  unfold Mini.matcherOf in Hrun.
  apply char_then in Hrun as [Hdollar Hrun]. apply char_then in Hrun as [Hbrace _].
  cbn [endIndex] in Hdollar, Hbrace. rewrite Nat.add_1_r in Hbrace. auto.
Qed.

Lemma bracketed_no_match (template : jsstring) (replaceValue : ReplaceValue) :
  JS.includes template (js "${") = false ->
  StringReplace template re_bracketed replaceValue = template.
Proof.
  intros Hinc. apply StringReplace_no_match. apply exec_fails. intros i.
  destruct (RegExpMatcher _ _ i) as [st|] eqn:Hrun; [|reflexivity].
  apply bracketed_matcher in Hrun as (Ha & Hb).
  exfalso. exact (includes_two_false template _ _ i Hinc Ha Hb).
Qed.

(** [$&] as a replacement puts every [$&] back. *)
Lemma whole_match_identity (template : jsstring) :
  StringReplace template (re_dollar (ch "&")) (ReplaceTemplate (js "$&")) = template.
Proof.
  apply StringReplace_identity; [apply literal_bounded|].
  intros m _. unfold replacementOf. apply GetSubstitution_whole.
Qed.

(** C3 as stated fails: the processed template is not always the original
    one. The bracketed [${1}] comes out as [$1]. What the processing does
    with every template is settled in [BracketFacts]. *)
Lemma processReplacement_counterexample :
  ~ (forall replacement, processReplacement replacement = replacement).
Proof.
  intros Hclaim. specialize (Hclaim (js "${1}")). vm_compute in Hclaim. discriminate.
Qed.

Section Engine.
Context `{HostRegExp}.

(** What [substitute] does with the outcome of the constructor. *)
Lemma substitute_unfold (pattern flags testString replacement : jsstring) :
  substitute pattern flags testString replacement
  = match RegExpCreate pattern flags with
    | Normal regex =>
        Normal (StringReplace testString regex
                  (ReplaceTemplate (processReplacement replacement)))
    | Throw _ => Normal testString
    | OutOfFuel => OutOfFuel
    end.
Proof. unfold substitute. destruct (RegExpCreate pattern flags); reflexivity. Qed.

(** C5: when the constructor rejects the pattern or the flags, [substitute]
    returns the subject text as it is; and it throws in no case. *)
Theorem substitute_fails_soft (pattern flags testString replacement : jsstring) :
  (forall message,
      RegExpCreate pattern flags = Throw message ->
      substitute pattern flags testString replacement = Normal testString)
  /\ (forall message, substitute pattern flags testString replacement <> Throw message).
Proof.
  rewrite substitute_unfold. split.
  - intros message ->. reflexivity.
  - intros message. destruct (RegExpCreate pattern flags); discriminate.
Qed.

(** C8: with a pattern that compiles and flags without [g],
    [substitute(pattern, flags, subject, "$&")] returns the subject: nothing
    is replaced when nothing matches, and the first match is replaced by
    itself otherwise. *)
Theorem substitute_whole_match_roundtrip (pattern flags subject : jsstring)
    (regex : RegExpObject) :
  RegExpCreate pattern flags = Normal regex ->
  JS.includes flags (js "g") = false ->
  substitute pattern flags subject (js "$&") = Normal subject.
Proof.
  intros Hcreate _. rewrite substitute_unfold, Hcreate. f_equal.
  apply MatchFacts.RegExpCreate_inv in Hcreate as (_ & _ & Hbounded & _).
  replace (processReplacement (js "$&")) with (js "$&") by (vm_compute; reflexivity).
  apply StringReplace_identity; [exact Hbounded|].
  intros m _. unfold replacementOf. apply GetSubstitution_whole.
Qed.

(** C10: [substitute] hands the raw pattern text to the constructor,
    whatever the flavor selected for matching: its result is settled by the
    constructor's answer for that text, and the regular expression it uses
    has the text as its source. [createRegex] hands over the rewritten text;
    under the [pcre] flavor that text differs from the raw one for every
    pattern that holds [\A], [\Z] or [\z], and so do the sources of the two
    regular expressions when both texts compile. *)
Theorem substitute_compiles_raw_pattern (pattern flags : jsstring) :
  (forall testString replacement,
      substitute pattern flags testString replacement
      = match RegExpCreate pattern flags with
        | Normal regex =>
            Normal (StringReplace testString regex
                      (ReplaceTemplate (processReplacement replacement)))
        | Throw _ => Normal testString
        | OutOfFuel => OutOfFuel
        end)
  /\ (forall regex, RegExpCreate pattern flags = Normal regex ->
                    OriginalSource regex = pattern)
  /\ (forall flavor regex, createRegex pattern flags flavor = Normal regex ->
                           OriginalSource regex = adjustedPattern pattern flavor)
  /\ (JS.includes pattern (js "\A") || JS.includes pattern (js "\Z")
      || JS.includes pattern (js "\z") = true ->
      adjustedPattern pattern (js "pcre") <> pattern
      /\ forall matchRegex substituteRegex,
           createRegex pattern flags (js "pcre") = Normal matchRegex ->
           RegExpCreate pattern flags = Normal substituteRegex ->
           OriginalSource matchRegex <> OriginalSource substituteRegex).
Proof.
  split; [intros; apply substitute_unfold|].
  split; [intros regex Hc; apply MatchFacts.RegExpCreate_inv in Hc; tauto|].
  split.
  { intros flavor regex Hc.
    apply MatchFacts.createRegex_inv, MatchFacts.RegExpCreate_inv in Hc. tauto. }
  intros Hinc.
  assert (Hne : adjustedPattern pattern (js "pcre") <> pattern).
  { change (adjustedPattern pattern (js "pcre")) with (convertPCREToJS pattern).
    intros Heq. pose proof (convertPCREToJS_changes pattern Hinc) as Hlt.
    rewrite Heq in Hlt. lia. }
  split; [exact Hne|].
  intros matchRegex substituteRegex Hm Hs.
  apply MatchFacts.createRegex_inv, MatchFacts.RegExpCreate_inv in Hm as (-> & _).
  apply MatchFacts.RegExpCreate_inv in Hs as (-> & _). exact Hne.
Qed.

End Engine.
End SubstituteFacts.

(* ===================================================================== *)
(** * The engine on concrete inputs, run by the fragment compiler *)
(* ===================================================================== *)

Module Examples.
Import Host Ctor HostFacts RegexEngine MatchFacts SubstituteFacts.

(** U+1F4A9, one character of two code units. *)
Definition pileOfPoo : jsstring := [55357; 56489]%N.

(** [/x*/gu] as the constructor builds it. *)
Definition xStarUnicode : RegExpObject :=
  Mini.literal (js "x*") (js "gu") (Mini.Repeat (Mini.Char (ch "x")) 0 None true) [].

(** The match of [(a)|(b)] in ["b"]: group 1 took no part. *)
Definition secondAlternative : Match :=
  addGroups {| array := [Some (js "b"); None; Some (js "b")]; index := 0;
               input := js "b"; groups := None |}.

Lemma alternatives_run :
  execute 1 (js "(a)|(b)") [] (js "b") None
  = Normal {| matches := [secondAlternative]; pattern := js "(a)|(b)"; flags := [];
              testString := js "b"; flavor := js "javascript" |}.
Proof. vm_compute. reflexivity. Qed.

(** C1 as stated fails: the group that took no part is not left out of the
    mapping. Index 1 is a key of [groups], with the value [undefined]. *)
Lemma execute_groups_counterexample :
  ~ (forall result m,
        execute 1 (js "(a)|(b)") [] (js "b") None = Normal result ->
        m ∈ matches result ->
        2 < length (array m) ->
        exists g : JSObject,
          groups m = Some g
          /\ (forall i : nat, array m !! i = Some None ->
                              g !! (inl i : PropertyKey) = None)).
Proof.
  intros Hclaim.
  destruct (Hclaim _ secondAlternative alternatives_run) as (g & Hg & Homit).
  - cbn [matches]. apply list_elem_of_singleton. reflexivity.
  - vm_compute. lia.
  - specialize (Homit 1 eq_refl). injection Hg as <-.
    vm_compute in Homit. discriminate.
Qed.

Lemma execute_groups_attached_witness :
  exists g : JSObject,
    groups secondAlternative = Some g
    /\ g !! (inl 1 : PropertyKey) = Some None
    /\ g !! (inl 2 : PropertyKey) = Some (Some (js "b")).
Proof.
  destruct (execute_groups_attached 1 (js "(a)|(b)") [] (js "b") None _ secondAlternative
              alternatives_run)
    as (g & Hg & Hvalues & _).
  - cbn [matches]. apply list_elem_of_singleton. reflexivity.
  - vm_compute. lia.
  - exists g. split; [exact Hg|]. split.
    + rewrite (Hvalues 1); [reflexivity | vm_compute; lia].
    + rewrite (Hvalues 2); [reflexivity | vm_compute; lia].
Defined.

Lemma aStar_run :
  exists result,
    execute 4 (js "a*") (js "g") (js "bbb") None = Normal result
    /\ index <$> matches result = [0; 1; 2; 3]
    /\ matched <$> matches result = [[]; []; []; []].
Proof. eexists. split; [vm_compute; reflexivity|]. split; reflexivity. Qed.

Lemma xStar_run :
  exists result,
    execute 3 (js "x*") (js "g") (js "ab") None = Normal result
    /\ index <$> matches result = [0; 1; 2].
Proof. eexists. split; [vm_compute; reflexivity|]. reflexivity. Qed.

(** C4, as the code has it: [a*] with the global flag on ["bbb"] returns
    four matches, the empty match before each [b] and the one at the end of
    the text; [x*] with [g] on ["ab"] returns three. Four turns of the loop,
    and three, are enough. *)
Theorem execute_zero_width_matches (n : nat) :
  (exists result,
      execute (n + 4) (js "a*") (js "g") (js "bbb") None = Normal result
      /\ index <$> matches result = [0; 1; 2; 3]
      /\ matched <$> matches result = [[]; []; []; []])
  /\ (exists result,
         execute (n + 3) (js "x*") (js "g") (js "ab") None = Normal result
         /\ index <$> matches result = [0; 1; 2]).
Proof.
  split.
  - destruct aStar_run as (result & Hrun & Hrest). exists result.
    split; [apply execute_more_fuel; exact Hrun | exact Hrest].
  - destruct xStar_run as (result & Hrun & Hrest). exists result.
    split; [apply execute_more_fuel; exact Hrun | exact Hrest].
Qed.

(** C4 as stated fails: no budget makes [a*] on ["bbb"] return exactly three
    matches. *)
Lemma execute_zero_width_counterexample :
  ~ (exists fuel result,
        execute fuel (js "a*") (js "g") (js "bbb") None = Normal result
        /\ length (matches result) = 3).
Proof.
  intros (fuel & result & Hrun & Hlen).
  destruct aStar_run as (four & Hfour & Hindex & _).
  apply (execute_more_fuel 4) in Hrun. apply (execute_more_fuel fuel) in Hfour.
  rewrite (Nat.add_comm 4 fuel), Hfour in Hrun. injection Hrun as <-.
  apply (f_equal length) in Hindex. rewrite length_fmap in Hindex.
  simpl in Hindex. lia.
Qed.

(** The literals of the source are the objects the constructor builds from
    their texts. *)
Lemma literals_as_constructed :
  RegExpCreate (js "\\A") (js "g") = Normal (re_backslash (ch "A"))
  /\ RegExpCreate (js "\\Z") (js "g") = Normal (re_backslash (ch "Z"))
  /\ RegExpCreate (js "\\z") (js "g") = Normal (re_backslash (ch "z"))
  /\ RegExpCreate (js "\$(\d+)") (js "g") = Normal re_numbered
  /\ RegExpCreate (js "\$\{(\d+)\}") (js "g") = Normal re_bracketed
  /\ RegExpCreate (js "\$&") (js "g") = Normal (re_dollar (ch "&"))
  /\ RegExpCreate (js "\$`") (js "g") = Normal (re_dollar (ch "`"))
  /\ RegExpCreate (js "\$'") (js "g") = Normal (re_dollar (ch "'")).
Proof. repeat split; vm_compute; reflexivity. Qed.

(** ** The global loop under the [u] flag *)

Lemma xStarUnicode_created :
  createRegex (js "x*") (js "gu") (js "javascript") = Normal xStarUnicode
  /\ RegExpCreate (sourceGetter xStarUnicode) (flagsGetter xStarUnicode)
     = Normal xStarUnicode.
Proof. split; vm_compute; reflexivity. Qed.

(** At index 1, inside the surrogate pair, [exec] finds the empty match at
    the start of the pair and sets [lastIndex] to 0; the loop sets it to 1
    again. *)
Lemma xStarUnicode_stuck (fuel : nat) (ms : list Match) :
  globalLoop fuel xStarUnicode pileOfPoo 1 ms = OutOfFuel.
Proof.
  revert fuel ms. eapply globalLoop_stuck; vm_compute; reflexivity.
Qed.

(** C6 fails on the code: with pattern [x*], flags [gu] and a subject that
    is one character of two code units, the loop of [findMatches] does not
    end. Whatever the budget, [execute] is still running when it is used
    up. *)
Theorem execute_global_unicode_diverges (fuel : nat) :
  execute fuel (js "x*") (js "gu") pileOfPoo None = OutOfFuel.
Proof.
  destruct xStarUnicode_created as [Hcreate Hglobal].
  unfold execute. cbn [default]. rewrite Hcreate. cbn [bindC].
  change (JS.includes (js "gu") (js "g")) with true.
  unfold findMatches. rewrite Hglobal. cbn [bindC].
  destruct fuel as [|fuel]; [vm_compute; reflexivity|].
  cbn [globalLoop].
  destruct (RegExpBuiltinExec xStarUnicode pileOfPoo 0) as [[m|] lastIndex1] eqn:Hexec;
    [|vm_compute in Hexec; discriminate].
  assert (Hnext : (if (index m =? lastIndex1)%nat then lastIndex1 + 1 else lastIndex1) = 1).
  { vm_compute in Hexec. injection Hexec as <- <-. reflexivity. }
  rewrite Hnext, xStarUnicode_stuck. reflexivity.
Qed.

(** ** Instances of the general theorems *)

Lemma execute_global_ascending_witness :
  exists result,
    execute 4 (js "a*") (js "g") (js "bbb") None = Normal result
    /\ ascending (matches result).
Proof.
  eexists. split; [vm_compute; reflexivity|].
  eapply (execute_global_ascending 4 (js "a*") (js "g") (js "bbb") None);
    [reflexivity | vm_compute; reflexivity].
Defined.

Lemma substitute_fails_soft_witness :
  substitute (js "(") [] (js "keep me") (js "x") = Normal (js "keep me").
Proof.
  eapply (proj1 (substitute_fails_soft (js "(") [] (js "keep me") (js "x"))).
  vm_compute. reflexivity.
Defined.

Lemma substitute_whole_match_roundtrip_witness :
  substitute (js "b+") (js "m") (js "abbc") (js "$&") = Normal (js "abbc").
Proof.
  eapply (substitute_whole_match_roundtrip (js "b+") (js "m") (js "abbc"));
    [vm_compute; reflexivity | reflexivity].
Defined.

Lemma substitute_compiles_raw_pattern_witness :
  adjustedPattern (js "\Afoo\z") (js "pcre") <> js "\Afoo\z".
Proof.
  apply (proj1 (proj2 (proj2 (proj2
           (substitute_compiles_raw_pattern (js "\Afoo\z") []))) eq_refl)).
Defined.

Lemma execute_global_terminates_plain_witness :
  exists result, execute 3 (js "(o)|x*") (js "gm") (js "ox") None = Normal result.
Proof.
  eapply (execute_global_terminates_plain 3 (js "(o)|x*") (js "gm") (js "ox") None);
    [reflexivity | reflexivity | reflexivity | vm_compute; reflexivity | vm_compute; lia].
Defined.

End Examples.

(* ===================================================================== *)
(** * More of the match engine: what every returned match satisfies *)
(* ===================================================================== *)

Module MatchMore.
Import Host Ctor HostFacts RegexEngine MatchFacts ReplaceFacts.

(** A match as [findMatches] hands it out: the array, [index] and [input] of
    a match that [exec] built on the subject. *)
Definition MatchOf (R : RegExpObject) (str : jsstring) (m : Match) : Prop :=
  exists m0, ExecMatch R str m0 /\ m = addGroups m0.

Lemma input_addGroups (m : Match) : input (addGroups m) = input m.
Proof. unfold addGroups. destruct (1 <? length (array m))%nat; reflexivity. Qed.

Lemma matched_addGroups (m : Match) : matched (addGroups m) = matched m.
Proof. unfold matched. rewrite array_addGroups. reflexivity. Qed.

Lemma matchEnd_addGroups (m : Match) : matchEnd (addGroups m) = matchEnd m.
Proof. unfold matchEnd. rewrite index_addGroups, matched_addGroups. reflexivity. Qed.

Lemma ExecMatch_input (R : RegExpObject) (str : jsstring) (m : Match) :
  ExecMatch R str m -> input m = str.
Proof. intros (found & r & _ & _ & -> & _). reflexivity. Qed.

(** The text of a match is the part of the subject it covers. *)
Lemma MatchOf_within (R : RegExpObject) (str : jsstring) (m : Match) :
  MatchOf R str m ->
  input m = str
  /\ index m + length (matched m) <= length str
  /\ matched m = substr str (index m) (index m + length (matched m)).
Proof.
  intros (m0 & Hm0 & ->).
  rewrite input_addGroups, index_addGroups, matched_addGroups.
  destruct (ExecMatch_matched R str m0 Hm0) as [Hmatched Hend].
  split; [exact (ExecMatch_input R str m0 Hm0)|]. split; [exact Hend | exact Hmatched].
Qed.

Lemma globalLoop_MatchOf (R : RegExpObject) (str : jsstring) :
  BoundedMatcher (RegExpMatcher R) ->
  forall fuel lastIndex matches result,
    Forall (MatchOf R str) matches ->
    globalLoop fuel R str lastIndex matches = Normal result ->
    Forall (MatchOf R str) result.
Proof.
  intros Hbounded. induction fuel as [|fuel IH]; intros lastIndex matches result Hall Hrun;
    cbn [globalLoop] in Hrun;
    destruct (RegExpBuiltinExec R str lastIndex) as [[m|] lastIndex1] eqn:Hexec;
    try discriminate; try (injection Hrun as <-; exact Hall).
  eapply IH; [|exact Hrun]. apply Forall_app. split; [exact Hall|].
  apply Forall_singleton. exists m. split; [|reflexivity].
  eapply exec_ExecMatch; eassumption.
Qed.

Section Engine.
Context `{HostRegExp}.

(** [exec] reads a regular expression through its flags, its matcher and
    its group names only. *)
Lemma exec_alike (R R' : RegExpObject) (str : jsstring) (lastIndex : nat) :
  flags_ R = flags_ R' ->
  RegExpMatcher R = RegExpMatcher R' ->
  GroupNames R = GroupNames R' ->
  RegExpBuiltinExec R str lastIndex = RegExpBuiltinExec R' str lastIndex.
Proof.
  intros Hflags Hmatcher Hnames.
  assert (Hsearch : forall n inputChars L,
            execSearch n R str inputChars L = execSearch n R' str inputChars L).
  { induction n as [|n IH]; intros inputChars L; cbn [execSearch]; [reflexivity|].
    rewrite Hflags, Hmatcher. destruct (length str <? L)%nat; [reflexivity|].
    destruct (RegExpMatcher R' inputChars _); [reflexivity|].
    destruct (sticky (flags_ R')); [reflexivity | apply IH]. }
  unfold RegExpBuiltinExec, execResult. rewrite Hflags, Hsearch, Hnames. reflexivity.
Qed.

Lemma ExecMatch_alike (R R' : RegExpObject) (str : jsstring) (m : Match) :
  flags_ R = flags_ R' ->
  RegExpMatcher R = RegExpMatcher R' ->
  GroupNames R = GroupNames R' ->
  ExecMatch R str m -> ExecMatch R' str m.
Proof.
  intros Hflags Hmatcher Hnames (found & r & Hfound & Hmatch & Hm & He).
  exists found, r. unfold execResult in *. rewrite <- Hflags, <- Hmatcher, <- Hnames.
  auto.
Qed.

(** What [createRegex] returned, and the copy [findMatches] makes of it. *)
Lemma globalRegex_ExecMatch (P F : jsstring) (regex g : RegExpObject) (str : jsstring)
    (m : Match) :
  RegExpCreate P F = Normal regex ->
  RegExpCreate (sourceGetter regex) (flagsGetter regex) = Normal g ->
  ExecMatch g str m -> ExecMatch regex str m.
Proof.
  intros Hcreate Hg.
  pose proof Hcreate as Hinv.
  apply RegExpCreate_inv in Hinv as (Hsource & HF & _ & c & Hc & Hmc & Hnc).
  pose proof Hg as Hginv.
  apply RegExpCreate_inv in Hginv as (_ & HgF & _ & c' & Hc' & Hmc' & Hnc').
  assert (Hsame : c' = c).
  { unfold sourceGetter in Hc'. rewrite escape_compiles_alike in Hc'.
    rewrite flagsOf_flagsGetter in Hc'. unfold flags_ in Hc'.
    rewrite Hsource, HF, Hc in Hc'. congruence. }
  subst c'.
  apply ExecMatch_alike; [|congruence|congruence].
  unfold flags_ at 1. rewrite HgF. apply flagsOf_flagsGetter.
Qed.

(** The matches [execute] returns are matches of the regular expression
    that [createRegex] built, on the test string. *)
Lemma execute_matches_MatchOf (fuel : nat) (pattern flags testString : jsstring)
    (flavor : option jsstring) (result : ExecuteResult) :
  execute fuel pattern flags testString flavor = Normal result ->
  exists regex,
    createRegex pattern flags (default (js "javascript") flavor) = Normal regex
    /\ BoundedMatcher (RegExpMatcher regex)
    /\ Forall (MatchOf regex testString) (matches result).
Proof.
  intros Hrun. apply execute_inv in Hrun as (regex & Hregex & Hfind).
  exists regex. split; [exact Hregex|].
  apply createRegex_inv in Hregex. pose proof Hregex as Hinv.
  apply RegExpCreate_inv in Hinv as (_ & _ & Hbounded & _).
  split; [exact Hbounded|].
  destruct (JS.includes flags (js "g")).
  - apply findMatches_global_inv in Hfind as (g & Hg & Hloop).
    pose proof Hg as Hb. apply RegExpCreate_inv in Hb as (_ & _ & Hb & _).
    apply (globalLoop_MatchOf g testString Hb) in Hloop; [|constructor].
    eapply Forall_impl; [exact Hloop|]. intros m (m0 & Hm0 & ->).
    exists m0. split; [|reflexivity]. eapply globalRegex_ExecMatch; eassumption.
  - unfold findMatches in Hfind.
    destruct (RegExpBuiltinExec regex testString 0) as [[m0|] L1] eqn:Hexec;
      injection Hfind as <-; repeat constructor.
    exists m0. split; [|reflexivity]. eapply exec_ExecMatch; eassumption.
Qed.

(** Every match that [execute] returns lies within the test string: its
    [input] is the test string, it ends at or before the end of the string,
    and its text is the part of the string from [index] on. *)
Theorem execute_matches_within (fuel : nat) (pattern flags testString : jsstring)
    (flavor : option jsstring) (result : ExecuteResult) :
  execute fuel pattern flags testString flavor = Normal result ->
  Forall (fun m =>
            input m = testString
            /\ index m + length (matched m) <= length testString
            /\ matched m
               = substr testString (index m) (index m + length (matched m)))
         (matches result).
Proof.
  intros Hrun. apply execute_matches_MatchOf in Hrun as (regex & _ & _ & Hall).
  eapply Forall_impl; [exact Hall|]. intros m. apply MatchOf_within.
Qed.

(** Without the [g] flag [execute] does not loop: it needs no fuel, and it
    returns one match at most. *)
Theorem execute_single (fuel : nat) (pattern flags testString : jsstring)
    (flavor : option jsstring) :
  JS.includes flags (js "g") = false ->
  execute fuel pattern flags testString flavor = execute 0 pattern flags testString flavor
  /\ execute fuel pattern flags testString flavor <> OutOfFuel
  /\ forall result,
       execute fuel pattern flags testString flavor = Normal result ->
       length (matches result) <= 1.
Proof.
  intros Hg. unfold execute, tryCatch. rewrite Hg.
  destruct (createRegex pattern flags _) as [regex|message|] eqn:Hregex; cbn [bindC].
  - unfold findMatches.
    destruct (RegExpBuiltinExec regex testString 0) as [[m|] L1]; cbn [bindC];
      (split; [reflexivity|]; split; [discriminate|]);
      intros result [= <-]; cbn; lia.
  - split; [reflexivity|]. split; [discriminate|]. discriminate.
  - exfalso. unfold createRegex, tryCatch in Hregex.
    destruct (RegExpCreate _ flags) eqn:Hc; try discriminate.
    exact (RegExpCreate_terminates _ _ Hc).
Qed.

(** [execute] throws exactly when the constructor rejects the adjusted
    pattern or the flags; nothing after the construction throws. The message
    is the constructor's behind both prefixes: that of [createRegex] and that
    of [execute]. *)
Theorem execute_throws_iff (fuel : nat) (pattern flags testString : jsstring)
    (flavor : option jsstring) (message : jsstring) :
  execute fuel pattern flags testString flavor = Throw message
  <-> exists reason,
        RegExpCreate (adjustedPattern pattern (default (js "javascript") flavor)) flags
        = Throw reason
        /\ message = js "Regex Error: " ++ js "Invalid regular expression: " ++ reason.
Proof.
  unfold execute, createRegex, tryCatch.
  destruct (RegExpCreate (adjustedPattern pattern _) flags) as [regex|reason|] eqn:Hcreate;
    cbn [bindC].
  - split; [|intros (reason & [=] & _)].
    intros Hthrow. exfalso.
    destruct (globalRegex_created _ _ _ Hcreate) as (g & Hg & _).
    unfold findMatches in Hthrow. rewrite Hg in Hthrow. cbn [bindC] in Hthrow.
    destruct (JS.includes flags (js "g")).
    + destruct (globalLoop fuel g testString 0 []) as [ms| |] eqn:Hloop; cbn in Hthrow;
        try discriminate.
      revert Hloop. clear. generalize 0 (@nil Match).
      induction fuel as [|fuel IH]; intros lastIndex matches; cbn [globalLoop];
        destruct (RegExpBuiltinExec g testString lastIndex) as [[m|] ?]; try discriminate.
      apply IH.
    + destruct (RegExpBuiltinExec regex testString 0) as [[m|] ?]; discriminate.
  - split.
    + intros [= <-]. eauto.
    + intros (reason' & [= <-] & ->). reflexivity.
  - exfalso. exact (RegExpCreate_terminates _ _ Hcreate).
Qed.

End Engine.

(** ** Order and completeness of the global search *)

(** Matches that do not overlap: each ends at or before the start of every
    later one. *)
Definition disjoint (ms : list Match) : Prop :=
  StronglySorted (fun a b => matchEnd a <= index b) ms.

(** Every index at which the matcher succeeds is the start of a listed match
    or lies inside one. *)
Definition covered (ms : list Match) (j : nat) : Prop :=
  exists m, m ∈ ms /\ (index m = j \/ index m < j < matchEnd m).

Section Loop.
Variable R : RegExpObject.
Variable str : jsstring.
Hypothesis Hbounded : BoundedMatcher (RegExpMatcher R).
Hypothesis Huses : global (flags_ R) || sticky (flags_ R) = true.

Let U := fullUnicode (flags_ R).

(** Under [g] or [y] the [lastIndex] that [exec] leaves is the end of the
    match. *)
Lemma exec_matchEnd (lastIndex : nat) (m : Match) (lastIndex1 : nat) :
  RegExpBuiltinExec R str lastIndex = (Some m, lastIndex1) ->
  matchEnd m = lastIndex1 /\ index m <= lastIndex1.
Proof.
  intros Hexec.
  destruct (exec_Some R str lastIndex m lastIndex1 Hbounded Hexec)
    as (found & r & _ & _ & Hm & _ & _ & He & Hlast).
  rewrite Huses in Hlast. subst lastIndex1.
  assert (Hmatched : matched m
            = substr str (index m) (toUnit (fullUnicode (flags_ R)) str (endIndex r))).
  { rewrite Hm. reflexivity. }
  unfold matchEnd. rewrite Hmatched, substr_length by lia. lia.
Qed.

Lemma globalLoop_disjoint :
  forall fuel lastIndex matches result,
    (lastIndex <= length str -> boundary U str lastIndex) ->
    Forall (fun m => matchEnd m <= lastIndex) matches ->
    disjoint matches ->
    globalLoop fuel R str lastIndex matches = Normal result ->
    disjoint result.
Proof.
  induction fuel as [|fuel IH]; intros lastIndex matches result Hb Hlt Hdis Hrun;
    cbn [globalLoop] in Hrun;
    destruct (RegExpBuiltinExec R str lastIndex) as [[m|] lastIndex1] eqn:Hexec;
    try discriminate; try (injection Hrun as <-; exact Hdis).
  fold (nextIndex m lastIndex1) in Hrun.
  assert (Hin : lastIndex <= length str).
  { destruct (exec_Some R str lastIndex m lastIndex1 Hbounded Hexec)
      as (found & r & Hrange & _). unfold startOf in Hrange. rewrite Huses in Hrange. lia. }
  destruct (turn_from_boundary R str Hbounded Huses lastIndex m lastIndex1 (Hb Hin) Hexec)
    as [Hidx Hnext].
  destruct (exec_matchEnd lastIndex m lastIndex1 Hexec) as [Hend Hle].
  assert (Hge : lastIndex1 <= nextIndex m lastIndex1).
  { unfold nextIndex. destruct (index m =? lastIndex1)%nat; lia. }
  assert (Hlt' : Forall (fun m0 => matchEnd m0 <= nextIndex m lastIndex1)
                   (matches ++ [addGroups m])).
  { apply Forall_app. split.
    - eapply Forall_impl; [exact Hlt|]. simpl. intros; lia.
    - apply Forall_singleton. rewrite matchEnd_addGroups. lia. }
  assert (Hdis' : disjoint (matches ++ [addGroups m])).
  { apply StronglySorted_app_2; [|exact Hdis|repeat constructor].
    intros a b Ha Hb'. apply list_elem_of_singleton in Hb'. subst b.
    rewrite index_addGroups. rewrite Forall_forall in Hlt. specialize (Hlt a Ha). lia. }
  destruct Hnext as [Hnext|[Hnext|Hnext]].
  - exact (IH _ _ _ (fun _ => Hnext) Hlt' Hdis' Hrun).
  - apply (IH _ _ _) in Hrun; [exact Hrun | lia | exact Hlt' | exact Hdis'].
  - rewrite (globalLoop_stuck R str _ _ _ Hnext eq_refl) in Hrun. discriminate.
Qed.

End Loop.

Section Plain.
Variable R : RegExpObject.
Variable str : jsstring.
Hypothesis Hbounded : BoundedMatcher (RegExpMatcher R).
Hypothesis Hsticky : sticky (flags_ R) = false.
Hypothesis Hplain : fullUnicode (flags_ R) = false.

(** The search returns the first index, from where it starts, at which the
    matcher succeeds. *)
Lemma execSearch_leftmost :
  forall n lastIndex found inputIndex r,
    execSearch n R str str lastIndex = Some (found, inputIndex, r) ->
    forall j, lastIndex <= j < found -> RegExpMatcher R str j = None.
Proof.
  induction n as [|n IH]; intros lastIndex found inputIndex r Hrun j Hj; [discriminate|].
  cbn [execSearch] in Hrun. rewrite Hplain, Hsticky in Hrun.
  destruct (length str <? lastIndex)%nat; [discriminate|].
  destruct (RegExpMatcher R str lastIndex) as [r'|] eqn:Hm.
  - injection Hrun as <- <- <-. lia.
  - unfold AdvanceStringIndex in Hrun. cbn [negb] in Hrun.
    destruct (decide (j = lastIndex)) as [->|Hne]; [exact Hm|].
    eapply IH; [exact Hrun | lia].
Qed.

Lemma exec_leftmost (lastIndex : nat) (m : Match) (lastIndex1 : nat) :
  RegExpBuiltinExec R str lastIndex = (Some m, lastIndex1) ->
  startOf R lastIndex <= index m <= length str
  /\ RegExpMatcher R str (index m) <> None
  /\ forall j, startOf R lastIndex <= j < index m -> RegExpMatcher R str j = None.
Proof.
  unfold RegExpBuiltinExec. fold (startOf R lastIndex). rewrite Hplain.
  destruct (execSearch _ R str str (startOf R lastIndex))
    as [[[found inputIndex] r]|] eqn:Hsearch; [|discriminate].
  intros [= <- _]. unfold execResult. rewrite Hplain. cbn [index].
  pose proof (execSearch_spec R str str _ _ _ _ _ Hsearch) as (Hrange & Hidx & Hm & _).
  rewrite Hplain in Hidx. unfold toInput in Hidx. subst inputIndex.
  split; [lia|]. split; [congruence|]. eapply execSearch_leftmost. exact Hsearch.
Qed.

Lemma exec_exhausted (lastIndex lastIndex1 : nat) :
  RegExpBuiltinExec R str lastIndex = (None, lastIndex1) ->
  forall j, startOf R lastIndex <= j <= length str -> RegExpMatcher R str j = None.
Proof.
  unfold RegExpBuiltinExec. fold (startOf R lastIndex). rewrite Hplain.
  destruct (execSearch _ R str str (startOf R lastIndex))
    as [[[found inputIndex] r]|] eqn:Hsearch; [discriminate|].
  intros _ j Hj. destruct (RegExpMatcher R str j) as [r|] eqn:Hm; [|reflexivity].
  exfalso.
  destruct (execSearch_finds R str j r Hsticky Hplain (proj2 Hj) Hm (2 + length str)
              (startOf R lastIndex)) as (res & Hres); [lia | lia |].
  congruence.
Qed.

Lemma covered_app (ms more : list Match) (j : nat) :
  covered ms j \/ covered more j -> covered (ms ++ more) j.
Proof.
  intros [(m & Hm & Hj)|(m & Hm & Hj)]; exists m; (split; [|exact Hj]);
    apply elem_of_app; auto.
Qed.

Hypothesis Hglobal : global (flags_ R) = true.

Lemma globalLoop_complete :
  forall fuel lastIndex matches result,
    (forall j r, j < lastIndex -> j <= length str -> RegExpMatcher R str j = Some r ->
                 covered matches j) ->
    globalLoop fuel R str lastIndex matches = Normal result ->
    forall j r, j <= length str -> RegExpMatcher R str j = Some r -> covered result j.
Proof.
  assert (Huses : global (flags_ R) || sticky (flags_ R) = true)
    by (rewrite Hglobal; reflexivity).
  assert (Hstart : forall L, startOf R L = L)
    by (intros L; unfold startOf; rewrite Huses; reflexivity).
  induction fuel as [|fuel IH]; intros lastIndex matches result Hcov Hrun;
    cbn [globalLoop] in Hrun;
    destruct (RegExpBuiltinExec R str lastIndex) as [[m|] lastIndex1] eqn:Hexec;
    try discriminate;
    try (injection Hrun as <-; intros j r Hj Hm;
         destruct (decide (j < lastIndex)) as [Hlt|Hge]; [eapply Hcov; eassumption|];
         rewrite (exec_exhausted _ _ Hexec j) in Hm by (rewrite Hstart; lia);
         discriminate).
  fold (nextIndex m lastIndex1) in Hrun.
  destruct (exec_leftmost _ _ _ Hexec) as (Hle & _ & Hleft). rewrite Hstart in Hle, Hleft.
  destruct (exec_matchEnd R str Hbounded Huses _ _ _ Hexec) as [Hend Hle1].
  eapply IH; [|exact Hrun].
  intros j r Hj Hjlen Hm. apply covered_app.
  destruct (decide (j < lastIndex)) as [Hlt|Hge]; [left; eapply Hcov; eassumption|].
  right. exists (addGroups m). split; [apply list_elem_of_singleton; reflexivity|].
  rewrite index_addGroups, matchEnd_addGroups.
  destruct (decide (j < index m)) as [Hbefore|Hafter].
  { rewrite Hleft in Hm by lia. discriminate. }
  destruct (decide (index m = j)) as [|Hne]; [left; assumption|].
  right. unfold nextIndex in Hj.
  destruct (index m =? lastIndex1)%nat eqn:Hzero.
  - apply Nat.eqb_eq in Hzero. lia.
  - lia.
Qed.

End Plain.

Section Search.
Context `{HostRegExp}.

(** The copy that [findMatches] makes of a regular expression has its flags,
    its matcher and its group names. *)
Lemma globalRegex_same (P F : jsstring) (regex g : RegExpObject) :
  RegExpCreate P F = Normal regex ->
  RegExpCreate (sourceGetter regex) (flagsGetter regex) = Normal g ->
  flags_ g = flagsOf F /\ RegExpMatcher g = RegExpMatcher regex
  /\ GroupNames g = GroupNames regex /\ BoundedMatcher (RegExpMatcher g).
Proof.
  intros Hcreate Hg.
  pose proof Hcreate as Hinv.
  apply RegExpCreate_inv in Hinv as (Hsource & HF & _ & c & Hc & Hmc & Hnc).
  pose proof Hg as Hginv.
  apply RegExpCreate_inv in Hginv as (_ & HgF & Hb & c' & Hc' & Hmc' & Hnc').
  assert (Hsame : c' = c).
  { unfold sourceGetter in Hc'. rewrite escape_compiles_alike in Hc'.
    rewrite flagsOf_flagsGetter in Hc'. unfold flags_ in Hc'.
    rewrite Hsource, HF, Hc in Hc'. congruence. }
  subst c'. split; [|split; [congruence | split; [congruence | exact Hb]]].
  unfold flags_ at 1. rewrite HgF, flagsOf_flagsGetter. unfold flags_. rewrite HF.
  reflexivity.
Qed.

(** The matches [findMatches] returns do not overlap. *)
Lemma findMatches_disjoint (fuel : nat) (P F testString : jsstring)
    (regex : RegExpObject) (ms : list Match) :
  RegExpCreate P F = Normal regex ->
  findMatches fuel regex testString (JS.includes F (js "g")) = Normal ms ->
  disjoint ms.
Proof.
  intros Hregex Hfind. destruct (JS.includes F (js "g")) eqn:Hg.
  - apply findMatches_global_inv in Hfind as (g & Hcreate & Hloop).
    destruct (globalRegex_same _ _ _ _ Hregex Hcreate) as (Hflags & _ & _ & Hbounded).
    assert (Huses : global (flags_ g) || sticky (flags_ g) = true).
    { rewrite Hflags. cbn [flagsOf global]. rewrite Hg. reflexivity. }
    eapply (globalLoop_disjoint g testString Hbounded Huses); [| | |exact Hloop].
    + intros _. apply boundary_0.
    + constructor.
    + constructor.
  - unfold findMatches in Hfind.
    destruct (RegExpBuiltinExec regex testString 0) as [[m|] L1];
      injection Hfind as <-; repeat constructor.
Qed.

(** Under the global flag the matches [execute] returns do not overlap:
    each ends at or before the start of the next, and of every later one. *)
Theorem execute_global_disjoint (fuel : nat) (pattern flags testString : jsstring)
    (flavor : option jsstring) (result : ExecuteResult) :
  JS.includes flags (js "g") = true ->
  execute fuel pattern flags testString flavor = Normal result ->
  disjoint (matches result)
  /\ forall k a b, matches result !! k = Some a -> matches result !! S k = Some b ->
                   index a + length (matched a) <= index b.
Proof.
  intros Hg Hrun.
  apply execute_inv in Hrun as (regex & Hregex & Hfind).
  apply createRegex_inv in Hregex.
  pose proof (findMatches_disjoint _ _ _ _ _ _ Hregex Hfind) as Hdis.
  split; [exact Hdis|].
  intros k a b Ha Hb.
  rewrite <- (take_drop k (matches result)) in Hdis.
  apply StronglySorted_app in Hdis as (_ & _ & Hdis).
  rewrite (drop_S _ _ _ Ha) in Hdis.
  apply StronglySorted_cons in Hdis as [Hall _].
  rewrite Forall_forall in Hall. apply (Hall b).
  apply list_elem_of_lookup. exists 0. rewrite lookup_drop, Nat.add_0_r. exact Hb.
Qed.

(** The global search misses nothing: with [g], and without [y], [u] and
    [v], every index of the test string at which the pattern matches is the
    start of a returned match or lies inside one. *)
Theorem execute_global_complete (fuel : nat) (pattern flags testString : jsstring)
    (flavor : option jsstring) (regex : RegExpObject) (result : ExecuteResult)
    (j : nat) :
  JS.includes flags (js "g") = true ->
  JS.includes flags (js "y") = false ->
  JS.includes flags (js "u") = false ->
  JS.includes flags (js "v") = false ->
  createRegex pattern flags (default (js "javascript") flavor) = Normal regex ->
  execute fuel pattern flags testString flavor = Normal result ->
  j <= length testString ->
  RegExpMatcher regex testString j <> None ->
  covered (matches result) j.
Proof.
  intros Hg Hy Hu Hv Hregex Hrun Hj Hm.
  apply execute_inv in Hrun as (regex' & Hregex' & Hfind). rewrite Hg in Hfind.
  rewrite Hregex in Hregex'. injection Hregex' as <-.
  apply createRegex_inv in Hregex.
  apply findMatches_global_inv in Hfind as (g & Hcreate & Hloop).
  destruct (globalRegex_same _ _ _ _ Hregex Hcreate) as (Hflags & Hmatcher & _ & Hbounded).
  destruct (RegExpMatcher regex testString j) as [r|] eqn:Hr; [|contradiction].
  rewrite <- Hmatcher in Hr.
  eapply (globalLoop_complete g testString Hbounded); [| | | |exact Hloop|exact Hj|exact Hr].
  - rewrite Hflags. exact Hy.
  - unfold fullUnicode. rewrite Hflags. cbn [flagsOf unicode unicodeSets].
    rewrite Hu, Hv. reflexivity.
  - rewrite Hflags. exact Hg.
  - intros j0 r0 Hlt. lia.
Qed.

(** Without [g], [y], [u] and [v], the match [execute] returns is the
    leftmost: the pattern matches at its [index] and at no index before it;
    and when [execute] returns no match the pattern matches nowhere in the
    test string. *)
Theorem execute_first_leftmost (fuel : nat) (pattern flags testString : jsstring)
    (flavor : option jsstring) (regex : RegExpObject) (result : ExecuteResult) :
  JS.includes flags (js "g") = false ->
  JS.includes flags (js "y") = false ->
  JS.includes flags (js "u") = false ->
  JS.includes flags (js "v") = false ->
  createRegex pattern flags (default (js "javascript") flavor) = Normal regex ->
  execute fuel pattern flags testString flavor = Normal result ->
  match matches result with
  | [] => forall j, j <= length testString -> RegExpMatcher regex testString j = None
  | m :: rest =>
      rest = [] /\ RegExpMatcher regex testString (index m) <> None
      /\ forall j, j < index m -> RegExpMatcher regex testString j = None
  end.
Proof.
  intros Hg Hy Hu Hv Hregex Hrun.
  apply execute_inv in Hrun as (regex' & Hregex' & Hfind). rewrite Hg in Hfind.
  rewrite Hregex in Hregex'. injection Hregex' as <-.
  apply createRegex_inv, RegExpCreate_inv in Hregex as (_ & HF & Hbounded & _).
  assert (Hsticky : sticky (flags_ regex) = false).
  { unfold flags_. rewrite HF. exact Hy. }
  assert (Hplain : fullUnicode (flags_ regex) = false).
  { unfold fullUnicode, flags_. rewrite HF. cbn [flagsOf unicode unicodeSets].
    rewrite Hu, Hv. reflexivity. }
  assert (Hstart : startOf regex 0 = 0).
  { unfold startOf. destruct (_ || _); reflexivity. }
  unfold findMatches in Hfind.
  destruct (RegExpBuiltinExec regex testString 0) as [[m|] L1] eqn:Hexec;
    injection Hfind as <-.
  - destruct (exec_leftmost regex testString Hsticky Hplain _ _ _ Hexec)
      as (_ & Hat & Hleft).
    rewrite index_addGroups. split; [reflexivity|]. split; [exact Hat|].
    intros j Hj. apply Hleft. rewrite Hstart. lia.
  - intros j Hj. apply (exec_exhausted regex testString Hsticky Hplain _ _ Hexec).
    rewrite Hstart. lia.
Qed.

(** Under [g] with [u] or [v], a pattern that matches the empty string at
    the start of a test string that begins with a character of two code
    units keeps the loop of [findMatches] turning for ever: the cursor is
    moved into the surrogate pair, [exec] finds the same empty match at the
    start of the pair again, and the cursor is moved into the pair again.
    Whatever the budget, [execute] has not returned when it is used up. *)
Theorem execute_global_diverges_at_pair (fuel : nat) (pattern flags : jsstring)
    (lead trail : N) (rest : jsstring) (flavor : option jsstring) (regex : RegExpObject)
    (r : MatchState) :
  JS.includes flags (js "g") = true ->
  JS.includes flags (js "u") || JS.includes flags (js "v") = true ->
  isSurrogatePair lead trail = true ->
  createRegex pattern flags (default (js "javascript") flavor) = Normal regex ->
  RegExpMatcher regex (StringToCodePoints (lead :: trail :: rest)) 0 = Some r ->
  endIndex r = 0 ->
  execute fuel pattern flags (lead :: trail :: rest) flavor = OutOfFuel.
Proof.
  intros Hg Hu Hpair Hregex Hmatch Hempty.
  unfold execute. rewrite Hregex. cbn [bindC]. rewrite Hg.
  apply createRegex_inv in Hregex.
  destruct (globalRegex_created _ _ _ Hregex) as (g & Hcreate & _).
  destruct (globalRegex_same _ _ _ _ Hregex Hcreate) as (Hflags & Hmatcher & _ & Hbounded).
  unfold findMatches. rewrite Hcreate. cbn [bindC].
  set (str := lead :: trail :: rest) in *.
  assert (Huses : global (flags_ g) || sticky (flags_ g) = true).
  { rewrite Hflags. cbn [flagsOf global]. rewrite Hg. reflexivity. }
  assert (HU : fullUnicode (flags_ g) = true).
  { unfold fullUnicode. rewrite Hflags. exact Hu. }
  rewrite <- Hmatcher in Hmatch.
  assert (Hat : forall lastIndex, lastIndex <= 1 ->
            RegExpBuiltinExec g str lastIndex = (Some (execResult g str 0 r), 0)).
  { intros lastIndex Hle.
    assert (Hin : toInput (fullUnicode (flags_ g)) str lastIndex = 0).
    { rewrite HU. unfold toInput, str.
      destruct lastIndex as [|[|n]]; [apply CPI_0 | apply CPI_pair_mid; exact Hpair | lia]. }
    pose proof (exec_at g str lastIndex r Huses) as Hexec. cbv zeta in Hexec.
    rewrite Hin, HU in Hexec. unfold inputOf, toUnit in Hexec.
    rewrite Hempty, GSI_0 in Hexec. apply Hexec; [unfold str; simpl; lia | exact Hmatch]. }
  assert (Hindex : index (execResult g str 0 r) = 0).
  { unfold execResult. cbn [index]. rewrite HU. apply GSI_0. }
  assert (Hstuck : forall n ms, globalLoop n g str 1 ms = OutOfFuel).
  { apply (globalLoop_stuck g str 1 (execResult g str 0 r) 0 (Hat 1 (Nat.le_refl 1))).
    unfold nextIndex. rewrite Hindex. reflexivity. }
  destruct fuel as [|fuel]; cbn [globalLoop]; rewrite (Hat 0) by lia; [reflexivity|].
  rewrite Hindex. cbn [Nat.eqb Nat.add]. rewrite Hstuck. reflexivity.
Qed.

End Search.

End MatchMore.

(* ===================================================================== *)
(** * [substitute] against [execute]: the matches that are replaced *)
(* ===================================================================== *)

Module SubstituteMore.
Import Host Ctor HostFacts RegexEngine MatchFacts ReplaceFacts SubstituteFacts MatchMore.

(** The test string with every match of a list replaced by a fixed text:
    the text between the matches is kept, from [pos] on. *)
Fixpoint splice (str text : jsstring) (pos : nat) (ms : list Match) : jsstring :=
  match ms with
  | [] => drop pos str
  | m :: rest =>
      substr str pos (index m) ++ text ++ splice str text (matchEnd m) rest
  end.

Lemma splice_addGroups (str text : jsstring) (ms : list Match) :
  forall pos, splice str text pos (addGroups <$> ms) = splice str text pos ms.
Proof.
  induction ms as [|m ms IH]; intros pos; [reflexivity|].
  cbn [fmap list_fmap splice]. rewrite index_addGroups, matchEnd_addGroups.
  fold (fmap addGroups ms). rewrite IH. reflexivity.
Qed.

(** ** Templates without a dollar sign *)

Lemma substitutionLoop_literal (matched_ str : jsstring) (position : nat)
    (captures_ : list (option jsstring)) (namedCaptures : option JSObject) :
  forall template n,
    ch "$" ∉ template -> length template <= n ->
    substitutionLoop n matched_ str position captures_ namedCaptures template = template.
Proof.
  induction template as [|c rest IH]; intros n Hfree Hn; [destruct n; reflexivity|].
  destruct n as [|n]; [simpl in Hn; lia|]. cbn [substitutionLoop substitutionAt].
  apply not_elem_of_cons in Hfree as [Hc Hrest].
  replace (c =? ch "$")%N with false by (symmetry; apply N.eqb_neq; congruence).
  cbn [negb take drop app]. f_equal. apply IH; [exact Hrest | simpl in Hn; lia].
Qed.

Lemma GetSubstitution_literal (matched_ str : jsstring) (position : nat)
    (captures_ : list (option jsstring)) (namedCaptures : option JSObject)
    (template : jsstring) :
  ch "$" ∉ template ->
  GetSubstitution matched_ str position captures_ namedCaptures template = template.
Proof. intros Hfree. apply substitutionLoop_literal; [exact Hfree | lia]. Qed.

Lemma includes_dollar (template : jsstring) (c : N) :
  ch "$" ∉ template -> JS.includes template [ch "$"; c] = false.
Proof.
  intros Hfree. destruct (JS.includes template [ch "$"; c]) eqn:Hinc; [|reflexivity].
  apply includes_two in Hinc as (i & Ha & _).
  exfalso. apply Hfree. eapply list_elem_of_lookup_2. exact Ha.
Qed.

(** The processing of the replacement leaves a text without a dollar sign as
    it is. *)
Lemma processReplacement_literal (template : jsstring) :
  ch "$" ∉ template -> processReplacement template = template.
Proof.
  intros Hfree. unfold processReplacement.
  rewrite numbered_identity.
  rewrite (bracketed_no_match _ _ (includes_dollar template (ch "{") Hfree)).
  rewrite whole_match_identity.
  rewrite (twoChars_no_match _ _ _ _ _ (includes_dollar template (ch "`") Hfree)
           : StringReplace _ (re_dollar _) _ = _).
  apply (twoChars_no_match _ _ _ _ _ (includes_dollar template (ch "'") Hfree)).
Qed.

(** ** [replace] with a literal text *)

Lemma disjoint_addGroups (ms : list Match) :
  disjoint (addGroups <$> ms) -> disjoint ms.
Proof.
  induction ms as [|m ms IH]; intros Hdis; [constructor|].
  cbn [fmap list_fmap] in Hdis. apply StronglySorted_cons in Hdis as [Hall Hdis].
  constructor; [exact (IH Hdis)|].
  rewrite Forall_forall in Hall. apply Forall_forall. intros b Hb.
  specialize (Hall (addGroups b) (list_elem_of_fmap_2 addGroups ms b Hb)).
  rewrite matchEnd_addGroups, index_addGroups in Hall. exact Hall.
Qed.

Section Literal.
Variable R : RegExpObject.
Variable str : jsstring.
Hypothesis Hbounded : BoundedMatcher (RegExpMatcher R).
Variable text : jsstring.
Hypothesis Hliteral :
  forall matched_ position captures_ namedCaptures,
    GetSubstitution matched_ str position captures_ namedCaptures text = text.

Lemma fold_splice :
  forall results acc nsp,
    Forall (ExecMatch R str) results ->
    disjoint results ->
    Forall (fun m => nsp <= index m) results ->
    forall acc' nsp',
      fold_left (replaceStep str (ReplaceTemplate text)) results (acc, nsp) = (acc', nsp') ->
      acc' ++ drop nsp' str = acc ++ splice str text nsp results.
Proof.
  induction results as [|m results IH]; intros acc nsp Hall Hdis Hfrom acc' nsp' Hfold;
    cbn [fold_left] in Hfold.
  - injection Hfold as <- <-. reflexivity.
  - apply Forall_cons in Hall as [Hm Hall].
    apply StronglySorted_cons in Hdis as [Hnext Hdis].
    apply Forall_cons in Hfrom as [Hle Hfrom].
    destruct (ExecMatch_matched R str m Hm) as [_ Hend].
    unfold replaceStep at 2 in Hfold. unfold replacementOf in Hfold.
    rewrite Hliteral in Hfold.
    assert (Hpos : index m `min` length str = index m) by (unfold matchEnd in Hend; lia).
    rewrite Hpos in Hfold.
    replace (nsp <=? index m)%nat with true in Hfold by (symmetry; apply Nat.leb_le; lia).
    fold (matchEnd m) in Hfold.
    rewrite (IH _ _ Hall Hdis Hnext _ _ Hfold). cbn [splice].
    rewrite <- !app_assoc. reflexivity.
Qed.

Lemma StringReplace_splice :
  disjoint (replaceCollect (2 + length str) R str 0) ->
  StringReplace str R (ReplaceTemplate text)
  = splice str text 0 (replaceCollect (2 + length str) R str 0).
Proof.
  intros Hdis. unfold StringReplace.
  destruct (fold_left _ _ _) as [acc nsp] eqn:Hfold.
  apply fold_splice in Hfold.
  - cbn [app] in Hfold. rewrite <- Hfold.
    destruct (length str <=? nsp)%nat eqn:Hle; [|reflexivity].
    apply Nat.leb_le in Hle. rewrite drop_ge by lia. rewrite app_nil_r. reflexivity.
  - apply replaceCollect_ExecMatch. exact Hbounded.
  - exact Hdis.
  - apply Forall_forall. intros; lia.
Qed.

End Literal.

(** ** The loop of [findMatches] and the loop of [replace] *)

#[local] Opaque GetStringIndex codePointIndexOf.

(** Between two boundaries that follow each other lies one code unit:
    AdvanceStringIndex moves on by one. *)
Lemma advance_one (str : jsstring) :
  forall e,
    GetStringIndex str (codePointIndexOf str e) = e ->
    GetStringIndex str (codePointIndexOf str (S e)) = S e ->
    AdvanceStringIndex str e true = S e.
Proof.
  induction str as [|c|c d rest Hp IH|c d rest Hp IH] using codepoints_ind;
    intros e Hb Hb'.
  - unfold AdvanceStringIndex. simpl. lia.
  - unfold AdvanceStringIndex. cbn [negb length].
    destruct (1 <=? e + 1)%nat eqn:Hle; [lia | apply Nat.leb_gt in Hle; lia].
  - destruct e as [|e].
    + unfold AdvanceStringIndex, codeUnitCountAt. simpl. rewrite Hp. reflexivity.
    + revert Hb Hb'. rewrite advance_cons. cp_rewrite Hp. intros Hb Hb'.
      rewrite IH; [reflexivity | lia | lia].
  - destruct e as [|[|e]].
    + revert Hb'. cp_rewrite Hp. lia.
    + revert Hb. cp_rewrite Hp. lia.
    + revert Hb Hb'. rewrite !advance_cons. cp_rewrite Hp. intros Hb Hb'.
      rewrite IH; [reflexivity | lia | lia].
Qed.

#[local] Transparent GetStringIndex codePointIndexOf.

Section Loops.
Variable R : RegExpObject.
Variable str : jsstring.
Hypothesis Hbounded : BoundedMatcher (RegExpMatcher R).
Hypothesis Hglobal : global (flags_ R) = true.

(** A loop of [findMatches] that ends has collected the results that
    [replace] collects, with the numbered groups attached. *)
Lemma globalLoop_replaceCollect :
  forall fuel lastIndex matches result,
    (lastIndex <= length str -> boundary (fullUnicode (flags_ R)) str lastIndex) ->
    globalLoop fuel R str lastIndex matches = Normal result ->
    forall n, 1 <= n -> length str + 2 <= n + lastIndex ->
      result = matches ++ (addGroups <$> replaceCollect n R str lastIndex).
Proof.
  assert (Huses : global (flags_ R) || sticky (flags_ R) = true)
    by (rewrite Hglobal; reflexivity).
  induction fuel as [|fuel IH]; intros lastIndex matches result Hb Hrun n Hn1 Hn;
    cbn [globalLoop] in Hrun;
    (destruct n as [|n]; [lia|]); cbn [replaceCollect];
    destruct (RegExpBuiltinExec R str lastIndex) as [[m|] lastIndex1] eqn:Hexec;
    try discriminate;
    try (injection Hrun as <-; cbn [fmap list_fmap]; rewrite app_nil_r; reflexivity).
  rewrite Hglobal. cbn [negb fmap list_fmap].
  fold (nextIndex m lastIndex1) in Hrun.
  assert (Hin : lastIndex <= length str).
  { destruct (exec_Some R str lastIndex m lastIndex1 Hbounded Hexec)
      as (found & r & Hrange & _). unfold startOf in Hrange. rewrite Huses in Hrange. lia. }
  destruct (turn_from_boundary R str Hbounded Huses lastIndex m lastIndex1 (Hb Hin) Hexec)
    as [Hidx Hnext].
  destruct (exec_matchEnd R str Hbounded Huses lastIndex m lastIndex1 Hexec)
    as [Hend Hle].
  assert (Hbl : boundary (fullUnicode (flags_ R)) str lastIndex1).
  { destruct (exec_Some R str lastIndex m lastIndex1 Hbounded Hexec)
      as (found & r & _ & _ & _ & _ & _ & _ & Hlast).
    rewrite Huses in Hlast. rewrite Hlast. apply boundary_toUnit. }
  assert (Hsame : nextIndex m lastIndex1
                  = match matched m with
                    | [] => AdvanceStringIndex str lastIndex1 (fullUnicode (flags_ R))
                    | _ :: _ => lastIndex1
                    end
                  /\ (nextIndex m lastIndex1 <= length str ->
                      boundary (fullUnicode (flags_ R)) str (nextIndex m lastIndex1))).
  { unfold matchEnd in Hend. unfold nextIndex in *.
    destruct (matched m) as [|c0 rest] eqn:Hmatched; cbn [length] in Hend.
    - replace (index m =? lastIndex1)%nat with true in *
        by (symmetry; apply Nat.eqb_eq; lia).
      destruct Hnext as [Hnext|[Hnext|Hnext]].
      + split; [|intros _; exact Hnext].
        unfold boundary in Hnext, Hbl.
        destruct (fullUnicode (flags_ R)); [|reflexivity].
        cbn [toUnit toInput] in Hnext, Hbl. rewrite Nat.add_1_r in *.
        symmetry. apply advance_one; assumption.
      + split; [|lia]. unfold AdvanceStringIndex.
        destruct (fullUnicode (flags_ R)); cbn [negb]; [|reflexivity].
        replace (length str <=? lastIndex1 + 1)%nat with true
          by (symmetry; apply Nat.leb_le; lia). reflexivity.
      + exfalso.
        rewrite (globalLoop_stuck R str _ _ _ Hnext) in Hrun; [discriminate|].
        unfold nextIndex.
        replace (index m =? lastIndex1)%nat with true
          by (symmetry; apply Nat.eqb_eq; lia). reflexivity.
    - replace (index m =? lastIndex1)%nat with false in *
        by (symmetry; apply Nat.eqb_neq; lia).
      split; [reflexivity | intros _; exact Hbl]. }
  destruct Hsame as [Hsame Hbnext]. rewrite <- Hsame.
  rewrite (IH _ _ _ Hbnext Hrun n); [rewrite <- app_assoc; reflexivity | lia | lia].
Qed.

End Loops.

Lemma globalLoop_alike (g regex : RegExpObject) (str : jsstring) :
  (forall lastIndex,
      RegExpBuiltinExec g str lastIndex = RegExpBuiltinExec regex str lastIndex) ->
  forall fuel lastIndex matches,
    globalLoop fuel g str lastIndex matches = globalLoop fuel regex str lastIndex matches.
Proof.
  intros Halike. induction fuel as [|fuel IH]; intros lastIndex matches;
    cbn [globalLoop]; rewrite Halike; [reflexivity|].
  destruct (RegExpBuiltinExec regex str lastIndex) as [[m|] lastIndex1]; [apply IH|].
  reflexivity.
Qed.

Section Engine.
Context `{HostRegExp}.

(** When [execute] and [substitute] compile the same text, the matches
    [execute] returns are the results [replace] collects for [substitute],
    with the numbered groups attached. *)
Lemma execute_collects (fuel : nat) (pattern flags testString : jsstring)
    (flavor : option jsstring) (regex : RegExpObject) (result : ExecuteResult) :
  adjustedPattern pattern (default (js "javascript") flavor) = pattern ->
  RegExpCreate pattern flags = Normal regex ->
  execute fuel pattern flags testString flavor = Normal result ->
  matches result
  = (addGroups <$> replaceCollect (2 + length testString) regex testString 0).
Proof.
  intros Hadj Hcreate Hrun.
  apply execute_inv in Hrun as (regex' & Hregex' & Hfind).
  apply createRegex_inv in Hregex'. rewrite Hadj, Hcreate in Hregex'.
  injection Hregex' as <-.
  pose proof Hcreate as Hinv.
  apply RegExpCreate_inv in Hinv as (_ & HF & Hbounded & _).
  assert (Hgl : global (flags_ regex) = JS.includes flags (js "g")).
  { unfold flags_. rewrite HF. reflexivity. }
  destruct (JS.includes flags (js "g")) eqn:Hg.
  - apply findMatches_global_inv in Hfind as (g & Hg' & Hloop).
    destruct (globalRegex_same _ _ _ _ Hcreate Hg') as (Hflags & Hmatcher & Hnames & _).
    rewrite (globalLoop_alike g regex) in Hloop.
    + apply (globalLoop_replaceCollect regex testString Hbounded Hgl) with
        (n := 2 + length testString) in Hloop; [exact Hloop | | lia | lia].
      intros _. apply boundary_0.
    + intros lastIndex. apply exec_alike; [|exact Hmatcher|exact Hnames].
      rewrite Hflags. unfold flags_. rewrite HF. reflexivity.
  - unfold findMatches in Hfind. cbn [Nat.add replaceCollect]. rewrite Hgl.
    destruct (RegExpBuiltinExec regex testString 0) as [[m|] L1];
      injection Hfind as <-; reflexivity.
Qed.

(** Where [execute] finds no match, [substitute] returns the test string as
    it is, whatever the replacement: the two agree on whether there is
    something to replace when they compile the same text. *)
Theorem substitute_no_match (fuel : nat) (pattern flags testString : jsstring)
    (flavor : option jsstring) (result : ExecuteResult) (replacement : jsstring) :
  adjustedPattern pattern (default (js "javascript") flavor) = pattern ->
  execute fuel pattern flags testString flavor = Normal result ->
  matches result = [] ->
  substitute pattern flags testString replacement = Normal testString.
Proof.
  intros Hadj Hrun Hnone. rewrite substitute_unfold.
  pose proof Hrun as Hinv.
  apply execute_inv in Hinv as (regex & Hregex & _).
  apply createRegex_inv in Hregex. rewrite Hadj in Hregex. rewrite Hregex.
  pose proof (execute_collects _ _ _ _ _ _ _ Hadj Hregex Hrun) as Hms.
  rewrite Hnone in Hms. symmetry in Hms. apply fmap_nil_inv in Hms.
  f_equal. apply StringReplace_no_match.
  cbn [Nat.add replaceCollect] in Hms.
  destruct (RegExpBuiltinExec regex testString 0) as [[m|] L1]; [|reflexivity].
  destruct (negb (global (flags_ regex))); discriminate.
Qed.

(** With a replacement that holds no dollar sign, [substitute] returns the
    test string with the matches [execute] lists, each replaced by the
    replacement text, and the text between them kept: all of them under
    [g], the one match otherwise. *)
Theorem substitute_replaces_matches (fuel : nat) (pattern flags testString : jsstring)
    (flavor : option jsstring) (result : ExecuteResult) (replacement : jsstring) :
  adjustedPattern pattern (default (js "javascript") flavor) = pattern ->
  ch "$" ∉ replacement ->
  execute fuel pattern flags testString flavor = Normal result ->
  substitute pattern flags testString replacement
  = Normal (splice testString replacement 0 (matches result)).
Proof.
  intros Hadj Hfree Hrun. rewrite substitute_unfold.
  pose proof Hrun as Hinv.
  apply execute_inv in Hinv as (regex & Hregex & _).
  apply createRegex_inv in Hregex. rewrite Hadj in Hregex. rewrite Hregex.
  pose proof (execute_collects _ _ _ _ _ _ _ Hadj Hregex Hrun) as Hms.
  apply RegExpCreate_inv in Hregex as (_ & HF & Hbounded & _).
  rewrite (processReplacement_literal _ Hfree). f_equal.
  rewrite Hms, splice_addGroups.
  apply StringReplace_splice; [exact Hbounded | |].
  { intros. apply GetSubstitution_literal. exact Hfree. }
  apply disjoint_addGroups. rewrite <- Hms.
  apply execute_inv in Hrun as (regex' & Hregex' & Hfind).
  apply createRegex_inv in Hregex'.
  exact (findMatches_disjoint _ _ _ _ _ _ Hregex' Hfind).
Qed.

End Engine.

End SubstituteMore.

(* ===================================================================== *)
(** * [explain]: the tokens against the pattern *)
(* ===================================================================== *)

Module ExplainMore.
Import Explain ExplainFacts.

Lemma substring_mid (s : jsstring) (a b : nat) :
  a <= b -> b <= length s ->
  JS.substring s (Z.of_nat a) (Z.of_nat b) = take (b - a) (drop a s).
Proof.
  intros Hab Hb. unfold JS.substring, JS.clamp.
  replace (Z.to_nat (Z.max 0 (Z.of_nat a)) `min` length s) with a by lia.
  replace (Z.to_nat (Z.max 0 (Z.of_nat b)) `min` length s) with b by lia.
  replace (a `min` b) with a by lia. replace (a `max` b) with b by lia. reflexivity.
Qed.

Lemma take_one_drop (s : jsstring) (i : nat) (c : N) :
  s !! i = Some c -> take (S i - i) (drop i s) = [c].
Proof.
  intros Hc. rewrite (drop_S _ _ _ Hc). replace (S i - i) with 1 by lia. reflexivity.
Qed.

Lemma take_two_drop (s : jsstring) (i : nat) (c d : N) :
  s !! i = Some c -> s !! S i = Some d -> take (S (S i) - i) (drop i s) = [c; d].
Proof.
  intros Hc Hd. rewrite (drop_S _ _ _ Hc), (drop_S _ _ _ Hd).
  replace (S (S i) - i) with 2 by lia. reflexivity.
Qed.

(** [indexOf] finds nothing only where there is nothing to find. *)
Lemma indexOf_none (s : jsstring) (c : N) (i : nat) :
  JS.indexOf s [c] i = (-1)%Z -> forall k, i <= k -> s !! k <> Some c.
Proof.
  unfold JS.indexOf. intros Hnone k Hk Hc.
  rewrite SubstituteFacts.indexOf_from_none in Hnone. specialize (Hnone (k - i)).
  rewrite drop_drop in Hnone. replace (i + (k - i)) with k in Hnone by lia.
  rewrite (drop_S _ _ _ Hc) in Hnone. cbn [JS.startsWith] in Hnone.
  rewrite N.eqb_refl in Hnone. destruct (drop (S k) s); discriminate.
Qed.

Lemma groupScan_range (fuel : nat) (pattern : jsstring) :
  forall j depth j',
    j <= length pattern ->
    groupScan fuel pattern j depth = Normal j' -> j <= j' <= length pattern.
Proof.
  induction fuel as [|fuel IH]; intros j depth j' Hj Hrun; cbn [groupScan] in Hrun;
    destruct (pattern !! j) eqn:Hlk; try (injection Hrun as <-; lia);
    destruct (depth =? 0)%nat; try (injection Hrun as <-; lia); try discriminate.
  apply lookup_lt_Some in Hlk. apply IH in Hrun; lia.
Qed.

(** What one turn of the [switch] leaves out: a backslash at the end of the
    pattern, and a bracket or a brace that is never closed. *)
Definition skipped (pattern : jsstring) (i : nat) (char : N) : Prop :=
  (char = ch "\" /\ pattern !! S i = None)
  \/ (char = ch "[" /\ forall k, i <= k -> pattern !! k <> Some (ch "]"))
  \/ (char = ch "{" /\ forall k, i <= k -> pattern !! k <> Some (ch "}")).

(** One turn of the [switch] adds one token, the text of the pattern from
    the cursor to the new cursor, or it skips one character. *)
Lemma explainCase_token (fuel : nat) (pattern : jsstring) (i : nat) (char : N)
    (explanations explanations' : list Explanation) (i' : nat) :
  pattern !! i = Some char ->
  explainCase fuel pattern i char explanations = Normal (explanations', i') ->
  i < i' <= length pattern
  /\ ((exists e, explanations' = explanations ++ [e]
                 /\ token e = take (i' - i) (drop i pattern))
      \/ (explanations' = explanations /\ i' = S i /\ skipped pattern i char)).
Proof.
  intros Hlk. pose proof (lookup_lt_Some _ _ _ Hlk) as Hi.
  pose proof (take_one_drop pattern i char Hlk) as Hone.
  unfold explainCase, skipped.
  assert (Hsingle : forall c desc,
             (char =? c)%N = true ->
             Normal (explanations ++ [createExplanation [c] desc], S i)
             = Normal (explanations', i') ->
             i < i' <= length pattern
             /\ ((exists e, explanations' = explanations ++ [e]
                            /\ token e = take (i' - i) (drop i pattern))
                 \/ (explanations' = explanations /\ i' = S i
                     /\ skipped pattern i char))).
  { intros c desc Hc [= <- <-]. apply N.eqb_eq in Hc. subst c.
    split; [lia|]. left. eexists. split; [reflexivity|]. cbn [token createExplanation]. congruence. }
  destruct (char =? ch "^")%N eqn:E1; [apply (Hsingle _ _ E1)|].
  destruct (char =? ch "$")%N eqn:E2; [apply (Hsingle _ _ E2)|].
  destruct (char =? ch ".")%N eqn:E3; [apply (Hsingle _ _ E3)|].
  destruct (char =? ch "*")%N eqn:E4; [apply (Hsingle _ _ E4)|].
  destruct (char =? ch "+")%N eqn:E5; [apply (Hsingle _ _ E5)|].
  destruct (char =? ch "?")%N eqn:E6.
  { match goal with |- context [if ?b then _ else _] => destruct b end;
      apply (Hsingle _ _ E6). }
  destruct (char =? ch "\")%N eqn:E7.
  { apply N.eqb_eq in E7. subst char.
    destruct (pattern !! S i) as [nextChar|] eqn:Hnext; intros [= <- <-].
    - pose proof (lookup_lt_Some _ _ _ Hnext). split; [lia|]. left. eexists.
      split; [reflexivity|]. cbn [token createExplanation]. symmetry. apply take_two_drop; assumption.
    - split; [lia|]. right. auto. }
  destruct (char =? ch "[")%N eqn:E8.
  { apply N.eqb_eq in E8. subst char.
    destruct (negb (JS.indexOf pattern (js "]") i =? -1)%Z) eqn:Hfound; intros [= <- <-].
    - apply negb_true_iff, Z.eqb_neq in Hfound.
      pose proof (indexOf_range pattern (ch "]") i Hi Hfound) as Hr.
      change [ch "]"] with (js "]") in Hr.
      split; [lia|]. left. eexists. split; [reflexivity|]. cbn [token createExplanation].
      replace (JS.indexOf pattern (js "]") i + 1)%Z
        with (Z.of_nat (Z.to_nat (JS.indexOf pattern (js "]") i + 1))) at 1 by lia.
      apply substring_mid; lia.
    - apply negb_false_iff, Z.eqb_eq in Hfound. split; [lia|]. right.
      split; [reflexivity|]. split; [reflexivity|]. right. left.
      split; [reflexivity|]. apply indexOf_none. exact Hfound. }
  destruct (char =? ch "(")%N eqn:E9.
  { destruct (groupScan fuel pattern (S i) 1) as [j| |] eqn:Hscan; cbn [bindC];
      try discriminate.
    intros [= <- <-]. apply groupScan_range in Hscan; [|lia].
    split; [lia|]. left. eexists. split; [reflexivity|]. cbn [token createExplanation].
    apply substring_mid; lia. }
  destruct (char =? ch "|")%N eqn:E10; [apply (Hsingle _ _ E10)|].
  destruct (char =? ch "{")%N eqn:E11.
  { apply N.eqb_eq in E11. subst char.
    destruct (negb (JS.indexOf pattern (js "}") i =? -1)%Z) eqn:Hfound; intros [= <- <-].
    - apply negb_true_iff, Z.eqb_neq in Hfound.
      pose proof (indexOf_range pattern (ch "}") i Hi Hfound) as Hr.
      change [ch "}"] with (js "}") in Hr.
      split; [lia|]. left. eexists. split; [reflexivity|]. cbn [token createExplanation].
      replace (JS.indexOf pattern (js "}") i + 1)%Z
        with (Z.of_nat (Z.to_nat (JS.indexOf pattern (js "}") i + 1))) at 1 by lia.
      apply substring_mid; lia.
    - apply negb_false_iff, Z.eqb_eq in Hfound. split; [lia|]. right.
      split; [reflexivity|]. split; [reflexivity|]. right. right.
      split; [reflexivity|]. apply indexOf_none. exact Hfound. }
  intros [= <- <-]. split; [lia|]. left. eexists. split; [reflexivity|].
  cbn [token createExplanation]. congruence.
Qed.

(** The tokens the loop adds, read one after the other, are the rest of the
    pattern with the skipped characters left out. *)
Lemma explainLoop_tokens (fuel : nat) (pattern : jsstring) :
  forall i explanations result,
    i <= length pattern ->
    explainLoop fuel pattern i explanations = Normal result ->
    exists added,
      result = explanations ++ added
      /\ length added <= length pattern - i
      /\ flat_map token added `sublist_of` drop i pattern
      /\ ((forall k c, i <= k -> pattern !! k = Some c -> ~ skipped pattern k c) ->
          flat_map token added = drop i pattern).
Proof.
  induction fuel as [|fuel IH]; intros i explanations result Hi Hrun;
    cbn [explainLoop] in Hrun;
    destruct (pattern !! i) as [char|] eqn:Hlk; try discriminate;
    try (injection Hrun as <-; exists []; rewrite app_nil_r;
         apply lookup_ge_None in Hlk; rewrite drop_ge by lia;
         repeat split; simpl; auto; lia).
  destruct (explainCase fuel pattern i char explanations) as [[acc' i']| |] eqn:Hcase;
    cbn [bindC fst snd] in Hrun; try discriminate.
  destruct (explainCase_token _ _ _ _ _ _ _ Hlk Hcase) as [Hrange Hstep].
  apply IH in Hrun as (added & -> & Hlen & Hsub & Heq); [|lia].
  assert (Hsplit : drop i pattern = take (i' - i) (drop i pattern) ++ drop i' pattern).
  { rewrite <- (take_drop (i' - i) (drop i pattern)) at 1. rewrite drop_drop.
    do 2 f_equal. lia. }
  remember (take (i' - i) (drop i pattern)) as piece eqn:Hpiece.
  destruct Hstep as [(e & -> & Htoken)|(-> & -> & Hskip)].
  - exists (e :: added). rewrite <- app_assoc. split; [reflexivity|].
    split; [simpl; lia|]. cbn [flat_map]. rewrite Htoken, Hsplit. split.
    + apply sublist_app; [reflexivity | exact Hsub].
    + intros Hnone. f_equal. apply Heq.
      intros k c Hk. apply Hnone. lia.
  - exists added. split; [reflexivity|]. split; [lia|]. split.
    + rewrite Hsplit. apply sublist_inserts_l. exact Hsub.
    + intros Hnone. exfalso. exact (Hnone i char (Nat.le_refl i) Hlk Hskip).
Qed.

(** A pattern of which [explain] skips nothing: it does not end in a
    backslash, and every bracket and brace is closed further on. *)
Definition closed (pattern : jsstring) : Prop :=
  last pattern <> Some (ch "\")
  /\ (forall i, pattern !! i = Some (ch "[") ->
                exists k, i <= k /\ pattern !! k = Some (ch "]"))
  /\ (forall i, pattern !! i = Some (ch "{") ->
                exists k, i <= k /\ pattern !! k = Some (ch "}")).

Lemma closed_not_skipped (pattern : jsstring) (k : nat) (c : N) :
  closed pattern -> pattern !! k = Some c -> ~ skipped pattern k c.
Proof.
  intros (Hlast & Hbracket & Hbrace) Hc [[-> Hend]|[[-> Hnone]|[-> Hnone]]].
  - apply Hlast. rewrite last_lookup.
    apply lookup_lt_Some in Hc as Hlt. apply lookup_ge_None in Hend.
    replace (pred (length pattern)) with k by lia. exact Hc.
  - destruct (Hbracket k Hc) as (j & Hj & Hfound). exact (Hnone j Hj Hfound).
  - destruct (Hbrace k Hc) as (j & Hj & Hfound). exact (Hnone j Hj Hfound).
Qed.

(** The text of the flags, when there are flags. *)
Definition flagsToken (flags : jsstring) : list Explanation :=
  match flags with
  | [] => []
  | _ :: _ => [createExplanation (js "Flags: " ++ flags) (getFlagsExplanation flags)]
  end.

(** The tokens [explain] lists are pieces of the pattern in the order of
    the pattern, with nothing added: read one after the other they are the
    pattern with some characters left out, and the pattern itself when no
    backslash ends it and every bracket and brace is closed. No more tokens
    are listed than the pattern has characters; the flags come last. *)
Theorem explain_tokens_cover (fuel : nat) (pattern flags : jsstring)
    (explanations : list Explanation) :
  explainTokens fuel pattern flags = Normal explanations ->
  exists tokens,
    explanations = tokens ++ flagsToken flags
    /\ length tokens <= length pattern
    /\ flat_map token tokens `sublist_of` pattern
    /\ (closed pattern -> flat_map token tokens = pattern).
Proof.
  unfold explainTokens. intros Hrun.
  destruct (explainLoop fuel pattern 0 []) as [tokens| |] eqn:Hloop; cbn [bindC] in Hrun;
    try discriminate.
  apply explainLoop_tokens in Hloop as (added & -> & Hlen & Hsub & Heq); [|lia].
  rewrite drop_0 in Hsub, Heq. cbn [app] in Hrun. exists added.
  split; [destruct flags; injection Hrun as <-; [rewrite app_nil_r|]; reflexivity|].
  split; [lia|]. split; [exact Hsub|].
  intros Hclosed. apply Heq. intros k c _. apply closed_not_skipped. exact Hclosed.
Qed.

(** ** What reaches the HTML *)

(** One part of the HTML, as [formatExplanation] writes it. *)
Definition part (exp : Explanation) : jsstring :=
  [LF] ++ indent 16 ++ js "<div class=" ++ [QUOTE] ++ js "explanation-part" ++ [QUOTE] ++ js ">"
  ++ [LF] ++ indent 20 ++ js "<code>" ++ escapeHtml (token exp) ++ js "</code>"
  ++ [LF] ++ indent 20 ++ js "<span>" ++ description exp ++ js "</span>"
  ++ [LF] ++ indent 16 ++ js "</div>"
  ++ [LF] ++ indent 12.

Lemma fold_left_parts {A : Type} (f : A -> jsstring) (l : list A) :
  forall init, fold_left (fun html exp => html ++ f exp) l init = init ++ flat_map f l.
Proof.
  induction l as [|e rest IH]; intros init; cbn [fold_left flat_map].
  - rewrite app_nil_r. reflexivity.
  - rewrite IH, app_assoc. reflexivity.
Qed.

Lemma formatExplanation_parts (explanations : list Explanation) :
  formatExplanation explanations
  = (js "<div class=" ++ [QUOTE] ++ js "regex-explanation" ++ [QUOTE] ++ js ">")
    ++ flat_map part explanations ++ js "</div>".
Proof.
  rewrite app_assoc.
  exact (f_equal (fun html => html ++ js "</div>") (fold_left_parts part explanations _)).
Qed.

Lemma indexOf_from_first (content rest : jsstring) (c : N) (k : nat) :
  c ∉ content ->
  JS.indexOf_from (content ++ c :: rest) [c] k = Z.of_nat (k + length content).
Proof.
  revert k. induction content as [|x content IH]; intros k Hfree;
    cbn [JS.indexOf_from app JS.startsWith].
  - rewrite N.eqb_refl. cbn [andb]. destruct rest; simpl; f_equal; lia.
  - apply not_elem_of_cons in Hfree as [Hx Hfree].
    replace (c =? x)%N with false by (symmetry; apply N.eqb_neq; exact Hx).
    cbn [andb]. rewrite (IH _ Hfree). simpl. lia.
Qed.

(** A character class whose content closes at its first bracket is one
    token, described by its content. *)
Lemma class_tokens (fuel : nat) (content flags : jsstring) :
  ch "]" ∉ content ->
  head content <> Some (ch "^") ->
  explainTokens (S fuel) (js "[" ++ content ++ js "]") flags
  = Normal (createExplanation (js "[" ++ content ++ js "]")
              (js "Matches any character in the set " ++ content) :: flagsToken flags).
Proof.
  intros Hfree Hhead. unfold explainTokens. cbn [explainLoop js app map
    list_ascii_of_string lookup list_lookup].
  unfold explainCase.
  change (N_of_ascii "[" =? ch "^")%N with false. change (N_of_ascii "[" =? ch "$")%N with false.
  change (N_of_ascii "[" =? ch ".")%N with false. change (N_of_ascii "[" =? ch "*")%N with false.
  change (N_of_ascii "[" =? ch "+")%N with false. change (N_of_ascii "[" =? ch "?")%N with false.
  change (N_of_ascii "[" =? ch "\")%N with false. change (N_of_ascii "[" =? ch "[")%N with true.
  cbv iota.
  set (p := N_of_ascii "[" :: content ++ [N_of_ascii "]"]).
  assert (Hindex : JS.indexOf p (js "]") 0 = Z.of_nat (S (length content))).
  { assert (Hfree' : ch "]" ∉ ch "[" :: content).
    { apply not_elem_of_cons. split; [discriminate | exact Hfree]. }
    unfold JS.indexOf. rewrite drop_0. cbn [Nat.min].
    change p with ((ch "[" :: content) ++ ch "]" :: []). change (js "]") with [ch "]"].
    rewrite (indexOf_from_first _ [] (ch "]") 0 Hfree'). reflexivity. }
  assert (Hlen : length p = S (S (length content))).
  { unfold p. cbn [length]. rewrite length_app. simpl. lia. }
  rewrite Hindex.
  replace (Z.of_nat (S (length content)) =? -1)%Z with false by (symmetry; apply Z.eqb_neq; lia).
  cbn [negb bindC fst snd].
  replace (Z.of_nat (S (length content)) + 1)%Z with (Z.of_nat (length p)) by lia.
  rewrite (substring_mid p 0 (length p)) by lia.
  rewrite drop_0, Nat.sub_0_r, firstn_all, Nat2Z.id.
  assert (Hend : p !! length p = None) by (apply lookup_ge_None; lia).
  assert (Hloop : forall acc, explainLoop fuel p (length p) acc = Normal acc).
  { intros acc. destruct fuel; cbn [explainLoop]; rewrite Hend; reflexivity. }
  rewrite Hloop. cbn [bindC app].
  assert (Hdesc : getCharClassExplanation p = js "Matches any character in the set " ++ content).
  { unfold getCharClassExplanation.
    assert (Hsw : JS.startsWith p (js "[^") = false).
    { unfold p. cbn [JS.startsWith js map list_ascii_of_string]. rewrite N.eqb_refl.
      cbn [andb]. destruct content as [|x content']; cbn [app JS.startsWith].
      - reflexivity.
      - replace (N_of_ascii "^" =? x)%N with false; [reflexivity|].
        symmetry. apply N.eqb_neq. intros <-. apply Hhead. reflexivity. }
    rewrite Hsw. f_equal.
    replace (Z.of_nat (length p) - 1)%Z with (Z.of_nat (S (length content))) by lia.
    change 1%Z with (Z.of_nat 1). rewrite substring_mid by lia.
    unfold p. cbn [drop]. replace (S (length content) - 1) with (length content) by lia.
    rewrite drop_0, take_app_length. reflexivity. }
  rewrite Hdesc. destruct flags; reflexivity.
Qed.

(** The description of a token goes into the HTML as it is: the content of
    a character class, which the token escapes, stands unescaped in the
    description. *)
Theorem explain_description_verbatim (fuel : nat) (content flags : jsstring) :
  ch "]" ∉ content ->
  head content <> Some (ch "^") ->
  exists before between after,
    explain (S fuel) (js "[" ++ content ++ js "]") flags
    = Normal (before
              ++ js "<code>" ++ escapeHtml (js "[" ++ content ++ js "]") ++ js "</code>"
              ++ between
              ++ js "<span>Matches any character in the set " ++ content ++ js "</span>"
              ++ after).
Proof.
  intros Hfree Hhead. unfold explain. rewrite (class_tokens fuel content flags Hfree Hhead).
  cbn [bindC]. rewrite formatExplanation_parts. cbn [flat_map]. unfold part at 1.
  cbn [token description createExplanation].
  exists ((js "<div class=" ++ [QUOTE] ++ js "regex-explanation" ++ [QUOTE] ++ js ">")
          ++ [LF] ++ indent 16 ++ js "<div class=" ++ [QUOTE] ++ js "explanation-part"
          ++ [QUOTE] ++ js ">" ++ [LF] ++ indent 20),
         ([LF] ++ indent 20),
         (([LF] ++ indent 16 ++ js "</div>" ++ [LF] ++ indent 12)
          ++ flat_map part (flagsToken flags) ++ js "</div>").
  f_equal.
  change (js "<span>Matches any character in the set ")
    with (js "<span>" ++ js "Matches any character in the set ").
  repeat rewrite <- app_assoc. reflexivity.
Qed.

(** ** The helpers of [explain] *)

Lemma includes_one (s : jsstring) (c : N) : JS.includes s [c] = bool_decide (c ∈ s).
Proof.
  unfold JS.includes, JS.indexOf. rewrite drop_0. cbn [Nat.min].
  generalize 0. induction s as [|x s IH]; intros k; cbn [JS.indexOf_from JS.startsWith].
  - rewrite bool_decide_eq_false_2 by apply not_elem_of_nil. reflexivity.
  - destruct (c =? x)%N eqn:Hc; cbn [andb].
    + apply N.eqb_eq in Hc. subst x. rewrite bool_decide_eq_true_2 by left.
      replace (JS.startsWith s []) with true by (destruct s; reflexivity).
      apply negb_true_iff, Z.eqb_neq. lia.
    + apply N.eqb_neq in Hc. rewrite IH. apply bool_decide_ext.
      rewrite elem_of_cons. split; [auto | intros [?|?]; [contradiction | assumption]].
Qed.

(** The text for the flags depends only on which of [g], [i], [m], [s],
    [u] and [y] occur among them: their order, repetitions and any other
    letter, [d] and [v] included, change nothing. *)
Theorem getFlagsExplanation_set (flags1 flags2 : jsstring) :
  (forall c, c ∈ js "gimsuy" -> (c ∈ flags1 <-> c ∈ flags2)) ->
  getFlagsExplanation flags1 = getFlagsExplanation flags2.
Proof.
  intros Hsame. unfold getFlagsExplanation. rewrite !includes_one.
  assert (Heq : forall c, c ∈ js "gimsuy" ->
                          bool_decide (c ∈ flags1) = bool_decide (c ∈ flags2)).
  { intros c Hc. apply bool_decide_ext. apply Hsame. exact Hc. }
  rewrite (Heq (ch "g")), (Heq (ch "i")), (Heq (ch "m")), (Heq (ch "s")),
    (Heq (ch "u")), (Heq (ch "y")); try reflexivity;
    vm_compute; repeat (first [left | right]; try reflexivity).
Qed.

Lemma startsWith_prefix (p t : jsstring) : JS.startsWith (p ++ t) p = true.
Proof.
  induction p as [|a p IH]; cbn [app JS.startsWith]; [destruct t; reflexivity|].
  rewrite N.eqb_refl. exact IH.
Qed.

(** The name shown for a named group is the text between [(?<] and the
    first [>]; in a group that has no [>] the name shown is [(?<]. *)
Theorem getGroupExplanation_named (name rest : jsstring) :
  head name <> Some (ch "=") ->
  head name <> Some (ch "!") ->
  ch ">" ∉ name ->
  getGroupExplanation (js "(?<" ++ name ++ js ">" ++ rest)
  = js "Named capturing group " ++ [QUOTE] ++ name ++ [QUOTE]
  /\ (name <> [] ->
      getGroupExplanation (js "(?<" ++ name)
      = js "Named capturing group " ++ [QUOTE] ++ js "(?<" ++ [QUOTE]).
Proof.
  intros Heq Hbang Hfree.
  assert (Hhead : forall tail,
            JS.startsWith (js "(?<" ++ name ++ tail) (js "(?<=") = false
            /\ JS.startsWith (js "(?<" ++ name ++ tail) (js "(?<!") = false
            \/ name = []).
  { intros tail. destruct name as [|x name']; [right; reflexivity|]. left.
    cbn [JS.startsWith js map list_ascii_of_string app].
    rewrite !N.eqb_refl. cbn [andb].
    split; (replace (_ =? x)%N with false; [reflexivity|]); symmetry; apply N.eqb_neq;
      intros <-; [apply Heq | apply Hbang]; reflexivity. }
  split.
  - unfold getGroupExplanation.
    change (JS.startsWith (js "(?<" ++ name ++ js ">" ++ rest) (js "(?:")) with false.
    change (JS.startsWith (js "(?<" ++ name ++ js ">" ++ rest) (js "(?=")) with false.
    change (JS.startsWith (js "(?<" ++ name ++ js ">" ++ rest) (js "(?!")) with false.
    assert (Hlook : JS.startsWith (js "(?<" ++ name ++ js ">" ++ rest) (js "(?<=") = false
                    /\ JS.startsWith (js "(?<" ++ name ++ js ">" ++ rest) (js "(?<!") = false).
    { destruct (Hhead (js ">" ++ rest)) as [Hl| ->]; [exact Hl|]. split; reflexivity. }
    destruct Hlook as [-> ->].
    rewrite startsWith_prefix. cbv iota. do 2 f_equal.
    assert (Hfree' : ch ">" ∉ js "(?<" ++ name).
    { intros Hin. apply elem_of_app in Hin as [Hin|Hin]; [|contradiction].
      vm_compute in Hin. repeat (inversion Hin as [|? ? ? Hin']; clear Hin; rename Hin' into Hin). }
    assert (Hindex : JS.indexOf (js "(?<" ++ name ++ js ">" ++ rest) (js ">") 0
                     = Z.of_nat (3 + length name)).
    { unfold JS.indexOf. rewrite drop_0. cbn [Nat.min].
      change (js "(?<" ++ name ++ js ">" ++ rest) with ((js "(?<" ++ name) ++ ch ">" :: rest).
      change (js ">") with [ch ">"].
      rewrite (indexOf_from_first _ rest (ch ">") 0 Hfree'). rewrite length_app. reflexivity. }
    rewrite Hindex. change 3%Z with (Z.of_nat 3).
    rewrite substring_mid; [|lia|rewrite !length_app; simpl; lia].
    change (drop 3 (js "(?<" ++ name ++ js ">" ++ rest)) with (name ++ js ">" ++ rest).
    replace (3 + length name - 3) with (length name) by lia.
    rewrite take_app_length. reflexivity.
  - intros Hne. unfold getGroupExplanation.
    change (JS.startsWith (js "(?<" ++ name) (js "(?:")) with false.
    change (JS.startsWith (js "(?<" ++ name) (js "(?=")) with false.
    change (JS.startsWith (js "(?<" ++ name) (js "(?!")) with false.
    destruct (Hhead []) as [[Hl1 Hl2]|Hnil]; [|contradiction].
    rewrite app_nil_r in Hl1, Hl2. rewrite Hl1, Hl2.
    rewrite startsWith_prefix. cbv iota.
    do 2 f_equal.
    assert (Hfree' : ch ">" ∉ js "(?<" ++ name).
    { intros Hin. apply elem_of_app in Hin as [Hin|Hin]; [|contradiction].
      vm_compute in Hin. repeat (inversion Hin as [|? ? ? Hin']; clear Hin; rename Hin' into Hin). }
    assert (Hindex : JS.indexOf (js "(?<" ++ name) (js ">") 0 = (-1)%Z).
    { unfold JS.indexOf. rewrite drop_0. cbn [Nat.min].
      apply SubstituteFacts.indexOf_from_none. intros i.
      destruct (drop i (js "(?<" ++ name)) as [|x t] eqn:Hdrop; [reflexivity|].
      cbn [JS.startsWith js map list_ascii_of_string].
      replace (N_of_ascii ">" =? x)%N with false; [reflexivity|].
      symmetry. apply N.eqb_neq. intros <-. apply Hfree'.
      assert (Hx : (js "(?<" ++ name) !! i = Some (N_of_ascii ">")).
      { rewrite <- (Nat.add_0_r i), <- lookup_drop, Hdrop. reflexivity. }
      eapply list_elem_of_lookup_2. exact Hx. }
    rewrite Hindex. unfold JS.substring, JS.clamp. rewrite length_app.
    cbn [js map list_ascii_of_string length app Z.max Z.to_nat].
    replace (Z.to_nat (Z.max 0 3) `min` (3 + length name)) with 3 by lia.
    replace (Z.to_nat (Z.max 0 (-1)) `min` (3 + length name)) with 0 by lia.
    reflexivity.
Qed.

Lemma split_go_free (s : jsstring) (sep : N) :
  forall cur, sep ∉ s -> JS.split_go s sep cur = [rev cur ++ s].
Proof.
  induction s as [|c s IH]; intros cur Hfree; cbn [JS.split_go].
  - rewrite app_nil_r. reflexivity.
  - apply not_elem_of_cons in Hfree as [Hc Hfree].
    replace (c =? sep)%N with false by (symmetry; apply N.eqb_neq; congruence).
    rewrite (IH _ Hfree). cbn [rev]. rewrite <- app_assoc. reflexivity.
Qed.

Lemma split_go_first (s t : jsstring) (sep : N) :
  forall cur, sep ∉ s ->
    JS.split_go (s ++ sep :: t) sep cur = (rev cur ++ s) :: JS.split_go t sep [].
Proof.
  induction s as [|c s IH]; intros cur Hfree; cbn [JS.split_go app].
  - rewrite N.eqb_refl, app_nil_r. reflexivity.
  - apply not_elem_of_cons in Hfree as [Hc Hfree].
    replace (c =? sep)%N with false by (symmetry; apply N.eqb_neq; congruence).
    rewrite (IH _ Hfree). cbn [rev]. rewrite <- app_assoc. reflexivity.
Qed.

Lemma quantifier_content (content : jsstring) :
  JS.substring (js "{" ++ content ++ js "}") 1
    (Z.of_nat (length (js "{" ++ content ++ js "}")) - 1)
  = content.
Proof.
  assert (Hlen : length (js "{" ++ content ++ js "}") = S (S (length content))).
  { cbn [js map list_ascii_of_string app length]. rewrite length_app. simpl. lia. }
  rewrite Hlen. replace (Z.of_nat (S (S (length content))) - 1)%Z
    with (Z.of_nat (S (length content))) by lia.
  change 1%Z with (Z.of_nat 1). rewrite substring_mid by lia.
  change (drop 1 (js "{" ++ content ++ js "}")) with (content ++ js "}").
  replace (S (length content) - 1) with (length content) by lia.
  apply take_app_length.
Qed.

(** The three forms of a counted quantifier: [{n}], [{n,}] and [{n,m}].
    The text before the first comma is the lower bound, empty or not; an
    upper bound that is empty counts as none. *)
Theorem getQuantifierExplanation_forms (min max : jsstring) :
  ch "," ∉ min ->
  getQuantifierExplanation (js "{" ++ min ++ js "}")
  = js "Matches previous token exactly " ++ min ++ js " times"
  /\ getQuantifierExplanation (js "{" ++ (min ++ js ",") ++ js "}")
     = js "Matches previous token " ++ min ++ js " or more times"
  /\ (ch "," ∉ max -> max <> [] ->
      getQuantifierExplanation (js "{" ++ (min ++ js "," ++ max) ++ js "}")
      = js "Matches previous token between " ++ min ++ js " and " ++ max ++ js " times").
Proof.
  intros Hmin. unfold getQuantifierExplanation. rewrite !quantifier_content.
  change (js ",") with [ch ","]. rewrite !includes_one.
  split; [|split].
  - rewrite bool_decide_eq_false_2 by exact Hmin. reflexivity.
  - rewrite bool_decide_eq_true_2
      by (apply elem_of_app; right; apply list_elem_of_singleton; reflexivity).
    unfold JS.split. rewrite (split_go_first min [] (ch ",") [] Hmin). reflexivity.
  - intros Hmax Hne.
    rewrite bool_decide_eq_true_2 by (apply elem_of_app; right; left).
    unfold JS.split. cbn [app]. rewrite (split_go_first min max (ch ",") [] Hmin).
    rewrite (split_go_free max (ch ",") [] Hmax).
    cbn [rev app lookup list_lookup default]. destruct max; [contradiction | reflexivity].
Qed.

End ExplainMore.

(* ===================================================================== *)
(** * The application (src/js/app.js): the pure parts of the views and the
      flag controls *)
(* ===================================================================== *)

From stdpp Require Import pretty.

Module App.
Import Host RegexEngine.

(** ToString of a number that is an array index or an offset: its decimal
    digits. *)
Definition NumberToString (n : nat) : jsstring := js (pretty n).

Definition escapeHtml (text : jsstring) : jsstring := JS.textToInnerHTML text.

(** ** [renderGroups] *)

(** OrdinaryOwnPropertyKeys lists the array indices of an object in
    ascending order, before the names. The order in which names were created
    is not part of [JSObject]: [ObjectEntries] is [Object.entries] on the
    objects that have no name among their keys, as have all the objects
    that [findMatches] builds, and it is [None] on the others. *)
Definition indexOfKey (key : PropertyKey) : option nat :=
  match key with
  | inl i => Some i
  | inr _ => None
  end.

Definition OwnIndexKeys (o : JSObject) : list nat :=
  merge_sort le (omap indexOfKey (fst <$> map_to_list o)).

Definition hasNameKey (o : JSObject) : bool :=
  existsb (fun key => match key with inl _ => false | inr _ => true end)
    (fst <$> map_to_list o).

Definition ObjectEntries (o : JSObject) : option (list (jsstring * option jsstring)) :=
  if hasNameKey o then None
  else Some ((fun i => (NumberToString i, default None (o !! (inl i : PropertyKey))))
               <$> OwnIndexKeys o).

(** The text [renderGroups] adds for one entry. *)
Definition groupItem (key value : jsstring) : jsstring :=
  [LF] ++ replicate 20 (ch " ") ++ js "<div class=" ++ [QUOTE] ++ js "group-item" ++ [QUOTE]
  ++ js ">"
  ++ [LF] ++ replicate 24 (ch " ") ++ js "<span class=" ++ [QUOTE] ++ js "group-name"
  ++ [QUOTE] ++ js ">Group " ++ key ++ js ":</span>"
  ++ [LF] ++ replicate 24 (ch " ") ++ js "<code>" ++ escapeHtml value ++ js "</code>"
  ++ [LF] ++ replicate 20 (ch " ") ++ js "</div>"
  ++ [LF] ++ replicate 16 (ch " ").

(** [renderGroups(groups)], for [groups] that is [undefined] ([None]) or an
    object. *)
Definition renderGroups (groups : option JSObject) : option jsstring :=
  match groups with
  | None => Some []
  | Some o =>
    entries ← ObjectEntries o;
    if (length entries =? 0)%nat then Some []
    else
      let html := js "<div class=" ++ [QUOTE] ++ js "match-groups" ++ [QUOTE] ++ js ">" in
      let html :=
        fold_left (fun html (entry : jsstring * option jsstring) =>
                     match entry.2 with
                     | Some value => html ++ groupItem entry.1 value
                     | None => html
                     end) entries html in
      Some (html ++ js "</div>")
  end.

(** ** [showMatchDetails] *)

Definition detailItem (i : nat) (value : jsstring) : jsstring :=
  [LF] ++ replicate 24 (ch " ") ++ js "<div class=" ++ [QUOTE] ++ js "detail-item" ++ [QUOTE]
  ++ js ">"
  ++ [LF] ++ replicate 28 (ch " ") ++ js "<strong>Group " ++ NumberToString i
  ++ js ":</strong>"
  ++ [LF] ++ replicate 28 (ch " ") ++ js "<code>" ++ escapeHtml value ++ js "</code>"
  ++ [LF] ++ replicate 24 (ch " ") ++ js "</div>"
  ++ [LF] ++ replicate 20 (ch " ").

(** The head of the details: the match and its position. *)
Definition detailsHead (m : Match) (index_ : nat) : jsstring :=
  [LF] ++ replicate 12 (ch " ") ++ js "<h3>Match " ++ NumberToString (index_ + 1)
  ++ js " Details</h3>"
  ++ [LF] ++ replicate 12 (ch " ") ++ js "<div class=" ++ [QUOTE] ++ js "detail-item" ++ [QUOTE]
  ++ js ">"
  ++ [LF] ++ replicate 16 (ch " ") ++ js "<strong>Full Match:</strong>"
  ++ [LF] ++ replicate 16 (ch " ") ++ js "<code>" ++ escapeHtml (matched m) ++ js "</code>"
  ++ [LF] ++ replicate 12 (ch " ") ++ js "</div>"
  ++ [LF] ++ replicate 12 (ch " ") ++ js "<div class=" ++ [QUOTE] ++ js "detail-item" ++ [QUOTE]
  ++ js ">"
  ++ [LF] ++ replicate 16 (ch " ") ++ js "<strong>Position:</strong>"
  ++ [LF] ++ replicate 16 (ch " ") ++ js "<span>" ++ NumberToString (index m)
  ++ js " - " ++ NumberToString (index m + length (matched m)) ++ js "</span>"
  ++ [LF] ++ replicate 12 (ch " ") ++ js "</div>"
  ++ [LF] ++ replicate 8 (ch " ").

(** The HTML that [showMatchDetails(match, index)] writes into the details
    pane ([index_] is the method's [index], the place of the match in the
    list). *)
Definition showMatchDetails (m : Match) (index_ : nat) : jsstring :=
  let html := detailsHead m index_ in
  if (1 <? length (array m))%nat then
    let html := html ++ js "<h4>Capturing Groups:</h4>" in
    fold_left (fun html i =>
                 match default None (array m !! i) with
                 | Some value => html ++ detailItem i value
                 | None => html
                 end) (seq 1 (length (array m) - 1)) html
  else html.

(** ** The flag controls *)

(** A checkbox of the flag options: its [data-flag] attribute ([None] when
    it has none) and whether it is checked. *)
Record Checkbox : Type := { flag : option jsstring; checked : bool }.

(** The text field of the flags and the checkboxes, in document order. *)
Record FlagControls : Type := { flagsValue : jsstring; checkboxes : list Checkbox }.

(** [updateFlagsFromCheckboxes()], on the flag controls: the field gets the
    flags of the checked boxes. The call of [processRegex] that ends the
    method reads the controls and writes none of them. *)
Definition updateFlagsFromCheckboxes (s : FlagControls) : FlagControls :=
  let flags := flag <$> filter (fun c => checked c = true) (checkboxes s) in
  {| flagsValue := JS.join (default [] <$> flags) [];
     checkboxes := checkboxes s |}.

(** [updateFlagsAndProcess()], on the flag controls: a box is checked when
    its flag is one of the code units of the field. *)
Definition updateFlagsAndProcess (s : FlagControls) : FlagControls :=
  let flags : list jsstring := (fun c => [c]) <$> flagsValue s in
  {| flagsValue := flagsValue s;
     checkboxes :=
       (fun c => {| flag := flag c;
                    checked := match flag c with
                               | Some f => bool_decide (f ∈ flags)
                               | None => false
                               end |}) <$> checkboxes s |}.

End App.

Module AppFacts.
Import Host Ctor HostFacts RegexEngine MatchFacts ReplaceFacts MatchMore App.

(** ** The entries of the numbered groups *)

Lemma NoDup_omap_indexOfKey (keys : list PropertyKey) :
  NoDup keys -> NoDup (omap indexOfKey keys).
Proof.
  induction 1 as [|key keys Hnin Hnd IH]; [constructor|].
  cbn [omap list_omap]. destruct key as [i|name]; cbn [indexOfKey]; [|exact IH].
  constructor; [|exact IH].
  intros Hin. apply list_elem_of_omap in Hin as (key & Hkey & Hi).
  destruct key as [i'|]; [|discriminate]. injection Hi as ->. contradiction.
Qed.

Lemma Sorted_le_seq (lo n : nat) : Sorted le (seq lo n).
Proof.
  revert lo. induction n as [|n IH]; intros lo; cbn [seq]; [constructor|].
  constructor; [apply IH|]. destruct n; cbn [seq]; constructor. lia.
Qed.

(** An object whose keys are the indices of a range: the indices in
    ascending order, and no name. *)
Lemma OwnIndexKeys_range (o : JSObject) (lo n : nat) :
  (forall key, o !! key <> None <-> exists i, key = inl i /\ lo <= i < lo + n) ->
  OwnIndexKeys o = seq lo n /\ hasNameKey o = false.
Proof.
  intros Hkeys. split.
  - unfold OwnIndexKeys.
    apply (Sorted_unique le); [apply Sorted_merge_sort; apply _ | apply Sorted_le_seq |].
    rewrite merge_sort_Permutation.
    apply NoDup_Permutation.
    + apply NoDup_omap_indexOfKey, NoDup_fst_map_to_list.
    + apply NoDup_seq.
    + intros i. rewrite list_elem_of_omap, elem_of_seq. split.
      * intros (key & Hin & Hi). destruct key as [i'|]; [|discriminate].
        injection Hi as ->. apply list_elem_of_fmap in Hin as ([k v] & Hk & Hin).
        cbn [fst] in Hk. subst k. apply elem_of_map_to_list in Hin.
        destruct (proj1 (Hkeys (inl i))) as (i0 & [= <-] & Hr); [congruence | exact Hr].
      * intros Hr. exists (inl i). split; [|reflexivity].
        destruct (o !! (inl i : PropertyKey)) as [v|] eqn:Hv.
        -- apply list_elem_of_fmap. exists (inl i, v). split; [reflexivity|].
           apply elem_of_map_to_list. exact Hv.
        -- exfalso. apply (proj2 (Hkeys (inl i))); eauto.
  - unfold hasNameKey. apply not_true_iff_false. intros Hex.
    apply existsb_exists in Hex as (key & Hin & Hname).
    destruct key as [|name]; [discriminate|].
    apply list_elem_of_In, list_elem_of_fmap in Hin as ([k v] & Hk & Hin).
    cbn [fst] in Hk. subst k. apply elem_of_map_to_list in Hin.
    destruct (proj1 (Hkeys (inr name))) as (i & Hi & _); [congruence | discriminate].
Qed.

(** The groups of a match that took part, with their indices, in the order
    of the indices. *)
Definition participating (m : Match) : list (nat * jsstring) :=
  omap (fun i => (fun value => (i, value)) <$> default None (array m !! i))
    (seq 1 (length (array m) - 1)).

Lemma ObjectEntries_numberedGroups (elements : list (option jsstring)) :
  ObjectEntries (numberedGroups elements)
  = Some ((fun i => (NumberToString i, default None (elements !! i)))
            <$> seq 1 (length elements - 1)).
Proof.
  destruct (OwnIndexKeys_range (numberedGroups elements) 1 (length elements - 1))
    as [Hkeys Hnames].
  - intros key. rewrite numberedGroups_lookup. destruct key as [i|name].
    + destruct (decide (1 <= i < length elements)) as [Hi|Hi].
      * rewrite bool_decide_eq_true_2 by exact Hi. split; [|discriminate].
        intros _. exists i. split; [reflexivity | lia].
      * rewrite bool_decide_eq_false_2 by exact Hi. split; [congruence|].
        intros (i' & [= <-] & Hr). lia.
    + split; [congruence|]. intros (i & [=] & _).
  - unfold ObjectEntries. rewrite Hnames, Hkeys. f_equal.
    apply list_fmap_ext. intros k i Hi. f_equal.
    apply lookup_seq in Hi as [-> Hk]. rewrite numberedGroups_lookup.
    destruct (decide (1 <= 1 + k < length elements)) as [Hr|Hr]; [|lia].
    rewrite bool_decide_eq_true_2 by exact Hr. reflexivity.
Qed.

(** A loop that adds text for the defined values of a list adds the texts
    of the defined values. *)
Lemma fold_left_defined {A B : Type} (value : A -> option B) (item : A -> B -> jsstring)
    (l : list A) :
  forall html,
    fold_left (fun html a => match value a with
                             | Some v => html ++ item a v
                             | None => html
                             end) l html
    = html ++ flat_map (fun av : A * B => item av.1 av.2)
                (omap (fun a => (fun v => (a, v)) <$> value a) l).
Proof.
  induction l as [|a l IH]; intros html; cbn [fold_left omap list_omap].
  - cbn [flat_map]. rewrite app_nil_r. reflexivity.
  - rewrite IH. destruct (value a) as [v|]; cbn [fmap option_fmap option_map flat_map fst snd].
    + rewrite <- app_assoc. reflexivity.
    + reflexivity.
Qed.

Lemma fold_left_fmap {A B C : Type} (f : C -> B -> C) (g : A -> B) (l : list A) :
  forall init, fold_left f (g <$> l) init = fold_left (fun c a => f c (g a)) l init.
Proof. induction l as [|a l IH]; intros init; cbn; [reflexivity | apply IH]. Qed.

Lemma omap_pair_fmap {A B C : Type} (key : A -> C) (value : A -> option B) (l : list A) :
  omap (fun a => (fun v => (key a, v)) <$> value a) l
  = (fun av : A * B => (key av.1, av.2)) <$> omap (fun a => (fun v => (a, v)) <$> value a) l.
Proof.
  induction l as [|a l IH]; [reflexivity|]. cbn [omap list_omap].
  rewrite IH. destruct (value a); reflexivity.
Qed.

(** The opening tag of the groups of a match. *)
Definition groupsOpen : jsstring :=
  js "<div class=" ++ [QUOTE] ++ js "match-groups" ++ [QUOTE] ++ js ">".

Lemma renderGroups_numbered (elements : list (option jsstring)) :
  1 < length elements ->
  renderGroups (Some (numberedGroups elements))
  = Some (groupsOpen
          ++ flat_map (fun iv : nat * jsstring => groupItem (NumberToString iv.1) iv.2)
               (omap (fun i => (fun value => (i, value)) <$> default None (elements !! i))
                  (seq 1 (length elements - 1)))
          ++ js "</div>").
Proof.
  intros Hlen. unfold renderGroups. rewrite ObjectEntries_numberedGroups.
  cbn [mbind option_bind]. rewrite length_fmap, length_seq.
  replace (length elements - 1 =? 0)%nat with false by (symmetry; apply Nat.eqb_neq; lia).
  f_equal. fold groupsOpen. rewrite fold_left_fmap. cbn [fst snd].
  rewrite (fold_left_defined (fun i => default None (elements !! i))
             (fun i v => groupItem (NumberToString i) v)).
  rewrite <- app_assoc. reflexivity.
Qed.

Lemma renderGroups_empty : renderGroups (Some ∅) = Some [].
Proof. reflexivity. Qed.

Lemma namedGroups_no_values (names : list (option jsstring)) :
  namedGroups names [] = None \/ namedGroups names [] = Some ∅.
Proof.
  unfold namedGroups. destruct (forallb _ names); [left; reflexivity|].
  right. destruct names; reflexivity.
Qed.

Section Engine.
Context `{HostRegExp}.

(** The match list and the details pane show the same groups of a match
    that [execute] returned: the groups that took part, in the order of
    their indices, each with its index and its text, escaped. A group that
    took no part is left out of both; a group that matched the empty string
    is shown. *)
Theorem views_show_participating_groups (fuel : nat) (pattern flags testString : jsstring)
    (flavor : option jsstring) (result : ExecuteResult) (m : Match) (index_ : nat) :
  execute fuel pattern flags testString flavor = Normal result ->
  m ∈ matches result ->
  renderGroups (groups m)
  = Some (if (1 <? length (array m))%nat
          then groupsOpen
               ++ flat_map (fun iv : nat * jsstring =>
                              groupItem (NumberToString iv.1) iv.2) (participating m)
               ++ js "</div>"
          else [])
  /\ showMatchDetails m index_
     = detailsHead m index_
       ++ (if (1 <? length (array m))%nat
           then js "<h4>Capturing Groups:</h4>"
                ++ flat_map (fun iv : nat * jsstring => detailItem iv.1 iv.2)
                     (participating m)
           else []).
Proof.
  intros Hrun Hm. split.
  - apply execute_matches_MatchOf in Hrun as (regex & _ & _ & Hall).
    rewrite Forall_forall in Hall. destruct (Hall m Hm) as (m0 & Hm0 & ->).
    unfold participating. rewrite array_addGroups. unfold addGroups.
    destruct (1 <? length (array m0))%nat eqn:Hlen; cbn [groups].
    + apply Nat.ltb_lt in Hlen. apply renderGroups_numbered. exact Hlen.
    + apply Nat.ltb_ge in Hlen.
      destruct Hm0 as (found & r & _ & _ & -> & _). unfold execResult in *.
      cbn [array groups length] in *.
      destruct (captures r) as [|cap caps]; [|cbn in Hlen; lia].
      cbn [map]. destruct (namedGroups_no_values (GroupNames regex)) as [-> | ->];
        reflexivity.
  - unfold showMatchDetails. destruct (1 <? length (array m))%nat; [|rewrite app_nil_r; reflexivity].
    rewrite (fold_left_defined (fun i => default None (array m !! i)) detailItem).
    rewrite <- app_assoc. reflexivity.
Qed.

End Engine.

(** ** The flag controls *)

Lemma join_empty_separator (parts : list jsstring) : JS.join parts [] = mjoin parts.
Proof.
  induction parts as [|p [|q rest] IH]; cbn [JS.join mjoin list_join] in *.
  - reflexivity.
  - rewrite app_nil_r. reflexivity.
  - rewrite IH. reflexivity.
Qed.

(** The code units of the flags field after [updateFlagsFromCheckboxes]:
    those of the flags of the checked boxes. *)
Lemma elem_of_flagsValue (s : FlagControls) (c : N) :
  c ∈ flagsValue (updateFlagsFromCheckboxes s)
  <-> exists box f, box ∈ checkboxes s /\ checked box = true /\ flag box = Some f /\ c ∈ f.
Proof.
  unfold updateFlagsFromCheckboxes. cbn [flagsValue]. rewrite join_empty_separator.
  rewrite list_elem_of_join. split.
  - intros (f & Hc & Hf).
    apply list_elem_of_fmap in Hf as (given & -> & Hgiven).
    apply list_elem_of_fmap in Hgiven as (box & -> & Hbox).
    apply list_elem_of_filter in Hbox as [Hchecked Hbox].
    destruct (flag box) as [f|] eqn:Hflag; [|cbn in Hc; apply elem_of_nil in Hc; contradiction].
    exists box, f. auto.
  - intros (box & f & Hbox & Hchecked & Hflag & Hc). exists f. split; [exact Hc|].
    apply list_elem_of_fmap. exists (Some f). split; [reflexivity|].
    apply list_elem_of_fmap. exists box. split; [congruence|].
    apply list_elem_of_filter. auto.
Qed.

Lemma elem_of_singletons (f : jsstring) (value : jsstring) :
  f ∈ ((fun c => [c]) <$> value) <-> exists c, f = [c] /\ c ∈ value.
Proof.
  rewrite list_elem_of_fmap. split; intros (c & Hf & Hc); eauto.
Qed.

(** After the boxes have been set from the field, and the field from the
    boxes, the two agree: setting the boxes from the field again, or the
    field from the boxes, changes nothing. The field then holds only code
    units that were typed and that are the flag of a box. *)
Theorem flag_controls_settle (s : FlagControls) :
  let settled := updateFlagsFromCheckboxes (updateFlagsAndProcess s) in
  updateFlagsAndProcess settled = settled
  /\ updateFlagsFromCheckboxes settled = settled
  /\ forall c, c ∈ flagsValue settled ->
               c ∈ flagsValue s /\ exists box, box ∈ checkboxes s /\ flag box = Some [c].
Proof.
  intros settled.
  assert (Hvalue : forall c, c ∈ flagsValue settled ->
            c ∈ flagsValue s /\ exists box, box ∈ checkboxes s /\ flag box = Some [c]).
  { intros c Hc. apply elem_of_flagsValue in Hc as (box & f & Hbox & Hchecked & Hflag & Hc).
    cbn [updateFlagsAndProcess checkboxes] in Hbox.
    apply list_elem_of_fmap in Hbox as (box0 & -> & Hbox0).
    cbn [flag checked] in Hchecked, Hflag. rewrite Hflag in Hchecked.
    apply bool_decide_eq_true_1, elem_of_singletons in Hchecked as (c0 & -> & Hc0).
    apply list_elem_of_singleton in Hc. subst c0. eauto. }
  split; [|split; [reflexivity | exact Hvalue]].
  unfold updateFlagsAndProcess at 1. fold settled.
  assert (Hboxes : checkboxes settled = checkboxes (updateFlagsAndProcess s)) by reflexivity.
  destruct settled as [value boxes] eqn:Hsettled. cbn [flagsValue checkboxes] in *.
  f_equal. rewrite <- (list_fmap_id boxes) at 2. apply list_fmap_ext.
  intros k box Hk. apply list_elem_of_lookup_2 in Hk as Hin.
  rewrite Hboxes in Hin. cbn [updateFlagsAndProcess checkboxes] in Hin.
  apply list_elem_of_fmap in Hin as (box0 & Hbox & Hbox0).
  destruct box as [f checked0]. cbn [flag checked id]. f_equal.
  injection Hbox as -> ->.
  destruct (flag box0) as [f|] eqn:Hflag; [|reflexivity].
  destruct (bool_decide (f ∈ (fun c => [c]) <$> flagsValue s)) eqn:Htyped.
  - apply bool_decide_eq_true_2. apply bool_decide_eq_true_1 in Htyped.
    apply elem_of_singletons in Htyped as (c & -> & Hc).
    apply elem_of_singletons. exists c. split; [reflexivity|].
    change value with (flagsValue {| flagsValue := value; checkboxes := boxes |}).
    rewrite <- Hsettled. apply elem_of_flagsValue.
    exists {| flag := Some [c]; checked := true |}, [c].
    split; [|split; [reflexivity | split; [reflexivity | apply list_elem_of_singleton; reflexivity]]].
    cbn [updateFlagsAndProcess checkboxes]. apply list_elem_of_fmap.
    exists box0. split; [|exact Hbox0]. rewrite Hflag. f_equal. symmetry.
    apply bool_decide_eq_true_2. apply elem_of_singletons. eauto.
  - apply bool_decide_eq_false_2. apply bool_decide_eq_false_1 in Htyped.
    intros Hin. apply Htyped. apply elem_of_singletons in Hin as (c & -> & Hc).
    apply elem_of_singletons. exists c. split; [reflexivity|].
    apply (Hvalue c). exact Hc.
Qed.

(** When every box has a flag of one code unit and no two boxes have the
    same flag, the boxes come through the field unchanged: the field set
    from the boxes sets the boxes as they were. *)
Theorem checkboxes_round_trip (s : FlagControls) :
  (forall box, box ∈ checkboxes s -> exists c, flag box = Some [c]) ->
  NoDup (flag <$> checkboxes s) ->
  checkboxes (updateFlagsAndProcess (updateFlagsFromCheckboxes s)) = checkboxes s.
Proof.
  intros Hone Hnodup. cbn [updateFlagsAndProcess checkboxes].
  change (checkboxes (updateFlagsFromCheckboxes s)) with (checkboxes s).
  rewrite <- (list_fmap_id (checkboxes s)) at 2. apply list_fmap_ext.
  intros k box Hk. apply list_elem_of_lookup_2 in Hk as Hin.
  destruct (Hone box Hin) as (c & Hflag).
  destruct box as [f checked0]. cbn [flag checked id] in *. subst f. f_equal.
  destruct checked0.
  - apply bool_decide_eq_true_2. apply elem_of_singletons. exists c.
    split; [reflexivity|]. apply elem_of_flagsValue.
    exists {| flag := Some [c]; checked := true |}, [c].
    split; [exact Hin|]. split; [reflexivity|]. split; [reflexivity|].
    apply list_elem_of_singleton. reflexivity.
  - apply bool_decide_eq_false_2. intros Htyped.
    apply elem_of_singletons in Htyped as (c0 & [= <-] & Hc).
    apply elem_of_flagsValue in Hc as (box' & f & Hbox' & Hchecked & Hflag' & Hc).
    destruct (Hone box' Hbox') as (c' & Hflag''). rewrite Hflag'' in Hflag'.
    injection Hflag' as <-. apply list_elem_of_singleton in Hc. subst c'.
    apply list_elem_of_lookup in Hbox' as (k' & Hk').
    assert (Hsame : k = k').
    { eapply (NoDup_lookup _ _ _ _ Hnodup).
      - rewrite list_lookup_fmap, Hk. reflexivity.
      - rewrite list_lookup_fmap, Hk'. cbn. rewrite Hflag''. reflexivity. }
    subst k'. rewrite Hk in Hk'. injection Hk' as <-. discriminate.
Qed.

End AppFacts.

(* ===================================================================== *)
(** * The PCRE rewriting, one character pair at a time *)
(* ===================================================================== *)

Module FlavorMore.
Import Host Ctor HostFacts RegexEngine MatchFacts ReplaceFacts SubstituteFacts MatchMore
  SubstituteMore.

(** [s.replace(/ab/g, x)] read as a scan of the string from left to right:
    every [a] followed by [b] becomes [x], and the scan goes on after the
    pair. The second definition of the refinement
    [FlavorMore.StringReplace_replacePair]. *)
Fixpoint replacePair (a b x : N) (s : jsstring) {struct s} : jsstring :=
  match s with
  | [] => []
  | c :: t =>
    match t with
    | d :: rest =>
        if (c =? a)%N && (d =? b)%N then x :: replacePair a b x rest
        else c :: replacePair a b x t
    | [] => [c]
    end
  end.

(** No [a] with a [b] behind it. *)
Definition pairFree (a b : N) (s : jsstring) : Prop :=
  forall i, s !! i = Some a -> s !! S i = Some b -> False.

Lemma pairFree_tail (a b c : N) (s : jsstring) : pairFree a b (c :: s) -> pairFree a b s.
Proof. intros Hfree i Ha Hb. exact (Hfree (S i) Ha Hb). Qed.

Lemma replacePair_cons (a b x c d : N) (rest : jsstring) :
  replacePair a b x (c :: d :: rest)
  = if (c =? a)%N && (d =? b)%N then x :: replacePair a b x rest
    else c :: replacePair a b x (d :: rest).
Proof. reflexivity. Qed.

Lemma replacePair_none (a b x : N) (s : jsstring) :
  pairFree a b s -> replacePair a b x s = s.
Proof.
  induction s as [|c t IH]; intros Hfree; [reflexivity|].
  destruct t as [|d rest]; [reflexivity|]. rewrite replacePair_cons.
  destruct ((c =? a)%N && (d =? b)%N) eqn:Hpair.
  - apply andb_true_iff in Hpair as [Hc Hd]. apply N.eqb_eq in Hc, Hd. subst c d.
    exfalso. exact (Hfree 0 eq_refl eq_refl).
  - f_equal. apply IH. eapply pairFree_tail. exact Hfree.
Qed.

(** The scan up to the first pair. *)
Lemma replacePair_first (a b x : N) :
  forall k s,
    (forall i, i < k -> s !! i = Some a -> s !! S i = Some b -> False) ->
    s !! k = Some a -> s !! S k = Some b ->
    replacePair a b x s = take k s ++ x :: replacePair a b x (drop (k + 2) s).
Proof.
  induction k as [|k IH]; intros s Hnone Ha Hb.
  - destruct s as [|c [|d rest]]; try discriminate.
    injection Ha as ->. injection Hb as ->. rewrite replacePair_cons.
    rewrite !N.eqb_refl. reflexivity.
  - destruct s as [|c [|d rest]]; try discriminate.
    rewrite replacePair_cons.
    destruct ((c =? a)%N && (d =? b)%N) eqn:Hpair.
    + apply andb_true_iff in Hpair as [Hc Hd]. apply N.eqb_eq in Hc, Hd. subst c d.
      exfalso. apply (Hnone 0); [lia | reflexivity | reflexivity].
    + cbn [take app]. f_equal. change (drop (S k + 2) (c :: d :: rest))
        with (drop (k + 2) (d :: rest)).
      apply IH; [|exact Ha|exact Hb].
      intros i Hi Hia Hib. apply (Hnone (S i)); [lia | exact Hia | exact Hib].
Qed.

Section Pair.
Variable source : jsstring.
Variables a b x : N.
Variable str : jsstring.

Let R := twoChars source a b.

Lemma twoChars_global : global (flags_ R) = true.
Proof. reflexivity. Qed.

Lemma twoChars_bounded : BoundedMatcher (RegExpMatcher R).
Proof. apply literal_bounded. Qed.

Lemma twoChars_exec (lastIndex : nat) (m : Match) (lastIndex1 : nat) :
  RegExpBuiltinExec R str lastIndex = (Some m, lastIndex1) ->
  lastIndex <= index m
  /\ str !! index m = Some a /\ str !! S (index m) = Some b
  /\ (forall j, lastIndex <= j < index m -> str !! j = Some a -> str !! S j = Some b -> False)
  /\ matchEnd m = index m + 2 /\ lastIndex1 = index m + 2.
Proof.
  intros Hexec. destruct (twoChars_flags source a b) as [Hsticky Hplain].
  destruct (exec_leftmost R str Hsticky Hplain _ _ _ Hexec) as (Hrange & _ & Hleft).
  assert (Hstart : startOf R lastIndex = lastIndex) by reflexivity.
  rewrite Hstart in Hrange, Hleft.
  destruct (exec_Some R str lastIndex m lastIndex1 twoChars_bounded Hexec)
    as (found & r & _ & Hmatch & _ & Hindex & _ & _ & Hlast).
  destruct (exec_matchEnd R str twoChars_bounded eq_refl _ _ _ Hexec) as [Hend _].
  change (fullUnicode (flags_ R)) with false in *.
  unfold toInput, toUnit, inputOf in *. subst found.
  apply twoChars_Some in Hmatch as (Ha & Hb & Hr).
  change (global (flags_ R) || sticky (flags_ R)) with true in Hlast. cbv iota in Hlast.
  rewrite Hr in Hlast.
  split; [lia|]. split; [exact Ha|]. split; [exact Hb|]. split; [|split; [lia | exact Hlast]].
  intros j Hj Hja Hjb. destruct (twoChars_at source a b str j Hja Hjb) as (st & Hst).
  fold R in Hst. rewrite (Hleft j Hj) in Hst. discriminate.
Qed.

Lemma twoChars_none (lastIndex lastIndex1 : nat) :
  RegExpBuiltinExec R str lastIndex = (None, lastIndex1) ->
  forall j, lastIndex <= j -> str !! j = Some a -> str !! S j = Some b -> False.
Proof.
  intros Hexec j Hj Ha Hb. destruct (twoChars_flags source a b) as [Hsticky Hplain].
  destruct (twoChars_at source a b str j Ha Hb) as (st & Hst). fold R in Hst.
  rewrite (exec_exhausted R str Hsticky Hplain _ _ Hexec j) in Hst; [discriminate|].
  apply lookup_lt_Some in Ha. change (startOf R lastIndex) with lastIndex. lia.
Qed.

(** The results [replace] collects from an index on: in order, apart, and
    spliced they give the scan of the rest of the string. *)
Lemma collect_replacePair :
  forall n lastIndex,
    lastIndex <= length str ->
    length str + 2 <= n + lastIndex ->
    let results := replaceCollect n R str lastIndex in
    disjoint results
    /\ Forall (fun m => lastIndex <= index m) results
    /\ splice str [x] lastIndex results = replacePair a b x (drop lastIndex str).
Proof.
  induction n as [|n IH]; intros lastIndex Hin Hn; [lia|].
  cbn [replaceCollect].
  destruct (RegExpBuiltinExec R str lastIndex) as [[m|] lastIndex1] eqn:Hexec.
  - destruct (twoChars_exec _ _ _ Hexec) as (Hle & Ha & Hb & Hnone & Hend & ->).
    rewrite twoChars_global. cbn [negb].
    assert (Hmatched : matched m <> []).
    { unfold matchEnd in Hend. intros Hnil. rewrite Hnil in Hend. simpl in Hend. lia. }
    destruct (matched m) as [|c0 rest0] eqn:Hm0; [contradiction|]. clear Hmatched.
    pose proof (lookup_lt_Some _ _ _ Hb) as Hlt.
    destruct (IH (index m + 2)) as (Hdis & Hfrom & Hsplice); [lia | lia |].
    split; [|split].
    + constructor; [exact Hdis|]. eapply Forall_impl; [exact Hfrom|].
      intros m'. cbn. lia.
    + constructor; [exact Hle|]. eapply Forall_impl; [exact Hfrom|].
      intros m'. cbn. lia.
    + cbn [splice]. rewrite Hend, Hsplice.
      rewrite (replacePair_first a b x (index m - lastIndex) (drop lastIndex str)).
      * unfold substr. rewrite drop_drop.
        replace (lastIndex + (index m - lastIndex + 2)) with (index m + 2) by lia.
        reflexivity.
      * intros i Hi. rewrite !lookup_drop.
        replace (lastIndex + S i) with (S (lastIndex + i)) by lia. apply Hnone. lia.
      * rewrite lookup_drop. replace (lastIndex + (index m - lastIndex)) with (index m) by lia.
        exact Ha.
      * rewrite lookup_drop.
        replace (lastIndex + S (index m - lastIndex)) with (S (index m)) by lia. exact Hb.
  - split; [constructor|]. split; [constructor|]. cbn [splice].
    symmetry. apply replacePair_none. intros i. rewrite !lookup_drop.
    replace (lastIndex + S i) with (S (lastIndex + i)) by lia.
    apply (twoChars_none _ _ Hexec). lia.
Qed.

(** [replace] with a literal of two characters, the global flag and a text
    of one character is the scan. *)
Lemma StringReplace_replacePair :
  StringReplace str R (ReplaceTemplate [x]) = replacePair a b x str.
Proof.
  destruct (collect_replacePair (2 + length str) 0) as (Hdis & _ & Hsplice); [lia | lia |].
  rewrite drop_0 in Hsplice. rewrite <- Hsplice.
  apply StringReplace_splice; [exact twoChars_bounded | | exact Hdis].
  intros. apply GetSubstitution_one.
Qed.

End Pair.

(** ** What the scan leaves *)

Lemma replacePair_head (a b x d : N) (t : jsstring) :
  head (replacePair a b x (d :: t)) = Some d \/ head (replacePair a b x (d :: t)) = Some x.
Proof.
  destruct t as [|e rest]; [left; reflexivity|]. rewrite replacePair_cons.
  destruct (_ && _); [right | left]; reflexivity.
Qed.

Lemma head_lookup_0 (s : jsstring) : s !! 0 = head s.
Proof. destruct s; reflexivity. Qed.

(** A string is empty, one character, or two characters and a rest. *)
Lemma pairs_ind (P : jsstring -> Prop) :
  P [] ->
  (forall c, P [c]) ->
  (forall c d rest, P rest -> P (d :: rest) -> P (c :: d :: rest)) ->
  forall s, P s.
Proof.
  intros Hnil Hone Hstep s.
  assert (Hboth : P s /\ forall c, P (c :: s)).
  { induction s as [|d rest [IH1 IH2]]; [split; [exact Hnil | exact Hone]|].
    split; [apply IH2|]. intros c. apply Hstep; [exact IH1 | apply IH2]. }
  exact (proj1 Hboth).
Qed.

(** The scan leaves no pair of the kind it replaces, and it brings in no
    pair of another kind, when the character it writes is in neither. *)
Lemma replacePair_preserves (a b x a' b' : N) (s : jsstring) :
  x <> a' -> x <> b' ->
  pairFree a' b' s \/ (a' = a /\ b' = b) ->
  pairFree a' b' (replacePair a b x s).
Proof.
  intros Hxa Hxb. induction s as [|c|c d rest IH1 IH2] using pairs_ind; intros Hfree.
  - intros [|i] Ha; cbn in Ha; discriminate.
  - intros [|[|i]] Ha Hb; cbn in Ha, Hb; discriminate.
  - assert (Hrest : pairFree a' b' rest \/ a' = a /\ b' = b).
    { destruct Hfree as [Hfree|Hsame]; [left|right; exact Hsame].
      eapply pairFree_tail, pairFree_tail. exact Hfree. }
    assert (Htail : pairFree a' b' (d :: rest) \/ a' = a /\ b' = b).
    { destruct Hfree as [Hfree|Hsame]; [left|right; exact Hsame].
      eapply pairFree_tail. exact Hfree. }
    rewrite replacePair_cons. destruct ((c =? a)%N && (d =? b)%N) eqn:Hpair.
    + intros [|i] Ha Hb.
      * injection Ha as Ha. contradiction.
      * exact (IH1 Hrest i Ha Hb).
    + intros [|i] Ha Hb.
      * injection Ha as ->. change ((?c0 :: ?l) !! 1) with (l !! 0) in Hb.
        rewrite head_lookup_0 in Hb.
        destruct (replacePair_head a b x d rest) as [Hh|Hh]; rewrite Hh in Hb;
          injection Hb as Hb; [|contradiction]. subst d.
        destruct Hfree as [Hfree|[-> ->]].
        -- exact (Hfree 0 eq_refl eq_refl).
        -- rewrite !N.eqb_refl in Hpair. discriminate.
      * exact (IH2 Htail i Ha Hb).
Qed.

Lemma pairFree_includes (a b : N) (s : jsstring) :
  pairFree a b s -> JS.includes s [a; b] = false.
Proof.
  intros Hfree. destruct (JS.includes s [a; b]) eqn:Hinc; [|reflexivity].
  apply includes_two in Hinc as (i & Ha & Hb). exfalso. exact (Hfree i Ha Hb).
Qed.

(** [convertPCREToJS] as three scans. *)
Definition scans (pattern : jsstring) : jsstring :=
  replacePair (ch "\") (ch "z") (ch "$")
    (replacePair (ch "\") (ch "Z") (ch "$")
       (replacePair (ch "\") (ch "A") (ch "^") pattern)).

Lemma convertPCREToJS_pairs (pattern : jsstring) : convertPCREToJS pattern = scans pattern.
Proof.
  unfold scans.
  pose proof (StringReplace_replacePair [ch "\"; ch "\"; ch "A"] (ch "\") (ch "A") (ch "^")
                pattern) as H1.
  pose proof (StringReplace_replacePair [ch "\"; ch "\"; ch "Z"] (ch "\") (ch "Z") (ch "$")
                (replacePair (ch "\") (ch "A") (ch "^") pattern)) as H2.
  pose proof (StringReplace_replacePair [ch "\"; ch "\"; ch "z"] (ch "\") (ch "z") (ch "$")
                (replacePair (ch "\") (ch "Z") (ch "$")
                   (replacePair (ch "\") (ch "A") (ch "^") pattern))) as H3.
  rewrite <- H3, <- H2, <- H1. reflexivity.
Qed.

Lemma scans_free (pattern : jsstring) :
  pairFree (ch "\") (ch "A") (scans pattern)
  /\ pairFree (ch "\") (ch "Z") (scans pattern)
  /\ pairFree (ch "\") (ch "z") (scans pattern).
Proof.
  unfold scans. split; [|split].
  - apply replacePair_preserves; [discriminate | discriminate | left].
    apply replacePair_preserves; [discriminate | discriminate | left].
    apply replacePair_preserves; [discriminate | discriminate | right; auto].
  - apply replacePair_preserves; [discriminate | discriminate | left].
    apply replacePair_preserves; [discriminate | discriminate | right; auto].
  - apply replacePair_preserves; [discriminate | discriminate | right; auto].
Qed.

(** [convertPCREToJS] is three scans of the pattern from left to right:
    every backslash followed by [A] becomes [^], then every backslash
    followed by [Z] becomes [$], then every backslash followed by [z]; a
    backslash that is itself escaped is not told apart. What it returns
    holds none of [\A], [\Z] and [\z], and converting it again changes
    nothing. *)
Theorem convertPCREToJS_settles (pattern : jsstring) :
  convertPCREToJS pattern
  = replacePair (ch "\") (ch "z") (ch "$")
      (replacePair (ch "\") (ch "Z") (ch "$")
         (replacePair (ch "\") (ch "A") (ch "^") pattern))
  /\ JS.includes (convertPCREToJS pattern) (js "\A") = false
  /\ JS.includes (convertPCREToJS pattern) (js "\Z") = false
  /\ JS.includes (convertPCREToJS pattern) (js "\z") = false
  /\ convertPCREToJS (convertPCREToJS pattern) = convertPCREToJS pattern.
Proof.
  destruct (scans_free pattern) as (HA & HZ & Hz).
  rewrite !convertPCREToJS_pairs.
  split; [reflexivity|].
  split; [exact (pairFree_includes _ _ _ HA)|].
  split; [exact (pairFree_includes _ _ _ HZ)|].
  split; [exact (pairFree_includes _ _ _ Hz)|].
  unfold scans at 1. rewrite (replacePair_none _ _ _ _ HA).
  rewrite (replacePair_none _ _ _ _ HZ). apply replacePair_none. exact Hz.
Qed.

(** ** The flavor in [execute] *)

(** Only the [pcre] flavor rewrites, and only a pattern that holds one of
    the three anchors: every other flavor, known or not, and every other
    pattern hands the pattern text to the constructor as it is. *)
Lemma adjustedPattern_same (pattern flavor : jsstring) :
  adjustedPattern pattern flavor = pattern
  <-> flavor <> js "pcre"
      \/ JS.includes pattern (js "\A") || JS.includes pattern (js "\Z")
         || JS.includes pattern (js "\z") = false.
Proof.
  unfold adjustedPattern. destruct (decide (flavor = js "pcre")) as [->|Hne].
  - rewrite bool_decide_eq_true_2 by reflexivity. split.
    + intros Hsame. right.
      destruct (JS.includes pattern (js "\A") || JS.includes pattern (js "\Z")
                || JS.includes pattern (js "\z")) eqn:Hinc; [|reflexivity].
      pose proof (convertPCREToJS_changes pattern Hinc) as Hlt.
      rewrite Hsame in Hlt. lia.
    + intros [Hne|Hnone]; [contradiction|].
      apply orb_false_iff in Hnone as [Hnone Hz].
      apply orb_false_iff in Hnone as [HA HZ].
      unfold convertPCREToJS.
      rewrite (twoChars_no_match _ _ _ _ _ HA
               : StringReplace _ (re_backslash (ch "A")) _ = _).
      rewrite (twoChars_no_match _ _ _ _ _ HZ
               : StringReplace _ (re_backslash (ch "Z")) _ = _).
      exact (twoChars_no_match _ _ _ _ _ Hz).
  - rewrite bool_decide_eq_false_2 by exact Hne. split; [auto|]. intros _.
    unfold convertPythonToJS, convertGoToJS.
    destruct (bool_decide _); [reflexivity|]. destruct (bool_decide _); reflexivity.
Qed.

Section Engine.
Context `{HostRegExp}.

(** The flavor changes what [execute] does only through the [pcre]
    rewriting of [\A], [\Z] and [\z]: under every other flavor, and for
    every pattern without these anchors, [execute] finds, or throws, what it
    does under the default flavor; only the flavor it reports differs. *)
Theorem execute_flavor_passthrough (fuel : nat) (pattern flags testString flavor : jsstring) :
  flavor <> js "pcre"
  \/ JS.includes pattern (js "\A") || JS.includes pattern (js "\Z")
     || JS.includes pattern (js "\z") = false ->
  execute fuel pattern flags testString (Some flavor)
  = match execute fuel pattern flags testString None with
    | Normal result =>
        Normal {| matches := matches result; pattern := RegexEngine.pattern result;
                  flags := RegexEngine.flags result;
                  testString := RegexEngine.testString result; flavor := flavor |}
    | Throw message => Throw message
    | OutOfFuel => OutOfFuel
    end.
Proof.
  intros Hsame. apply adjustedPattern_same in Hsame.
  unfold execute, createRegex.
  change (default (js "javascript") (Some flavor)) with flavor.
  change (default (js "javascript") None) with (js "javascript").
  rewrite Hsame. change (adjustedPattern pattern (js "javascript")) with pattern.
  destruct (RegExpCreate pattern flags) as [regex|message|]; cbn [tryCatch bindC];
    try reflexivity.
  destruct (findMatches fuel regex testString _) as [ms|message|]; reflexivity.
Qed.

End Engine.

End FlavorMore.

(* ===================================================================== *)
(** * The rewriting of the bracketed references in [substitute] *)
(* ===================================================================== *)

Module BracketFacts.
Import Host Ctor HostFacts RegexEngine MatchFacts ReplaceFacts SubstituteFacts MatchMore
  SubstituteMore FlavorMore.

(** ** What [/\$\{(\d+)\}/] matches *)

(** The number of digits a text starts with. *)
Fixpoint digitRun (s : jsstring) : nat :=
  match s with
  | c :: t => if isDigit c then S (digitRun t) else 0
  | [] => 0
  end.

(** A bracketed reference at index [i]: a dollar sign, an opening brace, one
    digit or more, a closing brace. The answer is the number of digits. *)
Definition bracketAt (s : jsstring) (i : nat) : option nat :=
  if bool_decide (s !! i = Some (ch "$")) && bool_decide (s !! S i = Some (ch "{")) then
    let k := digitRun (drop (i + 2) s) in
    if (1 <=? k)%nat && bool_decide (s !! (i + 2 + k) = Some (ch "}")) then Some k
    else None
  else None.

Lemma digitRun_lookup (s : jsstring) (e : nat) :
  digitRun (drop e s)
  = match s !! e with
    | Some a => if isDigit a then S (digitRun (drop (S e) s)) else 0
    | None => 0
    end.
Proof.
  destruct (s !! e) as [a|] eqn:Hlk.
  - rewrite (drop_S _ _ _ Hlk). reflexivity.
  - apply lookup_ge_None in Hlk. rewrite drop_ge by lia. reflexivity.
Qed.

(** The greedy run of digits: the quantifier takes every digit there is and
    hands over to its continuation, when the continuation accepts no state
    that stands before a digit. *)
Lemma digits_repeat (s : jsstring) (c : Mini.Continuation) :
  (forall y a, s !! endIndex y = Some a -> isDigit a = true -> c y = None) ->
  forall n min x,
    min <= 1 ->
    min + (length s - endIndex x) < n ->
    Mini.repeatMatcher n
      (Mini.charMatcher (fun a => xorb false (Mini.inClass Mini.Digit a)) s) [] min None true x c
    = if (min <=? digitRun (drop (endIndex x) s))%nat
      then c {| endIndex := endIndex x + digitRun (drop (endIndex x) s);
                captures := captures x |}
      else None.
Proof.
  intros Hc. induction n as [|n IH]; intros min x Hmin Hn; [lia|].
  cbn [Mini.repeatMatcher].
  rewrite bool_decide_eq_false_2 by discriminate.
  change (Mini.clearCaptures [] (captures x)) with (captures x).
  change (Init.Nat.pred <$> None) with (@None nat).
  set (d := fun y : MatchState =>
              if (min =? 0)%nat && (endIndex y =? endIndex x)%nat then None
              else Mini.repeatMatcher n
                     (Mini.charMatcher (fun a => xorb false (Mini.inClass Mini.Digit a)) s)
                     [] (min - 1) None true y c).
  assert (Hturn :
    Mini.charMatcher (fun a => xorb false (Mini.inClass Mini.Digit a)) s
      {| endIndex := endIndex x; captures := captures x |} d
    = match s !! endIndex x with
      | Some a => if isDigit a
                  then d {| endIndex := endIndex x + 1; captures := captures x |}
                  else None
      | None => None
      end) by reflexivity.
  rewrite Hturn. clear Hturn. rewrite digitRun_lookup.
  destruct (s !! endIndex x) as [a|] eqn:Hlk.
  - destruct (isDigit a) eqn:Hdigit.
    + pose proof (lookup_lt_Some _ _ _ Hlk) as Hlt.
      assert (Hd : d {| endIndex := endIndex x + 1; captures := captures x |}
                   = c {| endIndex := endIndex x + S (digitRun (drop (S (endIndex x)) s));
                          captures := captures x |}).
      { unfold d. cbn [endIndex].
        replace (endIndex x + 1 =? endIndex x)%nat with false
          by (symmetry; apply Nat.eqb_neq; lia).
        rewrite andb_false_r.
        rewrite (IH (min - 1) {| endIndex := endIndex x + 1; captures := captures x |})
          by (cbn [endIndex]; lia).
        cbn [endIndex captures].
        replace (endIndex x + 1) with (S (endIndex x)) by lia.
        replace (min - 1 <=? digitRun (drop (S (endIndex x)) s))%nat with true
          by (symmetry; apply Nat.leb_le; lia).
        f_equal. f_equal. lia. }
      rewrite Hd.
      replace (min <=? S (digitRun (drop (S (endIndex x)) s)))%nat with true
        by (symmetry; apply Nat.leb_le; lia).
      destruct (negb (min =? 0)%nat); [reflexivity|]. cbn [negb].
      rewrite (Hc x a Hlk Hdigit).
      destruct (c _); reflexivity.
    + destruct min as [|min]; cbn [Nat.eqb negb Nat.leb Mini.orElse].
      * rewrite Nat.add_0_r. destruct x; reflexivity.
      * reflexivity.
  - destruct min as [|min]; cbn [Nat.eqb negb Nat.leb Mini.orElse].
    + rewrite Nat.add_0_r. destruct x; reflexivity.
    + reflexivity.
Qed.

(** The matcher of [/\$\{(\d+)\}/g]: it succeeds exactly on a bracketed
    reference, which it takes whole, capturing the digits. *)
Lemma bracketed_exact (s : jsstring) (i : nat) :
  RegExpMatcher re_bracketed s i
  = match bracketAt s i with
    | Some k => Some {| endIndex := i + 2 + k + 1; captures := [Some (i + 2, i + 2 + k)] |}
    | None => None
    end.
Proof.
  unfold re_bracketed, Mini.literal. cbn [RegExpMatcher]. unfold Mini.matcherOf, digits1.
  cbn [Mini.matchRegex length replicate Mini.groupsIn].
  unfold Mini.charMatcher at 1. cbn [endIndex captures]. unfold bracketAt.
  destruct (s !! i) as [a|] eqn:Hi;
    [|rewrite (bool_decide_eq_false_2 _ (fun H : None = Some (ch "$") => None_ne_Some _ H));
      reflexivity].
  destruct (N.eqb_spec (ch "$") a) as [<-|Hne];
    [|rewrite bool_decide_eq_false_2 by congruence; reflexivity].
  rewrite bool_decide_eq_true_2 by reflexivity. cbn [andb].
  unfold Mini.charMatcher at 1. cbn [endIndex captures].
  replace (i + 1) with (S i) by lia.
  destruct (s !! S i) as [b|] eqn:Hb;
    [|rewrite (bool_decide_eq_false_2 _ (fun H : None = Some (ch "{") => None_ne_Some _ H));
      reflexivity].
  destruct (N.eqb_spec (ch "{") b) as [<-|Hne];
    [|rewrite bool_decide_eq_false_2 by congruence; reflexivity].
  rewrite bool_decide_eq_true_2 by reflexivity.
  replace (S i + 1) with (i + 2) by lia.
  etransitivity.
  { apply (digits_repeat s); [|lia|cbn [endIndex]; lia].
    intros y a Hy Hdigit. unfold Mini.charMatcher. cbn [endIndex]. rewrite Hy.
    destruct (N.eqb_spec (ch "}") a) as [<-|]; [discriminate | reflexivity]. }
  cbn [endIndex captures].
  destruct (1 <=? digitRun (drop (i + 2) s))%nat; [|reflexivity]. cbn [andb].
  unfold Mini.charMatcher. cbn [endIndex captures].
  destruct (s !! (i + 2 + digitRun (drop (i + 2) s))) as [e|] eqn:He;
    [|rewrite (bool_decide_eq_false_2 _ (fun H : None = Some (ch "}") => None_ne_Some _ H));
      reflexivity].
  destruct (N.eqb_spec (ch "}") e) as [<-|Hne];
    [|rewrite bool_decide_eq_false_2 by congruence; reflexivity].
  rewrite bool_decide_eq_true_2 by reflexivity. reflexivity.
Qed.

(** The callback of the second [replace] of [substitute]. *)
Definition bracketCallback : ReplaceValue :=
  ReplaceFunction (fun _ caps _ _ => js "$" ++ ToString (default None (caps !! 0))).

Lemma bracketed_flags :
  global (flags_ re_bracketed) = true /\ sticky (flags_ re_bracketed) = false
  /\ fullUnicode (flags_ re_bracketed) = false.
Proof. repeat split. Qed.

Lemma bracketed_bounded : BoundedMatcher (RegExpMatcher re_bracketed).
Proof. apply literal_bounded. Qed.

Lemma bracketed_fails (str : jsstring) (j : nat) :
  RegExpMatcher re_bracketed str j = None <-> bracketAt str j = None.
Proof. rewrite bracketed_exact. destruct (bracketAt str j); split; congruence. Qed.

(** What [exec] returns for the bracketed literal: the leftmost bracketed
    reference from [lastIndex] on, replaced by the callback with a dollar
    sign and its digits. *)
Lemma bracketed_exec (str : jsstring) (lastIndex : nat) (m : Match) (lastIndex1 : nat) :
  RegExpBuiltinExec re_bracketed str lastIndex = (Some m, lastIndex1) ->
  exists k,
    bracketAt str (index m) = Some k
    /\ lastIndex <= index m
    /\ (forall j, lastIndex <= j < index m -> bracketAt str j = None)
    /\ matchEnd m = index m + k + 3
    /\ lastIndex1 = index m + k + 3
    /\ replacementOf str bracketCallback m = ch "$" :: take k (drop (index m + 2) str).
Proof.
  intros Hexec. destruct bracketed_flags as (Hglobal & Hsticky & Hplain).
  destruct (exec_leftmost re_bracketed str Hsticky Hplain _ _ _ Hexec)
    as (Hrange & _ & Hleft).
  change (startOf re_bracketed lastIndex) with lastIndex in Hrange, Hleft.
  destruct (exec_Some re_bracketed str lastIndex m lastIndex1 bracketed_bounded Hexec)
    as (found & r & _ & Hmatch & Hm & Hindex & _ & _ & Hlast).
  destruct (exec_matchEnd re_bracketed str bracketed_bounded eq_refl _ _ _ Hexec)
    as [Hend _].
  change (fullUnicode (flags_ re_bracketed)) with false in *.
  unfold toInput, toUnit, inputOf in *. subst found.
  change (global (flags_ re_bracketed) || sticky (flags_ re_bracketed)) with true in Hlast.
  cbv iota in Hlast.
  rewrite bracketed_exact in Hmatch.
  destruct (bracketAt str (index m)) as [k|] eqn:Hat; [|discriminate].
  injection Hmatch as <-. cbn [endIndex] in Hlast.
  exists k. split; [reflexivity|]. split; [lia|]. split.
  { intros j Hj. apply bracketed_fails. apply Hleft. exact Hj. }
  split; [lia|]. split; [lia|].
  rewrite Hm at 1. unfold replacementOf, bracketCallback, execResult.
  change (fullUnicode (flags_ re_bracketed)) with false.
  cbn [array captures map drop lookup list_lookup default ToString app js
       list_ascii_of_string].
  change (default ?d (id (Some ?v))) with v.
  unfold substr. replace (index m + 2 + k - (index m + 2)) with k by lia. reflexivity.
Qed.

Lemma bracketed_none (str : jsstring) (lastIndex lastIndex1 : nat) :
  RegExpBuiltinExec re_bracketed str lastIndex = (None, lastIndex1) ->
  forall j, lastIndex <= j -> bracketAt str j = None.
Proof.
  intros Hexec j Hj. destruct bracketed_flags as (_ & Hsticky & Hplain).
  destruct (decide (j <= length str)) as [Hin|Hout].
  - apply bracketed_fails.
    apply (exec_exhausted re_bracketed str Hsticky Hplain _ _ Hexec).
    change (startOf re_bracketed lastIndex) with lastIndex. lia.
  - unfold bracketAt. rewrite (proj2 (lookup_ge_None str j)) by lia.
    rewrite (bool_decide_eq_false_2 _ (fun H : None = Some (ch "$") => None_ne_Some _ H)).
    reflexivity.
Qed.

(** ** The rewriting as a scan *)

(** The template with every bracketed reference written without its braces,
    read from left to right: where the text at hand is [${], digits and [}],
    a dollar sign and the digits are put and the scan goes on behind the
    closing brace; otherwise the character at hand is kept. [fuel] bounds
    the number of steps; the length of the text is enough. The second
    definition of the refinement [BracketFacts.StringReplace_unbracket]. *)
Fixpoint unbracketFrom (fuel : nat) (s : jsstring) : jsstring :=
  match fuel, s with
  | S fuel', c :: t =>
      match bracketAt s 0 with
      | Some k => ch "$" :: take k (drop 2 s) ++ unbracketFrom fuel' (drop (k + 3) s)
      | None => c :: unbracketFrom fuel' t
      end
  | _, _ => s
  end.

Definition unbracket (s : jsstring) : jsstring := unbracketFrom (length s) s.

Lemma bracketAt_Some (s : jsstring) (i k : nat) :
  bracketAt s i = Some k ->
  s !! i = Some (ch "$") /\ s !! S i = Some (ch "{")
  /\ k = digitRun (drop (i + 2) s) /\ 1 <= k /\ s !! (i + 2 + k) = Some (ch "}").
Proof.
  unfold bracketAt.
  destruct (bool_decide (s !! i = Some (ch "$"))) eqn:H1; [|discriminate].
  destruct (bool_decide (s !! S i = Some (ch "{"))) eqn:H2; [|discriminate].
  cbn [andb]. destruct (1 <=? digitRun (drop (i + 2) s))%nat eqn:H3; [|discriminate].
  destruct (bool_decide (s !! (i + 2 + digitRun (drop (i + 2) s)) = Some (ch "}"))) eqn:H4;
    [|discriminate].
  intros [= <-]. apply bool_decide_eq_true_1 in H1, H2, H4. apply Nat.leb_le in H3. auto.
Qed.

Lemma bracketAt_drop (s : jsstring) (from i : nat) :
  bracketAt (drop from s) i = bracketAt s (from + i).
Proof.
  unfold bracketAt. rewrite !lookup_drop, drop_drop.
  replace (from + S i) with (S (from + i)) by lia.
  replace (from + (i + 2)) with (from + i + 2) by lia.
  replace (from + (i + 2 + digitRun (drop (from + i + 2) s)))
    with (from + i + 2 + digitRun (drop (from + i + 2) s)) by lia.
  reflexivity.
Qed.

Lemma bracketAt_cons (c : N) (t : jsstring) (i : nat) :
  bracketAt (c :: t) (S i) = bracketAt t i.
Proof. exact (eq_sym (bracketAt_drop (c :: t) 1 i)). Qed.

Lemma unbracketFrom_fuel :
  forall fuel fuel' s,
    length s <= fuel -> length s <= fuel' ->
    unbracketFrom fuel s = unbracketFrom fuel' s.
Proof.
  induction fuel as [|fuel IH]; intros fuel' s Hf Hf'.
  - destruct s; [|simpl in Hf; lia]. destruct fuel'; reflexivity.
  - destruct s as [|c t]; [destruct fuel'; reflexivity|].
    destruct fuel' as [|fuel']; [simpl in Hf'; lia|]. cbn [unbracketFrom].
    cbn [length] in Hf, Hf'.
    destruct (bracketAt (c :: t) 0) as [k|].
    + do 2 f_equal. apply IH; rewrite length_drop; cbn [length]; lia.
    + f_equal. apply IH; lia.
Qed.

Lemma unbracket_some (s : jsstring) (k : nat) :
  bracketAt s 0 = Some k ->
  unbracket s = ch "$" :: take k (drop 2 s) ++ unbracket (drop (k + 3) s).
Proof.
  intros Hat. unfold unbracket. destruct s as [|c t].
  - apply bracketAt_Some in Hat as (Hnil & _). discriminate.
  - cbn [length unbracketFrom]. rewrite Hat. do 2 f_equal.
    apply unbracketFrom_fuel; rewrite length_drop; cbn [length]; lia.
Qed.

Lemma unbracket_keep (c : N) (t : jsstring) :
  bracketAt (c :: t) 0 = None -> unbracket (c :: t) = c :: unbracket t.
Proof. intros Hat. unfold unbracket. cbn [length unbracketFrom]. rewrite Hat. reflexivity. Qed.

Lemma unbracket_none (s : jsstring) :
  (forall i, bracketAt s i = None) -> unbracket s = s.
Proof.
  induction s as [|c t IH]; intros Hnone; [reflexivity|].
  rewrite (unbracket_keep _ _ (Hnone 0)). f_equal. apply IH.
  intros i. rewrite <- (bracketAt_cons c). apply Hnone.
Qed.

(** The scan up to the first bracketed reference. *)
Lemma unbracket_first :
  forall at_ s k,
    (forall i, i < at_ -> bracketAt s i = None) ->
    bracketAt s at_ = Some k ->
    unbracket s
    = take at_ s ++ ch "$" :: take k (drop (at_ + 2) s) ++ unbracket (drop (at_ + k + 3) s).
Proof.
  induction at_ as [|at_ IH]; intros s k Hnone Hat.
  - rewrite (unbracket_some s k Hat). reflexivity.
  - destruct s as [|c t].
    { apply bracketAt_Some in Hat as (Hnil & _). discriminate. }
    rewrite (unbracket_keep c t (Hnone 0 ltac:(lia))). cbn [take app drop Nat.add].
    f_equal. apply IH.
    + intros i Hi. rewrite <- (bracketAt_cons c). apply Hnone. lia.
    + rewrite <- (bracketAt_cons c). exact Hat.
Qed.

(** ** [replace] with a callback *)

(** The subject with every result replaced by its text. *)
Fixpoint spliceWith (str : jsstring) (text : Match -> jsstring) (pos : nat)
    (ms : list Match) : jsstring :=
  match ms with
  | [] => drop pos str
  | m :: rest =>
      substr str pos (index m) ++ text m ++ spliceWith str text (matchEnd m) rest
  end.

Section Callback.
Variable R : RegExpObject.
Variable str : jsstring.
Hypothesis Hbounded : BoundedMatcher (RegExpMatcher R).
Variable replaceValue : ReplaceValue.

Lemma fold_spliceWith :
  forall results acc nsp,
    Forall (ExecMatch R str) results ->
    disjoint results ->
    Forall (fun m => nsp <= index m) results ->
    forall acc' nsp',
      fold_left (replaceStep str replaceValue) results (acc, nsp) = (acc', nsp') ->
      acc' ++ drop nsp' str
      = acc ++ spliceWith str (replacementOf str replaceValue) nsp results.
Proof.
  induction results as [|m results IH]; intros acc nsp Hall Hdis Hfrom acc' nsp' Hfold;
    cbn [fold_left] in Hfold.
  - injection Hfold as <- <-. reflexivity.
  - apply Forall_cons in Hall as [Hm Hall].
    apply StronglySorted_cons in Hdis as [Hnext Hdis].
    apply Forall_cons in Hfrom as [Hle Hfrom].
    destruct (ExecMatch_matched R str m Hm) as [_ Hend].
    unfold replaceStep at 2 in Hfold.
    assert (Hpos : index m `min` length str = index m) by (unfold matchEnd in Hend; lia).
    rewrite Hpos in Hfold.
    replace (nsp <=? index m)%nat with true in Hfold by (symmetry; apply Nat.leb_le; lia).
    fold (matchEnd m) in Hfold.
    rewrite (IH _ _ Hall Hdis Hnext _ _ Hfold). cbn [spliceWith].
    rewrite <- !app_assoc. reflexivity.
Qed.

Lemma StringReplace_spliceWith :
  disjoint (replaceCollect (2 + length str) R str 0) ->
  StringReplace str R replaceValue
  = spliceWith str (replacementOf str replaceValue) 0
      (replaceCollect (2 + length str) R str 0).
Proof.
  intros Hdis. unfold StringReplace.
  destruct (fold_left _ _ _) as [acc nsp] eqn:Hfold.
  apply fold_spliceWith in Hfold.
  - cbn [app] in Hfold. rewrite <- Hfold.
    destruct (length str <=? nsp)%nat eqn:Hle; [|reflexivity].
    apply Nat.leb_le in Hle. rewrite drop_ge by lia. rewrite app_nil_r. reflexivity.
  - apply replaceCollect_ExecMatch. exact Hbounded.
  - exact Hdis.
  - apply Forall_forall. intros; lia.
Qed.

End Callback.

(** The results the second [replace] collects from an index on: in order,
    apart, and spliced with the callback's texts they give the scan of the
    rest of the template. *)
Lemma collect_unbracket (str : jsstring) :
  forall n lastIndex,
    lastIndex <= length str ->
    length str + 2 <= n + lastIndex ->
    let results := replaceCollect n re_bracketed str lastIndex in
    disjoint results
    /\ Forall (fun m => lastIndex <= index m) results
    /\ spliceWith str (replacementOf str bracketCallback) lastIndex results
       = unbracket (drop lastIndex str).
Proof.
  induction n as [|n IH]; intros lastIndex Hin Hn; [lia|].
  cbn [replaceCollect].
  destruct (RegExpBuiltinExec re_bracketed str lastIndex) as [[m|] lastIndex1] eqn:Hexec.
  - destruct (bracketed_exec _ _ _ _ Hexec) as (k & Hat & Hle & Hnone & Hend & -> & Htext).
    change (negb (global (flags_ re_bracketed))) with false. cbv iota.
    assert (Hmatched : matched m <> []).
    { unfold matchEnd in Hend. intros Hnil. rewrite Hnil in Hend. simpl in Hend. lia. }
    destruct (matched m) as [|c0 rest0] eqn:Hm0; [contradiction|]. clear Hmatched.
    destruct (bracketAt_Some _ _ _ Hat) as (_ & _ & _ & Hk & Hclose).
    pose proof (lookup_lt_Some _ _ _ Hclose) as Hlt.
    destruct (IH (index m + k + 3)) as (Hdis & Hfrom & Hsplice); [lia | lia |].
    split; [|split].
    + constructor; [exact Hdis|]. eapply Forall_impl; [exact Hfrom|].
      intros m'. cbn. lia.
    + constructor; [exact Hle|]. eapply Forall_impl; [exact Hfrom|].
      intros m'. cbn. lia.
    + cbn [spliceWith]. rewrite Hend, Hsplice, Htext.
      rewrite (unbracket_first (index m - lastIndex) (drop lastIndex str) k).
      * unfold substr. rewrite !drop_drop.
        replace (lastIndex + (index m - lastIndex + 2)) with (index m + 2) by lia.
        replace (lastIndex + (index m - lastIndex + k + 3)) with (index m + k + 3) by lia.
        reflexivity.
      * intros i Hi. rewrite bracketAt_drop. apply Hnone. lia.
      * rewrite bracketAt_drop.
        replace (lastIndex + (index m - lastIndex)) with (index m) by lia. exact Hat.
  - split; [constructor|]. split; [constructor|]. cbn [spliceWith].
    symmetry. apply unbracket_none. intros i. rewrite bracketAt_drop.
    apply (bracketed_none _ _ _ Hexec). lia.
Qed.

(** The second [replace] of [substitute] is the scan. *)
Lemma StringReplace_unbracket (template : jsstring) :
  StringReplace template re_bracketed bracketCallback = unbracket template.
Proof.
  destruct (collect_unbracket template (2 + length template) 0) as (Hdis & _ & Hsplice);
    [lia | lia |].
  rewrite drop_0 in Hsplice. rewrite <- Hsplice.
  apply StringReplace_spliceWith; [exact bracketed_bounded | exact Hdis].
Qed.

(** ** What the scan keeps *)

Lemma digitRun_digits (u : jsstring) :
  Forall (fun d => isDigit d = true) (take (digitRun u) u).
Proof.
  induction u as [|c u IH]; cbn [digitRun]; [constructor|].
  destruct (isDigit c) eqn:Hc; cbn [take]; [|constructor].
  constructor; [exact Hc | exact IH].
Qed.

Lemma digitRun_app (digits rest : jsstring) :
  Forall (fun d => isDigit d = true) digits ->
  head rest <> None -> (forall d, head rest = Some d -> isDigit d = false) ->
  digitRun (digits ++ rest) = length digits.
Proof.
  intros Hdigits Hsome Hstop. induction Hdigits as [|d digits Hd _ IH]; cbn [app digitRun length].
  - destruct rest as [|c rest]; [contradiction|]. cbn [digitRun].
    rewrite (Hstop c eq_refl). reflexivity.
  - rewrite Hd, IH. reflexivity.
Qed.

Lemma pairFree_cons (a b x : N) (l : jsstring) :
  (x = a -> head l = Some b -> False) -> pairFree a b l -> pairFree a b (x :: l).
Proof.
  intros Hhead Hfree [|i] Ha Hb.
  - injection Ha as ->. apply Hhead; [reflexivity|]. rewrite <- head_lookup_0. exact Hb.
  - exact (Hfree i Ha Hb).
Qed.

Lemma pairFree_drop (a b : N) (n : nat) (l : jsstring) :
  pairFree a b l -> pairFree a b (drop n l).
Proof.
  intros Hfree i Ha Hb. rewrite lookup_drop in Ha, Hb.
  replace (n + S i) with (S (n + i)) in Hb by lia. exact (Hfree _ Ha Hb).
Qed.

Lemma pairFree_app_r (a b : N) (l1 l2 : jsstring) :
  pairFree a b (l1 ++ l2) -> pairFree a b l2.
Proof.
  intros Hfree. rewrite <- (drop_app_length l1 l2). apply pairFree_drop. exact Hfree.
Qed.

Lemma includes_pairFree (a b : N) (s : jsstring) :
  JS.includes s [a; b] = false -> pairFree a b s.
Proof. intros Hfalse i Ha Hb. exact (includes_two_false s a b i Hfalse Ha Hb). Qed.

Lemma pairFree_digits (b : N) (digits rest : jsstring) :
  Forall (fun d => isDigit d = true) digits ->
  pairFree (ch "$") b rest -> pairFree (ch "$") b (digits ++ rest).
Proof.
  intros Hdigits Hfree. induction Hdigits as [|d digits Hd _ IH]; [exact Hfree|].
  cbn [app]. apply pairFree_cons; [|exact IH]. intros -> _. discriminate.
Qed.

(** The scan leaves the first character as it is. *)
Lemma head_unbracket (s : jsstring) : head (unbracket s) = head s.
Proof.
  destruct s as [|c t]; [reflexivity|].
  destruct (bracketAt (c :: t) 0) as [k|] eqn:Hat.
  - rewrite (unbracket_some _ _ Hat). apply bracketAt_Some in Hat as (Hc & _).
    injection Hc as ->. reflexivity.
  - rewrite (unbracket_keep _ _ Hat). reflexivity.
Qed.

(** The scan brings in no dollar sign that is followed by anything but a
    digit. *)
Lemma unbracket_pairFree (b : N) :
  isDigit b = false ->
  forall n s, length s <= n -> pairFree (ch "$") b s -> pairFree (ch "$") b (unbracket s).
Proof.
  intros Hb. induction n as [|n IH]; intros s Hlen Hfree.
  - destruct s; [exact Hfree | simpl in Hlen; lia].
  - destruct s as [|c t]; [exact Hfree|]. cbn [length] in Hlen.
    destruct (bracketAt (c :: t) 0) as [k|] eqn:Hat.
    + rewrite (unbracket_some _ _ Hat).
      destruct (bracketAt_Some _ _ _ Hat) as (_ & _ & -> & Hk & _).
      change (0 + 2) with 2 in *.
      pose proof (digitRun_digits (drop 2 (c :: t))) as Hdigits.
      apply pairFree_cons.
      * intros _ Hhead.
        destruct (take (digitRun (drop 2 (c :: t))) (drop 2 (c :: t))) as [|d digits] eqn:Htake.
        { apply (f_equal length) in Htake. rewrite length_take in Htake.
          assert (Hle : digitRun (drop 2 (c :: t)) <= length (drop 2 (c :: t))).
          { clear. induction (drop 2 (c :: t)) as [|x u IHu]; cbn [digitRun length]; [lia|].
            destruct (isDigit x); lia. }
          cbn [length] in Htake. lia. }
        cbn [app head] in Hhead. injection Hhead as ->.
        apply Forall_cons in Hdigits as [Hd _]. congruence.
      * apply pairFree_digits; [exact Hdigits|].
        apply IH; [rewrite length_drop; cbn [length]; lia|].
        apply pairFree_drop. exact Hfree.
    + rewrite (unbracket_keep _ _ Hat). apply pairFree_cons.
      * intros -> Hhead. rewrite head_unbracket in Hhead.
        apply (Hfree 0); [reflexivity|]. cbn. rewrite head_lookup_0. exact Hhead.
      * apply IH; [lia|]. eapply pairFree_tail. exact Hfree.
Qed.

Lemma digitRun_all (u : jsstring) (j : nat) :
  j < digitRun u -> exists d, u !! j = Some d /\ isDigit d = true.
Proof.
  revert j. induction u as [|c u IH]; intros j Hj; cbn [digitRun] in Hj; [lia|].
  destruct (isDigit c) eqn:Hc; [|lia].
  destruct j as [|j]; [exists c; split; [reflexivity | exact Hc]|].
  apply IH. lia.
Qed.

Lemma digitRun_spec (k : nat) :
  forall u,
    (forall j, j < k -> exists d, u !! j = Some d /\ isDigit d = true) ->
    (forall d, u !! k = Some d -> isDigit d = false) ->
    digitRun u = k.
Proof.
  induction k as [|k IH]; intros u Hall Hstop.
  - destruct u as [|c u]; [reflexivity|]. cbn [digitRun]. rewrite (Hstop c eq_refl). reflexivity.
  - destruct (Hall 0 ltac:(lia)) as (d & Hd & Hdigit).
    destruct u as [|c u]; [discriminate|]. injection Hd as ->.
    cbn [digitRun]. rewrite Hdigit. f_equal. apply IH.
    + intros j Hj. exact (Hall (S j) ltac:(lia)).
    + intros d' Hd'. exact (Hstop d' Hd').
Qed.

(** A bracketed reference, said without the scan of the digits. *)
Lemma bracketAt_iff (s : jsstring) (i k : nat) :
  bracketAt s i = Some k
  <-> s !! i = Some (ch "$") /\ s !! S i = Some (ch "{") /\ 1 <= k
      /\ (forall j, j < k -> exists d, s !! (i + 2 + j) = Some d /\ isDigit d = true)
      /\ s !! (i + 2 + k) = Some (ch "}").
Proof.
  split.
  - intros Hat. apply bracketAt_Some in Hat as (Ha & Hb & -> & Hk & Hclose).
    repeat split; try assumption.
    intros j Hj. apply digitRun_all in Hj as (d & Hd & Hdigit).
    rewrite lookup_drop in Hd. exists d. split; assumption.
  - intros (Ha & Hb & Hk & Hall & Hclose).
    assert (Hrun : digitRun (drop (i + 2) s) = k).
    { apply digitRun_spec.
      - intros j Hj. rewrite lookup_drop. exact (Hall j Hj).
      - intros d. rewrite lookup_drop, Hclose. intros [= <-]. reflexivity. }
    unfold bracketAt. rewrite Ha, Hb, !bool_decide_eq_true_2 by reflexivity.
    cbn [andb]. rewrite Hrun, Hclose, bool_decide_eq_true_2 by reflexivity.
    replace (1 <=? k)%nat with true by (symmetry; apply Nat.leb_le; exact Hk).
    reflexivity.
Qed.

(** No bracketed reference reaches over a dollar sign: before one, the
    references of a template are those of the text before it. *)
Lemma bracketAt_app (before s : jsstring) (k : nat) :
  before <> [] -> head s = Some (ch "$") ->
  bracketAt (before ++ s) 0 = Some k <-> bracketAt before 0 = Some k /\ k + 3 <= length before.
Proof.
  intros Hne Hhead. rewrite !bracketAt_iff. cbn [Nat.add].
  assert (Hdollar : (before ++ s) !! length before = Some (ch "$")).
  { rewrite lookup_app_r, Nat.sub_diag by lia. destruct s; [discriminate | exact Hhead]. }
  split.
  - intros (Ha & Hb & Hk & Hall & Hclose).
    assert (Hlen : S (S k) < length before).
    { destruct (Nat.lt_ge_cases (S (S k)) (length before)) as [Hlt|Hge]; [exact Hlt|].
      exfalso. destruct (length before) as [|[|n]] eqn:Hn.
      - destruct before; [contradiction | discriminate].
      - rewrite Hb in Hdollar. discriminate.
      - destruct (Nat.eq_dec n k) as [->|Hnk].
        + rewrite Hclose in Hdollar. discriminate.
        + destruct (Hall n ltac:(lia)) as (d & Hd & Hdigit).
          rewrite Hdollar in Hd. injection Hd as <-. discriminate. }
    split; [|lia]. repeat split.
    + rewrite lookup_app_l in Ha by lia. exact Ha.
    + rewrite lookup_app_l in Hb by lia. exact Hb.
    + exact Hk.
    + intros j Hj. destruct (Hall j Hj) as (d & Hd & Hdigit).
      rewrite lookup_app_l in Hd by lia. exists d. split; assumption.
    + rewrite lookup_app_l in Hclose by lia. exact Hclose.
  - intros ((Ha & Hb & Hk & Hall & Hclose) & Hlen). repeat split.
    + rewrite lookup_app_l by lia. exact Ha.
    + rewrite lookup_app_l by lia. exact Hb.
    + exact Hk.
    + intros j Hj. destruct (Hall j Hj) as (d & Hd & Hdigit).
      exists d. rewrite lookup_app_l by lia. split; assumption.
    + rewrite lookup_app_l by lia. exact Hclose.
Qed.

(** The scan goes through a template piece by piece, where a piece starts
    with a dollar sign. *)
Lemma unbracket_app (s : jsstring) :
  head s = Some (ch "$") ->
  forall n before, length before <= n ->
    unbracket (before ++ s) = unbracket before ++ unbracket s.
Proof.
  intros Hhead. induction n as [|n IH]; intros before Hlen.
  - destruct before; [reflexivity | simpl in Hlen; lia].
  - destruct before as [|c t]; [reflexivity|]. cbn [length] in Hlen.
    pose proof (fun k => bracketAt_app (c :: t) s k ltac:(discriminate) Hhead) as Happ.
    destruct (bracketAt (c :: t) 0) as [k|] eqn:Hat.
    + destruct (bracketAt_Some _ _ _ Hat) as (_ & _ & _ & _ & Hclose).
      apply lookup_lt_Some in Hclose. cbn [Nat.add] in Hclose.
      assert (Hboth : bracketAt ((c :: t) ++ s) 0 = Some k).
      { apply Happ. split; [reflexivity | lia]. }
      rewrite (unbracket_some _ _ Hboth), (unbracket_some _ _ Hat).
      rewrite !drop_app_le by lia. rewrite take_app_le by (rewrite length_drop; lia).
      rewrite IH by (rewrite length_drop; cbn [length]; lia).
      cbn [app]. rewrite <- app_assoc. reflexivity.
    + assert (Hboth : bracketAt ((c :: t) ++ s) 0 = None).
      { destruct (bracketAt ((c :: t) ++ s) 0) as [k|] eqn:Hk; [|reflexivity].
        destruct (proj1 (Happ k) eq_refl) as [Hk' _]. discriminate. }
      cbn [app] in Hboth |- *.
      rewrite (unbracket_keep _ _ Hboth), (unbracket_keep _ _ Hat), (IH t) by lia.
      reflexivity.
Qed.

Lemma pairFree_app_l (a b : N) (l1 l2 : jsstring) :
  pairFree a b (l1 ++ l2) -> pairFree a b l1.
Proof.
  intros Hfree i Ha Hb. apply (Hfree i).
  - apply lookup_app_l_Some. exact Ha.
  - apply lookup_app_l_Some. exact Hb.
Qed.

(** The scan of a bracketed reference. *)
Lemma unbracket_reference (digits after : jsstring) :
  digits <> [] -> Forall (fun d => isDigit d = true) digits ->
  unbracket (js "${" ++ digits ++ js "}" ++ after) = js "$" ++ digits ++ unbracket after.
Proof.
  intros Hne Hdigits.
  assert (Hrun : digitRun (digits ++ js "}" ++ after) = length digits).
  { apply digitRun_app; [exact Hdigits | discriminate |]. intros d [= <-]. reflexivity. }
  rewrite (unbracket_some _ (length digits)).
  - change (drop 2 (js "${" ++ digits ++ js "}" ++ after)) with (digits ++ js "}" ++ after).
    rewrite take_app_length.
    replace (drop (length digits + 3) (js "${" ++ digits ++ js "}" ++ after)) with after;
      [reflexivity|].
    replace (length digits + 3) with (S (S (length digits + 1))) by lia.
    change (drop (S (S (length digits + 1))) (js "${" ++ digits ++ js "}" ++ after))
      with (drop (length digits + 1) (digits ++ js "}" ++ after)).
    rewrite <- drop_drop, drop_app_length. reflexivity.
  - unfold bracketAt.
    change ((js "${" ++ digits ++ js "}" ++ after) !! 0) with (Some (ch "$")).
    change ((js "${" ++ digits ++ js "}" ++ after) !! 1) with (Some (ch "{")).
    rewrite !bool_decide_eq_true_2 by reflexivity. cbn [andb Nat.add].
    change (drop 2 (js "${" ++ digits ++ js "}" ++ after)) with (digits ++ js "}" ++ after).
    rewrite Hrun.
    replace (1 <=? length digits)%nat with true
      by (symmetry; apply Nat.leb_le; destruct digits; [contradiction | simpl; lia]).
    change ((js "${" ++ digits ++ js "}" ++ after) !! S (S (length digits)))
      with ((digits ++ js "}" ++ after) !! length digits).
    rewrite lookup_app_r by lia. rewrite Nat.sub_diag.
    rewrite bool_decide_eq_true_2 by reflexivity. reflexivity.
Qed.

(** A template without [${] holds no bracketed reference. *)
Lemma bracketAt_none (s : jsstring) :
  JS.includes s (js "${") = false -> forall i, bracketAt s i = None.
Proof.
  intros Hnone i. destruct (bracketAt s i) as [k|] eqn:Hat; [|reflexivity].
  apply bracketAt_Some in Hat as (Ha & Hb & _).
  exfalso. exact (includes_two_false s _ _ i Hnone Ha Hb).
Qed.

(** The three first [replace] calls of [substitute]. *)
Lemma processReplacement_unbracket (replacement : jsstring) :
  processReplacement replacement
  = StringReplace
      (StringReplace (unbracket replacement) (re_dollar (ch "`")) (ReplaceTemplate (js "$`")))
      (re_dollar (ch "'")) (ReplaceTemplate (js "$'")).
Proof.
  unfold processReplacement. rewrite numbered_identity.
  fold bracketCallback. rewrite StringReplace_unbracket, whole_match_identity. reflexivity.
Qed.

Lemma processReplacement_scan (replacement : jsstring) :
  JS.includes replacement (js "$`") = false ->
  JS.includes replacement (js "$'") = false ->
  processReplacement replacement = unbracket replacement.
Proof.
  intros Hbefore Hafter. rewrite processReplacement_unbracket.
  assert (H1 : JS.includes (unbracket replacement) [ch "$"; ch "`"] = false).
  { apply pairFree_includes.
    apply (unbracket_pairFree (ch "`") eq_refl (length replacement)); [lia|].
    apply includes_pairFree. exact Hbefore. }
  assert (H2 : JS.includes (unbracket replacement) [ch "$"; ch "'"] = false).
  { apply pairFree_includes.
    apply (unbracket_pairFree (ch "'") eq_refl (length replacement)); [lia|].
    apply includes_pairFree. exact Hafter. }
  rewrite (twoChars_no_match _ _ _ _ _ H1 : StringReplace _ (re_dollar _) _ = _).
  exact (twoChars_no_match _ _ _ _ _ H2).
Qed.

(** C3, as the code has it: the pre-processing rewrites every bracketed
    reference [${N}], [N] one digit or more, to the native [$N] and re-emits
    everything else, each [$N] and each [$&] included, as it is. For every
    template, what the three first [replace] calls hand on is the template
    with its bracketed references rewritten from left to right. For every
    template that holds neither [$`] nor [$'] that is the processed template:
    it is the original one when the template holds no [${], and wherever a
    bracketed reference stands in the template it comes out without its
    braces, between the text before it and the text after it, each
    processed in the same way. *)
Theorem processReplacement_rewrites (replacement : jsstring) :
  processReplacement replacement
  = StringReplace
      (StringReplace (unbracket replacement) (re_dollar (ch "`")) (ReplaceTemplate (js "$`")))
      (re_dollar (ch "'")) (ReplaceTemplate (js "$'"))
  /\ (JS.includes replacement (js "$`") = false ->
      JS.includes replacement (js "$'") = false ->
      processReplacement replacement = unbracket replacement
      /\ (JS.includes replacement (js "${") = false ->
          processReplacement replacement = replacement)
      /\ forall before digits after,
           replacement = before ++ js "${" ++ digits ++ js "}" ++ after ->
           digits <> [] ->
           Forall (fun d => isDigit d = true) digits ->
           processReplacement replacement
           = processReplacement before ++ js "$" ++ digits ++ processReplacement after).
Proof.
  split; [apply processReplacement_unbracket|].
  intros Hbefore Hafter.
  pose proof (processReplacement_scan replacement Hbefore Hafter) as Hscan.
  split; [exact Hscan|]. split.
  - intros Hbrace. rewrite Hscan. apply unbracket_none. apply bracketAt_none. exact Hbrace.
  - intros before digits after -> Hne Hdigits.
    apply includes_pairFree in Hbefore, Hafter.
    rewrite Hscan.
    rewrite (unbracket_app (js "${" ++ digits ++ js "}" ++ after) eq_refl (length before))
      by lia.
    rewrite (unbracket_reference _ _ Hne Hdigits).
    rewrite (processReplacement_scan before), (processReplacement_scan after).
    + reflexivity.
    + apply pairFree_includes.
      change (before ++ js "${" ++ digits ++ js "}" ++ after)
        with (before ++ js "${" ++ digits ++ [ch "}"] ++ after) in Hbefore.
      rewrite !app_assoc in Hbefore. eapply pairFree_app_r. exact Hbefore.
    + apply pairFree_includes.
      change (before ++ js "${" ++ digits ++ js "}" ++ after)
        with (before ++ js "${" ++ digits ++ [ch "}"] ++ after) in Hafter.
      rewrite !app_assoc in Hafter. eapply pairFree_app_r. exact Hafter.
    + apply pairFree_includes. eapply pairFree_app_l. exact Hbefore.
    + apply pairFree_includes. eapply pairFree_app_l. exact Hafter.
Qed.

(** A template with references of every kind that is handled: the bracketed
    one loses its braces, the others stay. *)
Lemma processReplacement_rewrites_witness :
  processReplacement (js "<$1|${22}|$&|$$>") = js "<$1|$22|$&|$$>"
  /\ processReplacement (js "<$1|${22}|$&|$$>")
     = processReplacement (js "<$1|") ++ js "$" ++ js "22" ++ processReplacement (js "|$&|$$>")
  /\ processReplacement (js "<$1|$22|$&|$$>") = js "<$1|$22|$&|$$>".
Proof.
  split; [|split].
  - exact (proj1 (proj2 (processReplacement_rewrites (js "<$1|${22}|$&|$$>"))
                    eq_refl eq_refl)).
  - apply (proj2 (proj2 (proj2 (processReplacement_rewrites (js "<$1|${22}|$&|$$>"))
                           eq_refl eq_refl)) (js "<$1|") (js "22") (js "|$&|$$>")).
    + reflexivity.
    + discriminate.
    + repeat constructor.
  - apply (proj1 (proj2 (proj2 (processReplacement_rewrites (js "<$1|$22|$&|$$>"))
                           eq_refl eq_refl))). reflexivity.
Defined.

End BracketFacts.

(* ===================================================================== *)
(** * Instances of the further theorems, run by the fragment compiler *)
(* ===================================================================== *)

Module MoreExamples.
Import Host Ctor HostFacts RegexEngine MatchFacts ReplaceFacts SubstituteFacts MatchMore
  SubstituteMore Explain ExplainFacts ExplainMore App AppFacts FlavorMore.

Ltac not_in_list :=
  let Hin := fresh "Hin" in
  intros Hin; vm_compute in Hin;
  repeat (let Hin' := fresh "Hin" in
          inversion Hin as [|? ? ? Hin']; clear Hin; rename Hin' into Hin).

(** [b+] with [g] on ["abbcb"]: two matches, inside the text. *)
Lemma execute_matches_within_witness :
  exists result,
    execute 3 (js "b+") (js "g") (js "abbcb") None = Normal result
    /\ (matched <$> matches result) = [js "bb"; js "b"]
    /\ Forall (fun m =>
                 input m = js "abbcb"
                 /\ index m + length (matched m) <= 5
                 /\ matched m
                    = substr (js "abbcb") (index m) (index m + length (matched m)))
              (matches result).
Proof.
  eexists. split; [vm_compute; reflexivity|]. split; [reflexivity|].
  eapply (execute_matches_within 3 (js "b+") (js "g") (js "abbcb") None).
  vm_compute. reflexivity.
Defined.

(** Without [g] no budget is needed. *)
Lemma execute_single_witness :
  execute 7 (js "b+") (js "m") (js "abbcb") None
  = execute 0 (js "b+") (js "m") (js "abbcb") None
  /\ execute 7 (js "b+") (js "m") (js "abbcb") None <> OutOfFuel.
Proof.
  destruct (execute_single 7 (js "b+") (js "m") (js "abbcb") None eq_refl)
    as (Hsame & Hreturns & _).
  split; [exact Hsame | exact Hreturns].
Defined.

(** The message of an unclosed group, behind both prefixes. *)
Lemma execute_throws_iff_witness :
  execute 0 (js "(") [] (js "abc") None
  = Throw (js "Regex Error: Invalid regular expression: Invalid regular expression: /(/: not a pattern of the fragment").
Proof.
  apply (proj2 (execute_throws_iff 0 (js "(") [] (js "abc") None _)).
  eexists. split; vm_compute; reflexivity.
Defined.

Lemma execute_global_disjoint_witness :
  exists result,
    execute 3 (js "b+") (js "g") (js "abbcb") None = Normal result
    /\ disjoint (matches result).
Proof.
  eexists. split; [vm_compute; reflexivity|].
  eapply (execute_global_disjoint 3 (js "b+") (js "g") (js "abbcb") None);
    [reflexivity | vm_compute; reflexivity].
Defined.

(** Index 2 of ["abbcb"], where [b+] matches, lies inside the first match. *)
Lemma execute_global_complete_witness :
  exists result,
    execute 3 (js "b+") (js "g") (js "abbcb") None = Normal result
    /\ covered (matches result) 2.
Proof.
  eexists. split; [vm_compute; reflexivity|].
  eapply (execute_global_complete 3 (js "b+") (js "g") (js "abbcb") None);
    [reflexivity | reflexivity | reflexivity | reflexivity | vm_compute; reflexivity
    | vm_compute; reflexivity | vm_compute; lia | vm_compute; discriminate].
Defined.

Lemma execute_first_leftmost_witness :
  exists regex,
    createRegex (js "b+") (js "m") (js "javascript") = Normal regex
    /\ forall j, j < 1 -> RegExpMatcher regex (js "abbcb") j = None.
Proof.
  eexists. split; [vm_compute; reflexivity|].
  pose proof (execute_first_leftmost 0 (js "b+") (js "m") (js "abbcb") None _ _
                eq_refl eq_refl eq_refl eq_refl eq_refl eq_refl) as Hleft.
  exact (proj2 (proj2 Hleft)).
Defined.

Lemma substitute_no_match_witness :
  substitute (js "x+") (js "g") (js "abbcb") (js "<$&>") = Normal (js "abbcb").
Proof.
  eapply (substitute_no_match 1 (js "x+") (js "g") (js "abbcb") (Some (js "python")));
    [reflexivity | vm_compute; reflexivity | reflexivity].
Defined.

Lemma substitute_replaces_matches_witness :
  substitute (js "b+") (js "g") (js "abbcb") (js "-") = Normal (js "a-c-").
Proof.
  refine (eq_trans (substitute_replaces_matches 3 (js "b+") (js "g") (js "abbcb") None _
            (js "-") eq_refl _ _) _).
  - not_in_list.
  - vm_compute. reflexivity.
  - reflexivity.
Defined.

(** [a*] with [gu] on U+1F4A9 followed by [a]. *)
Lemma execute_global_diverges_at_pair_witness :
  execute 100 (js "a*") (js "gu") (Examples.pileOfPoo ++ js "a") None = OutOfFuel.
Proof.
  apply (execute_global_diverges_at_pair 100 (js "a*") (js "gu") 55357%N 56489%N (js "a")
           None (Mini.literal (js "a*") (js "gu")
                   (Mini.Repeat (Mini.Char (ch "a")) 0 None true) [])
           {| endIndex := 0; captures := [] |});
    vm_compute; reflexivity.
Defined.

(** An unclosed bracket and a backslash at the end are left out. *)
Lemma explain_tokens_cover_witness :
  exists tokens,
    length tokens <= 4
    /\ flat_map token tokens `sublist_of` js "a[b\".
Proof.
  destruct (explain_tokens_cover 4 (js "a[b\") [] _ eq_refl)
    as (tokens & _ & Hlen & Hsub & _).
  exists tokens. split; [exact Hlen | exact Hsub].
Defined.

Lemma explain_description_verbatim_witness :
  exists before between after,
    explain 1 (js "[<b>]") (js "g")
    = Normal (before
              ++ js "<code>[&lt;b&gt;]</code>"
              ++ between
              ++ js "<span>Matches any character in the set <b></span>"
              ++ after).
Proof.
  destruct (explain_description_verbatim 0 (js "<b>") (js "g")) as (b & w & a & Hrun).
  - not_in_list.
  - discriminate.
  - exists b, w, a. exact Hrun.
Defined.

Lemma getFlagsExplanation_set_witness :
  getFlagsExplanation (js "dvigg") = getFlagsExplanation (js "gi").
Proof.
  apply (getFlagsExplanation_set (js "dvigg") (js "gi")).
  intros c Hc. change (js "gimsuy") with [ch "g"; ch "i"; ch "m"; ch "s"; ch "u"; ch "y"] in Hc.
  rewrite !elem_of_cons, elem_of_nil in Hc.
  destruct Hc as [->|[->|[->|[->|[->|[->|[]]]]]]];
    apply (bool_decide_unpack _); vm_compute; exact I.
Defined.

Lemma getGroupExplanation_named_witness :
  getGroupExplanation (js "(?<year>\d{4})")
  = js "Named capturing group " ++ [QUOTE] ++ js "year" ++ [QUOTE].
Proof.
  apply (proj1 (getGroupExplanation_named (js "year") (js "\d{4})")
                  ltac:(discriminate) ltac:(discriminate) ltac:(not_in_list))).
Defined.

Lemma getQuantifierExplanation_forms_witness :
  getQuantifierExplanation (js "{2,5}")
  = js "Matches previous token between 2 and 5 times".
Proof.
  apply (proj2 (proj2 (getQuantifierExplanation_forms (js "2") (js "5")
                         ltac:(not_in_list)))).
  - not_in_list.
  - discriminate.
Defined.

(** The match of [(a)|(b)] in ["b"]: group 2 is shown, group 1 is not. *)
Lemma views_show_participating_groups_witness :
  renderGroups (groups Examples.secondAlternative)
  = Some (groupsOpen ++ groupItem (js "2") (js "b") ++ js "</div>").
Proof.
  refine (eq_trans (proj1 (views_show_participating_groups 1 (js "(a)|(b)") [] (js "b")
            None _ Examples.secondAlternative 0 Examples.alternatives_run _)) _).
  - cbn [matches]. apply list_elem_of_singleton. reflexivity.
  - vm_compute. reflexivity.
Defined.

(** Three boxes, [g] and [m] checked. *)
Definition threeBoxes : FlagControls :=
  {| flagsValue := js "x";
     checkboxes := [ {| flag := Some (js "g"); checked := true |};
                     {| flag := Some (js "i"); checked := false |};
                     {| flag := Some (js "m"); checked := true |} ] |}.

Lemma checkboxes_round_trip_witness :
  checkboxes (updateFlagsAndProcess (updateFlagsFromCheckboxes threeBoxes))
  = checkboxes threeBoxes
  /\ flagsValue (updateFlagsFromCheckboxes threeBoxes) = js "gm".
Proof.
  split; [|reflexivity].
  apply (checkboxes_round_trip threeBoxes).
  - intros box Hbox. cbn [threeBoxes checkboxes] in Hbox.
    rewrite !elem_of_cons, elem_of_nil in Hbox.
    destruct Hbox as [->|[->|[->|[]]]]; eexists; reflexivity.
  - cbn. repeat constructor; not_in_list.
Defined.

Lemma execute_flavor_passthrough_witness :
  exists result,
    execute 3 (js "b+") (js "g") (js "abbcb") (Some (js "golang")) = Normal result
    /\ (matched <$> matches result) = [js "bb"; js "b"]
    /\ flavor result = js "golang".
Proof.
  eexists. split; [|split].
  - rewrite (execute_flavor_passthrough 3 (js "b+") (js "g") (js "abbcb") (js "golang"))
      by (left; discriminate).
    vm_compute. reflexivity.
  - reflexivity.
  - reflexivity.
Defined.

End MoreExamples.
